(** * The question layouter of the dialog canvas

    A shallow embedding of [questionLayouter] and of the three layouts it
    dispatches to ([questionLayouterBranching],
    [questionLayouterBranchingWithConvergence], [questionLayouterNonBranching])
    together with [calculateEdges].

    Conventions of the embedding.
    - JavaScript numbers are idealised as rationals ([Q]); [a / 2] is exact.
    - The node objects handed to the layouter are mutated in place.  The three
      arguments form the store ([Inputs.t]); a node object is named by a
      [NodeRef] (its role and array index), every array slot being an object
      of its own.  Each layout returns the store it leaves behind.
    - Reading an array out of range gives [undefined] ([None]); reading a
      property of [undefined] raises [TypeError].  A layout therefore ends in a
      [Completion]: [Normal] with its result, or [Throw].

    The development also embeds functions of the JSON language worker that
    the client ships ([jsonWorker.js]): the scanner of jsonc-parser,
    [stripComments], the path patterns of [getLocation],
    [findNodeAtLocation] and [findNodeAtOffset], the text document of the
    language server (line offsets, [positionAt], [offsetAt] and the merge
    sort of its edits), the edits of jsonc-parser, and the string and color
    utilities.

    Conventions of that part.
    - A string is the list of its UTF-16 code units; an index is a [nat], and
      [charCodeAt] past the end of the text is [NaN] ([None]).
    - A loop over the rest of the text is a structural recursion on it; any
      other loop takes fuel and returns an [option], and the fuel it is
      given is proved to suffice.
    - The channels of a color are binary64 floats.
    - The greatest length the engine allows a string is a parameter of
      [repeat], whose doubling reaches it; the other functions are embedded
      for strings within it. *)

From Stdlib Require Import Floats.
From Stdlib Require Import QArith Qminmax Lqa.
From stdpp Require Import gmap strings list fin_maps sorting.

(** ** Geometry values *)

Module Boundary.
(** Modelled from the spec: the class [Boundary] (models/Boundary) is not
    among the sources.  A boundary is a width, a height and [axisX], the
    horizontal centre line relative to the boundary's own origin. *)
Record t : Type := mk { width : Q; height : Q; axisX : Q }.

(** Modelled from the spec: [new Boundary(w, h)] puts the centre line in the
    middle, and [new Boundary()] is the zero boundary. *)
Definition make (w h : Q) : t := mk w h (w / 2).
Definition zero : t := make 0 0.

Definition set_height (b : t) (h : Q) : t := mk (width b) h (axisX b).
End Boundary.

Module CoordPoint.
(** A position [{ x, y }], as in a node's [offset]. *)
Record t : Type := mk { x : Q; y : Q }.
Definition origin : t := mk 0 0.
Definition shift (dx dy : Q) (p : t) : t := mk (dx + x p) (dy + y p).
End CoordPoint.

(** ** Nodes *)

Module Data.
(** The [data] payload of a node, with the fields the layouter reads.  An
    absent field is [None]. *)
Record t : Type := mk {
  type : option string;
  choiceId : option string;
  gotoChoice : option string;
  label : option string
}.
Definition empty : t := mk None None None None.
End Data.

Module GraphNode.
(** Modelled from the spec: the class [GraphNode] (models/GraphNode) is not
    among the sources.  A node has an [id], an [offset] (assigned during
    layout), a [boundary], a [data] payload and a [hidden] flag. *)
Record t : Type := mk {
  id : string;
  offset : CoordPoint.t;
  boundary : Boundary.t;
  data : Data.t;
  hidden : bool
}.

Definition set_offset (n : t) (p : CoordPoint.t) : t :=
  mk (id n) p (boundary n) (data n) (hidden n).
Definition set_hidden (n : t) (h : bool) : t :=
  mk (id n) (offset n) (boundary n) (data n) h.
End GraphNode.

(** The name of a node object of the store. *)
Inductive NodeRef : Type :=
  | QuestionRef
  | ChoiceRef (i : nat)
  | BranchRef (i : nat).

Global Instance NodeRef_eq_dec : EqDecision NodeRef.
Proof. solve_decision. Defined.

Module Inputs.
(** The arguments of [questionLayouter]: the store the layouts work on. *)
Record t : Type := mk {
  questionNode : option GraphNode.t;
  choiceNodes : list GraphNode.t;
  branchNodes : list GraphNode.t
}.

Definition get (st : t) (r : NodeRef) : option GraphNode.t :=
  match r with
  | QuestionRef => questionNode st
  | ChoiceRef i => choiceNodes st !! i
  | BranchRef i => branchNodes st !! i
  end.
End Inputs.

(** ** Edges and the layout record *)

Module EdgeDirection.
(** Modelled from the spec: the enum [EdgeDirection] (models/EdgeData). *)
Inductive t : Type := Up | Down | Left | Right.

Global Instance eq_dec : EqDecision t.
Proof. solve_decision. Defined.
End EdgeDirection.

Module Edge.
(** Modelled from the spec: the type [Edge] (models/EdgeData), a connector
    segment with an [id], a [direction], a starting point, a [length] and
    optional [options] (a text label). *)
Record Options : Type := mkOptions { label : option string }.

Record t : Type := mk {
  id : string;
  direction : EdgeDirection.t;
  x : Q;
  y : Q;
  length : Q;
  options : option Options
}.
End Edge.

Module NodeMap.
(** [nodeMap] holds references to the node objects of the store, by role. *)
Record t : Type := mk {
  questionNode : option NodeRef;
  choiceNodes : option (list NodeRef);
  branchNodes : option (list NodeRef)
}.
Definition empty : t := mk None None None.
End NodeMap.

Module GraphLayout.
(** Modelled from the spec: the output aggregate [GraphLayout]
    (models/GraphLayout); [nodes] is the placeholder that stays empty. *)
Record t : Type := mk {
  boundary : Boundary.t;
  nodeMap : NodeMap.t;
  edges : list Edge.t;
  nodes : list NodeRef
}.

(** Modelled from the spec: [new GraphLayout()] is the empty layout:
    boundary zeroed, no edges, no nodes. *)
Definition empty : t := mk Boundary.zero NodeMap.empty [] [].
End GraphLayout.

(** ** Completions *)

Inductive JSError : Type := TypeError.

Inductive Completion (A : Type) : Type :=
  | Normal (a : A)
  | Throw (e : JSError).
Arguments Normal {A} a.
Arguments Throw {A} e.

Global Instance Completion_ret : MRet Completion := @Normal.
Global Instance Completion_bind : MBind Completion := λ A B f c,
  match c with
  | Normal a => f a
  | Throw e => Throw e
  end.

(** A value that is about to be dereferenced. *)
Definition defined {A : Type} (o : option A) : Completion A :=
  match o with
  | Some a => Normal a
  | None => Throw TypeError
  end.

(** ** The coordinate composition utility *)

Module GraphCoord.
Local Open Scope Q_scope.

(** Modelled from the spec: the class [GraphCoord] (models/GraphCoord) is not
    among the sources.  A composed coordinate exposes the union bounding box
    of its subtree ([boundary]) and knows, for every node of the subtree, the
    node's position relative to the top-left corner of that box ([placed]). *)
Record t : Type := mk {
  boundary : Boundary.t;
  placed : list (NodeRef * CoordPoint.t)
}.

(** [CoordNode = GraphNode | GraphCoord]: what a composition is built from.
    Of a node object the composition keeps the name, to position it, and
    reads the boundary. *)
Inductive CoordNode : Type :=
  | OfNode (r : NodeRef) (b : Boundary.t)
  | OfCoord (c : t).

Definition node (r : NodeRef) (n : GraphNode.t) : CoordNode :=
  OfNode r (GraphNode.boundary n).

(** Modelled from the spec: the alignment directives the layouter uses
    (models/GraphDistanceUtils), [[DT.AxisX, d]] for the horizontal and
    [[DT.BottomMargin, d]] for the vertical position of a dependent. *)
Inductive DistanceX : Type := AxisX (d : Q).
Inductive DistanceY : Type := BottomMargin (d : Q).

Definition Child : Type := (CoordNode * DistanceX * DistanceY)%type.

Definition of_element (e : CoordNode) : t :=
  match e with
  | OfNode r b => mk b [(r, CoordPoint.origin)]
  | OfCoord c => c
  end.

Definition box (e : CoordNode) : Boundary.t := boundary (of_element e).

Definition translate (dx dy : Q) (c : t) : list (NodeRef * CoordPoint.t) :=
  map (λ e, (e.1, CoordPoint.shift dx dy e.2)) (placed c).

(** Modelled from the spec: a dependent attached with [[DT.AxisX, d]] has its
    centre line [d] to the right of the primary's, and one attached with
    [[DT.BottomMargin, g]] has its top [g] below the primary's bottom.  Both
    positions are relative to the primary's top-left corner. *)
Definition child_x (rb : Boundary.t) (ch : Child) : Q :=
  match ch with
  | (e, AxisX d, _) => Boundary.axisX rb + d - Boundary.axisX (box e)
  end.

Definition child_y (rb : Boundary.t) (ch : Child) : Q :=
  match ch with
  | (_, _, BottomMargin g) => Boundary.height rb + g
  end.

(** Modelled from the spec: [new GraphCoord(primary, dependents)] on defined
    elements.  The boundary is the union bounding box of the primary and its
    dependents, its centre line is the primary's, and every node of the
    subtree is positioned relative to the box. *)
Definition compose (root : CoordNode) (children : list Child) : t :=
  let rb := box root in
  let left := foldr Qmin 0 (child_x rb <$> children) in
  let right :=
    foldr Qmax (Boundary.width rb)
      ((λ ch, child_x rb ch + Boundary.width (box ch.1.1)) <$> children) in
  let bottom :=
    foldr Qmax (Boundary.height rb)
      ((λ ch, child_y rb ch + Boundary.height (box ch.1.1)) <$> children) in
  mk (Boundary.mk (right - left) bottom (Boundary.axisX rb - left))
     (translate (- left) 0 (of_element root) ++
      flat_map
        (λ ch, translate (child_x rb ch - left) (child_y rb ch)
                 (of_element ch.1.1))
        children).

(** Modelled from the spec: the constructor as the layouter calls it, which
    is [compose] on defined elements.  What the constructor does with an
    element that is [undefined] is said neither by the sources nor by the
    spec.  The embedding takes it to fail: the union bounding box needs the
    boundary of every element, and reading a property of [undefined] raises
    [TypeError].  That is a choice of the embedding; a statement depends on
    it only where it speaks of a layout that hands the constructor an
    [undefined] element. *)
Definition new (root : option CoordNode)
    (children : list (option CoordNode * DistanceX * DistanceY)) :
    Completion t :=
  root ← defined root;
  children ← mapM (λ ch, e ← defined ch.1.1; mret (e, ch.1.2, ch.2)) children;
  mret (compose root children).

(** Modelled from the spec: the items of a row stand side by side, left to
    right, tops aligned, [interval] apart. *)
Fixpoint row_placed (x interval : Q) (items : list CoordNode) :
    list (NodeRef * CoordPoint.t) :=
  match items with
  | [] => []
  | e :: rest =>
      translate x 0 (of_element e) ++
      row_placed (x + Boundary.width (box e) + interval) interval rest
  end.

Fixpoint row_width (interval : Q) (items : list CoordNode) : Q :=
  match items with
  | [] => 0
  | [e] => Boundary.width (box e)
  | e :: rest => Boundary.width (box e) + interval + row_width interval rest
  end.

Definition row_height (items : list CoordNode) : Q :=
  foldr Qmax 0 ((λ e, Boundary.height (box e)) <$> items).

Section Row.
(** The spec leaves the centre line of a row that is not centred open; it is
    a parameter here, a function of the items' boundaries and the interval. *)
Variable uncentredAxisX : list Boundary.t → Q → Q.

Definition row (items : list CoordNode) (interval : Q) (centred : bool) : t :=
  let w := row_width interval items in
  mk (Boundary.mk w (row_height items)
        (if centred then w / 2 else uncentredAxisX (box <$> items) interval))
     (row_placed 0 interval items).

(** Modelled from the spec:
    [GraphCoord.topAlignWithInterval(nodes, interval, centred)], the row of
    the given elements; it reads the boundary of each of them. *)
Definition topAlignWithInterval (nodes : list (option CoordNode))
    (interval : Q) (centred : bool) : Completion t :=
  items ← mapM defined nodes;
  mret (row items interval centred).
End Row.

(** [contentCoord.boundary.height += d]. *)
Definition add_height (c : t) (d : Q) : t :=
  mk (Boundary.set_height (boundary c) (Boundary.height (boundary c) + d))
     (placed c).

Fixpoint lookup_placed (r : NodeRef) (l : list (NodeRef * CoordPoint.t)) :
    option CoordPoint.t :=
  match l with
  | [] => None
  | (r', p) :: rest => if decide (r' = r) then Some p else lookup_placed r rest
  end.

Definition place (c : t) (x y : Q) (r : NodeRef) (n : GraphNode.t) :
    GraphNode.t :=
  match lookup_placed r (placed c) with
  | Some p => GraphNode.set_offset n (CoordPoint.shift x y p)
  | None => n
  end.

(** Modelled from the spec: [coord.moveCoordTo(x, y)] translates the whole
    composed tree to its absolute position, the corner of its box to
    [(x, y)], which assigns every node of the subtree its offset; the other
    nodes of the store are not touched.  (The layouts of the spec anchor the
    question node itself at the origin; where the content reaches further
    left than the question, the two differ by a translation of the whole
    tree.) *)
Definition moveCoordTo (c : t) (x y : Q) (st : Inputs.t) : Inputs.t :=
  Inputs.mk
    (place c x y QuestionRef <$> Inputs.questionNode st)
    (imap (λ i, place c x y (ChoiceRef i)) (Inputs.choiceNodes st))
    (imap (λ i, place c x y (BranchRef i)) (Inputs.branchNodes st)).

End GraphCoord.

(** ** The layouter *)

Module QuestionType.
(** Modelled from the spec: the enum [QuestionType]
    (widgets/Question/QuestionType) is not among the sources; its members are
    the four type tags the spec names. *)
Definition choice : string := "choice".
Definition confirm : string := "confirm".
Definition text : string := "text".
Definition number : string := "number".
End QuestionType.

(** [new GraphNode()], the fallback operand of [branchNodes[0] || new
    GraphNode()] in [calculateEdges]; that operand is only evaluated for an
    empty slot. *)
Definition GraphNode_blank : GraphNode.t :=
  GraphNode.mk "" CoordPoint.origin Boundary.zero Data.empty false.

(** JavaScript truthiness of a string-valued field. *)
Definition truthy (v : option string) : bool :=
  match v with
  | Some s => bool_decide (s ≠ "")
  | None => false
  end.

(** [array.findIndex(p)], with [None] for [-1]. *)
Definition findIndex {A : Type} (p : A → bool) (l : list A) : option nat :=
  fst <$> list_find (λ a, p a = true) l.

(** [array[i] = v] on an array with holes: writing past the end extends the
    array, leaving holes in between. *)
Fixpoint array_set {A : Type} (i : nat) (v : A) (l : list (option A)) :
    list (option A) :=
  match i, l with
  | O, [] => [Some v]
  | O, _ :: rest => Some v :: rest
  | S i', [] => None :: array_set i' v []
  | S i', a :: rest => a :: array_set i' v rest
  end.

(** [array[i]] on an array with holes: a hole reads as [undefined]. *)
Definition array_get {A : Type} (l : list (option A)) (i : nat) : option A :=
  mjoin (l !! i).

(** [[caseIndex, [choiceIndex1, choiceIndex2, ...]]] *)
Definition Connection : Type := (nat * list nat)%type.


(** * The JSON worker *)

(** ** Strings

    A JavaScript string is the sequence of its UTF-16 code units, a list of
    numbers here; an index is a [nat]. *)

Module JS.

(** [text.substring(start, end)]: the two indices are swapped when they come
    in the wrong order, and an index past the end counts as the length. *)
Definition substring (text : list Z) (start end_ : nat) : list Z :=
  take (start `max` end_ - start `min` end_) (drop (start `min` end_) text).

(** A number that can be [NaN], where the code can produce one. *)
Inductive Number : Type :=
  | Num (z : Z)
  | NaN.

(** The code units of a string of the ASCII range. *)
Definition codes (s : string) : list Z :=
  (λ c, Z.of_N (Ascii.N_of_ascii c)) <$> String.list_ascii_of_string s.

End JS.

(** ** The scanner (jsonc-parser/impl/scanner)

    In the minified source the character tests are the functions [n], [r]
    and [o], the scanner's variables are [a] (position), [s] (token value),
    [c] (token offset), [u] (token), [f] (line number), [l] (token start
    line), [d] and [p] (start of the line of the position and of the token)
    and [h] (scan error), and its inner functions are [m] (hexadecimal
    digits), [g] (the next token) and [v]; they carry the names of
    jsonc-parser here.  Tokens and scan errors are the numbers of the source:
    1 [{], 2 [}], 3 [[], 4 []], 5 [,], 6 [:], 7 [null], 8 [true], 9 [false],
    10 string, 11 number, 12 line comment, 13 block comment, 14 line break,
    15 white space, 16 unknown, 17 end of input; errors 1 unexpected end of
    comment, 2 unexpected end of string, 3 unexpected end of number,
    4 invalid unicode, 5 invalid escape character, 6 invalid character. *)

Module Scanner.

Definition isWhiteSpace (ch : Z) : bool :=
  ((ch =? 32) || (ch =? 9) || (ch =? 11) || (ch =? 12) || (ch =? 160)
   || (ch =? 5760) || ((8192 <=? ch) && (ch <=? 8203)) || (ch =? 8239)
   || (ch =? 8287) || (ch =? 12288) || (ch =? 65279))%Z.

Definition isLineBreak (ch : Z) : bool :=
  ((ch =? 10) || (ch =? 13) || (ch =? 8232) || (ch =? 8233))%Z.

Definition isDigit (ch : Z) : bool := ((48 <=? ch) && (ch <=? 57))%Z.

Definition isUnknownContentCharacter (ch : Z) : bool :=
  if isWhiteSpace ch || isLineBreak ch then false
  else
    negb ((ch =? 125) || (ch =? 93) || (ch =? 123) || (ch =? 91)
          || (ch =? 34) || (ch =? 58) || (ch =? 44) || (ch =? 47))%Z.

(** The variables of a scanner. *)
Record t : Type := mk {
  pos : nat;
  value : list Z;
  tokenOffset : nat;
  token : nat;
  lineNumber : nat;
  lineStartOffset : nat;
  tokenLineStartOffset : nat;
  prevTokenLineStartOffset : nat;
  scanError : nat
}.

(** The variables as [createScanner] initialises them. *)
Definition initial : t := mk 0 [] 0 16 0 0 0 0 0.

Section Scanner.
(** The arguments of [createScanner(text, ignoreTrivia)]. *)
Variable text : list Z.
Variable ignoreTrivia : bool.

(** A test on [text.charCodeAt(a)]: out of range the code is [NaN], which
    fails every comparison. *)
Definition codeIs (p : Z → bool) (a : nat) : bool :=
  match text !! a with
  | Some ch => p ch
  | None => false
  end.

(** [for (; a < len && p(text.charCodeAt(a)); ) a++], on the text from
    position [a] on. *)
Fixpoint advance (p : Z → bool) (rest : list Z) (a : nat) : nat :=
  match rest with
  | ch :: rest' => if p ch then advance p rest' (S a) else a
  | [] => a
  end.

Definition advanceWhile (p : Z → bool) (a : nat) : nat :=
  advance p (drop a text) a.

(** The loop of [scanHexDigits(count, exact)], on the text from the position
    on: the digits read so far and their value. *)
Fixpoint hexDigits (count : nat) (exact : bool) (rest : list Z)
    (digits : nat) (value : Z) : nat * Z :=
  if (digits <? count) || negb exact then
    match rest with
    | ch :: rest' =>
        if ((48 <=? ch) && (ch <=? 57))%Z
        then hexDigits count exact rest' (S digits) (16 * value + ch - 48)%Z
        else if ((65 <=? ch) && (ch <=? 70))%Z
        then
          hexDigits count exact rest' (S digits) (16 * value + ch - 65 + 10)%Z
        else if ((97 <=? ch) && (ch <=? 102))%Z
        then
          hexDigits count exact rest' (S digits) (16 * value + ch - 97 + 10)%Z
        else (digits, value)
    | [] => (digits, value)
    end
  else (digits, value).

(** [scanHexDigits(count, exact)] from position [a]: the position it leaves
    and the value, -1 when fewer than [count] digits were there. *)
Definition scanHexDigits (count : nat) (exact : bool) (a : nat) : nat * Z :=
  let '(digits, value) := hexDigits count exact (drop a text) 0 0%Z in
  ((a + digits)%nat, if digits <? count then (-1)%Z else value).

(** The end of [scanNumber()], from position [a] after the digits and the
    fraction: the exponent.  [start] is where the number starts. *)
Definition scanExponent (start a scanError : nat) : nat * list Z * nat :=
  let end_ := a in
  if (a <? length text) && (codeIs (Z.eqb 69) a || codeIs (Z.eqb 101) a)
  then
    let a := S a in
    let a :=
      if ((a <? length text) && codeIs (Z.eqb 43) a) || codeIs (Z.eqb 45) a
      then S a else a in
    if (a <? length text) && codeIs isDigit a
    then
      let a := advanceWhile isDigit (S a) in
      (a, JS.substring text start a, scanError)
    else (a, JS.substring text start end_, 3%nat)
  else (a, JS.substring text start end_, scanError).

(** [scanNumber()] from position [a], the first digit: the position it
    leaves, the text of the number and the scan error. *)
Definition scanNumber (a scanError : nat) : nat * list Z * nat :=
  let start := a in
  let a :=
    if codeIs (Z.eqb 48) a then S a else advanceWhile isDigit (S a) in
  if (a <? length text) && codeIs (Z.eqb 46) a
  then
    let a := S a in
    if negb ((a <? length text) && codeIs isDigit a)
    then (a, JS.substring text start a, 3%nat)
    else scanExponent start (advanceWhile isDigit (S a)) scanError
  else scanExponent start a scanError.

(** The loop of [scanString()]: the position, the result so far, the start
    of the run of plain characters not yet added to it, and the scan error.
    Every round but the last moves the position forward. *)
Fixpoint scanString_loop (fuel : nat) (a : nat) (result : list Z)
    (start scanError : nat) : option (nat * list Z * nat) :=
  match fuel with
  | O => None
  | S fuel =>
      match text !! a with
      | None => Some (a, result ++ JS.substring text start a, 2%nat)
      | Some ch =>
          if (ch =? 34)%Z
          then Some (S a, result ++ JS.substring text start a, scanError)
          else if negb (ch =? 92)%Z
          then
            if ((0 <=? ch) && (ch <=? 31))%Z
            then
              if isLineBreak ch
              then Some (a, result ++ JS.substring text start a, 2%nat)
              else scanString_loop fuel (S a) result start 6%nat
            else scanString_loop fuel (S a) result start scanError
          else
            let result := result ++ JS.substring text start a in
            let a := S a in
            match text !! a with
            | None => Some (a, result, 2%nat)
            | Some ch2 =>
                let a := S a in
                let '(a, result, scanError) :=
                  if (ch2 =? 34)%Z then (a, result ++ [34%Z], scanError)
                  else if (ch2 =? 92)%Z then (a, result ++ [92%Z], scanError)
                  else if (ch2 =? 47)%Z then (a, result ++ [47%Z], scanError)
                  else if (ch2 =? 98)%Z then (a, result ++ [8%Z], scanError)
                  else if (ch2 =? 102)%Z then (a, result ++ [12%Z], scanError)
                  else if (ch2 =? 110)%Z then (a, result ++ [10%Z], scanError)
                  else if (ch2 =? 114)%Z then (a, result ++ [13%Z], scanError)
                  else if (ch2 =? 116)%Z then (a, result ++ [9%Z], scanError)
                  else if (ch2 =? 117)%Z
                  then
                    let '(a, ch3) := scanHexDigits 4 true a in
                    if (0 <=? ch3)%Z
                    then (a, result ++ [ch3], scanError)
                    else (a, result, 4%nat)
                  else (a, result, 5%nat) in
                scanString_loop fuel a result a scanError
            end
      end
  end.

(** [scanString()] from position [a], just after the opening quote. *)
Definition scanString (a scanError : nat) : option (nat * list Z * nat) :=
  scanString_loop (S (length text)) a [] a scanError.

(** The loop over the inside of a block comment, on the text from position
    [a] on; it runs while [a < len - 1].  It gives the position, whether the
    comment was closed, the line number and the start of the line. *)
Fixpoint blockComment (rest : list Z)
    (a lineNumber tokenLineStartOffset : nat) : nat * bool * nat * nat :=
  match rest with
  | ch :: (next :: rest'') as rest' =>
      if ((ch =? 42) && (next =? 47))%Z
      then ((a + 2)%nat, true, lineNumber, tokenLineStartOffset)
      else if isLineBreak ch
      then
        if ((ch =? 13) && (next =? 10))%Z
        then blockComment rest'' (S (S a)) (S lineNumber) (S (S a))
        else blockComment rest' (S a) (S lineNumber) (S a)
      else blockComment rest' (S a) lineNumber tokenLineStartOffset
  | _ => (a, false, lineNumber, tokenLineStartOffset)
  end.

(** The white space token: [do { a++; s += ch; ch = text.charCodeAt(a) }
    while (isWhiteSpace(ch))]. *)
Fixpoint whiteSpace (rest : list Z) (a : nat) (value : list Z) :
    nat * list Z :=
  match rest with
  | ch :: rest' =>
      if isWhiteSpace ch then whiteSpace rest' (S a) (value ++ [ch])
      else (a, value)
  | [] => (a, value)
  end.

(** [scanNext()]. *)
Definition scanNext (st : t) : option t :=
  let a := pos st in
  (* value = '', scanError = 0, tokenOffset = pos,
     lineStartOffset = lineNumber,
     prevTokenLineStartOffset = tokenLineStartOffset *)
  let result (a : nat) (value : list Z) (token : nat)
      (lineNumber tokenLineStartOffset scanError : nat) : t :=
    mk a value (pos st) token lineNumber (Scanner.lineNumber st)
      tokenLineStartOffset (Scanner.tokenLineStartOffset st) scanError in
  let plain (a : nat) (value : list Z) (token : nat) (scanError : nat) : t :=
    result a value token (lineNumber st) (tokenLineStartOffset st) scanError in
  match text !! a with
  | None =>
      Some
        (mk a [] (length text) 17 (lineNumber st) (lineNumber st)
           (tokenLineStartOffset st) (tokenLineStartOffset st) 0)
  | Some ch =>
      if isWhiteSpace ch
      then
        let '(a, value) := whiteSpace (drop a text) a [] in
        Some (plain a value 15%nat 0%nat)
      else if isLineBreak ch
      then
        let '(a, value) :=
          if (ch =? 13)%Z && codeIs (Z.eqb 10) (S a)
          then (S (S a), [ch; 10%Z])
          else (S a, [ch]) in
        Some (result a value 14%nat (S (lineNumber st)) a 0%nat)
      else if (ch =? 123)%Z then Some (plain (S a) [] 1%nat 0%nat)
      else if (ch =? 125)%Z then Some (plain (S a) [] 2%nat 0%nat)
      else if (ch =? 91)%Z then Some (plain (S a) [] 3%nat 0%nat)
      else if (ch =? 93)%Z then Some (plain (S a) [] 4%nat 0%nat)
      else if (ch =? 58)%Z then Some (plain (S a) [] 6%nat 0%nat)
      else if (ch =? 44)%Z then Some (plain (S a) [] 5%nat 0%nat)
      else if (ch =? 34)%Z
      then
        '(a, value, scanError) ← scanString (S a) 0%nat;
        Some (plain a value 10%nat scanError)
      else if (ch =? 47)%Z
      then
        let start := (a - 1)%nat in
        if codeIs (Z.eqb 47) (a + 1)
        then
          let a := advanceWhile (λ ch, negb (isLineBreak ch)) (a + 2) in
          Some (plain a (JS.substring text start a) 12%nat 0%nat)
        else if codeIs (Z.eqb 42) (a + 1)
        then
          let '(a, commentClosed, lineNumber, tokenLineStartOffset) :=
            blockComment (drop (a + 2) text) (a + 2) (lineNumber st)
              (tokenLineStartOffset st) in
          let '(a, scanError) :=
            if commentClosed then (a, 0%nat) else (S a, 1%nat) in
          Some
            (result a (JS.substring text start a) 13%nat lineNumber
               tokenLineStartOffset scanError)
        else Some (plain (S a) [ch] 16%nat 0%nat)
      else
        let number (value : list Z) (a : nat) : option t :=
          let '(a, digits, scanError) := scanNumber a 0%nat in
          Some (plain a (value ++ digits) 11%nat scanError) in
        if (ch =? 45)%Z
        then
          if bool_decide (S a = length text) || negb (codeIs isDigit (S a))
          then Some (plain (S a) [ch] 16%nat 0%nat)
          else number [ch] (S a)
        else if isDigit ch then number [] a
        else
          let a' := advance isUnknownContentCharacter (drop a text) a in
          if bool_decide (a ≠ a')
          then
            let value := JS.substring text a a' in
            let token :=
              if bool_decide (value = JS.codes "true") then 8%nat
              else if bool_decide (value = JS.codes "false") then 9%nat
              else if bool_decide (value = JS.codes "null") then 7%nat
              else 16%nat in
            Some (plain a' value token 0%nat)
          else Some (plain (S a) [ch] 16%nat 0%nat)
  end.

(** The loop of the scanner that skips trivia:
    [do { result = scanNext() } while (result >= 12 && result <= 15)]. *)
Fixpoint scanNextNonTrivia (fuel : nat) (st : t) : option t :=
  match fuel with
  | O => None
  | S fuel =>
      st ← scanNext st;
      if (12 <=? token st) && (token st <=? 15)
      then scanNextNonTrivia fuel st
      else Some st
  end.

(** The methods of the scanner object. *)
Definition setPosition (newPosition : nat) (st : t) : t :=
  mk newPosition [] 0 16 (lineNumber st) (lineStartOffset st)
    (tokenLineStartOffset st) (prevTokenLineStartOffset st) 0.

Definition getPosition (st : t) : nat := pos st.

Definition scan (st : t) : option t :=
  if ignoreTrivia then scanNextNonTrivia (S (length text)) st
  else scanNext st.

Definition getToken (st : t) : nat := token st.
Definition getTokenValue (st : t) : list Z := value st.
Definition getTokenOffset (st : t) : nat := tokenOffset st.
Definition getTokenLength (st : t) : Z :=
  (Z.of_nat (pos st) - Z.of_nat (tokenOffset st))%Z.
Definition getTokenStartLine (st : t) : nat := lineStartOffset st.
Definition getTokenStartCharacter (st : t) : Z :=
  (Z.of_nat (tokenOffset st) - Z.of_nat (prevTokenLineStartOffset st))%Z.
Definition getTokenError (st : t) : nat := scanError st.

End Scanner.
End Scanner.

(** ** Comments and locations (jsonc-parser/impl/parser) *)

Module JsoncParser.

(** [value.replace(/[^\r\n]/g, replaceCh)], for a replacement that is a
    single code unit: every code unit but a carriage return and a line feed
    is replaced. *)
Definition replaceNonBreaks (value : list Z) (replaceCh : Z) : list Z :=
  (λ ch, if (ch =? 13)%Z || (ch =? 10)%Z then ch else replaceCh) <$> value.

(** The loop of [stripComments(text, replaceCh)]: the scanner, the parts
    collected so far and the offset after the last comment. *)
Fixpoint stripComments_loop (text : list Z) (replaceCh : option Z)
    (fuel : nat) (scanner : Scanner.t) (parts : list (list Z))
    (offset : nat) : option (list (list Z)) :=
  match fuel with
  | O => None
  | S fuel =>
      let pos := Scanner.getPosition scanner in
      scanner ← Scanner.scan text false scanner;
      let kind := Scanner.getToken scanner in
      let '(parts, offset) :=
        if (kind =? 12) || (kind =? 13) || (kind =? 17)
        then
          let parts :=
            if bool_decide (offset ≠ pos)
            then parts ++ [JS.substring text offset pos]
            else parts in
          let parts :=
            match replaceCh with
            | Some ch =>
                parts
                ++ [replaceNonBreaks (Scanner.getTokenValue scanner) ch]
            | None => parts
            end in
          (parts, Scanner.getPosition scanner)
        else (parts, offset) in
      if kind =? 17 then Some parts
      else stripComments_loop text replaceCh fuel scanner parts offset
  end.

(** [stripComments(text, replaceCh)]; the replacement is optional. *)
Definition stripComments (text : list Z) (replaceCh : option Z) :
    option (list Z) :=
  parts ←
    stripComments_loop text replaceCh (S (length text)) Scanner.initial []
      0;
  Some (concat parts).

(** A segment of a JSON path: a property name or an array index. *)
Inductive Segment : Type :=
  | Key (name : string)
  | Index (i : Z).

Global Instance Segment_eq_dec : EqDecision Segment.
Proof. solve_decision. Defined.

(** [location.matches(pattern)], of the location [getLocation] returns, whose
    path is [path]: the loop runs over the path, the pattern from its
    current segment on going along. *)
Fixpoint matches (path pattern : list Segment) : bool :=
  match pattern, path with
  | [], _ => true
  | _ :: _, [] => false
  | p :: pattern', segment :: path' =>
      if bool_decide (p = segment) || bool_decide (p = Key "*")
      then matches path' pattern'
      else if bool_decide (p ≠ Key "**") then false
      else matches path' pattern
  end.

(** The value of a literal node. *)
Inductive Literal : Type :=
  | LNull
  | LBoolean (b : bool)
  | LNumber (x : float)
  | LString (s : string).

(** A node of the tree [parseTree] builds.  [value] and [children] are
    optional properties; the functions below never read [parent], which is
    left out. *)
#[local] Unset Elimination Schemes.
Inductive Node : Type := mkNode {
  type : string;
  value : option Literal;
  offset : Z;
  length : Z;
  children : option (list Node)
}.
#[local] Set Elimination Schemes.

(** [value === name], for a property name. *)
Definition valueIs (node : Node) (name : string) : bool :=
  match value node with
  | Some (LString s) => bool_decide (s = name)
  | _ => false
  end.

(** The loop of [findNodeAtLocation] over the properties of an object:
    [None] when no property has the name, otherwise [children[1]] of the
    first that has it, which may be [undefined].  Reading [children[0].value]
    of a property whose [children] is an empty array fails. *)
Fixpoint findProperty (properties : list Node) (name : string) :
    Completion (option (option Node)) :=
  match properties with
  | [] => Normal None
  | propertyNode :: properties =>
      match children propertyNode with
      | Some propertyChildren =>
          key ← defined (propertyChildren !! 0);
          if valueIs key name then Normal (Some (propertyChildren !! 1))
          else findProperty properties name
      | None => findProperty properties name
      end
  end.

(** The loop of [findNodeAtLocation] over the segments of the path; [node] is
    the variable [n], which is [undefined] after a property without value. *)
Fixpoint findNodeAtLocation_loop (node : option Node) (path : list Segment) :
    Completion (option Node) :=
  match path with
  | [] => Normal node
  | segment :: path =>
      node ← defined node;
      match segment with
      | Key name =>
          match children node with
          | Some properties =>
              if bool_decide (type node ≠ "object") then Normal None
              else
                found ← findProperty properties name;
                match found with
                | Some node => findNodeAtLocation_loop node path
                | None => Normal None
                end
          | None => Normal None
          end
      | Index index =>
          match children node with
          | Some items =>
              if bool_decide (type node ≠ "array") || (index <? 0)%Z
                 || (Z.of_nat (List.length items) <=? index)%Z
              then Normal None
              else findNodeAtLocation_loop (items !! Z.to_nat index) path
          | None => Normal None
          end
      end
  end.

(** [findNodeAtLocation(root, path)]; the result [None] is [undefined]. *)
Definition findNodeAtLocation (root : option Node) (path : list Segment) :
    Completion (option Node) :=
  match root with
  | Some root => findNodeAtLocation_loop (Some root) path
  | None => Normal None
  end.

(** [contains(node, offset, includeRightBound)] *)
Definition contains (node : Node) (offset : Z) (includeRightBound : bool) :
    bool :=
  ((JsoncParser.offset node <=? offset)%Z
   && (offset <? JsoncParser.offset node + length node)%Z)
  || (includeRightBound
      && (offset =? JsoncParser.offset node + length node)%Z).

(** The loop of [findNodeAtOffset] over the children, [find] being the
    recursive call: it stops at the first child that starts after the
    offset. *)
Definition findFirst (find : Node → option Node) (offset : Z) :
    list Node → option Node :=
  fix loop (items : list Node) : option Node :=
    match items with
    | [] => None
    | child :: items =>
        if (JsoncParser.offset child <=? offset)%Z
        then
          match find child with
          | Some item => Some item
          | None => loop items
          end
        else None
    end.

(** [findNodeAtOffset(node, offset, includeRightBound)] *)
Fixpoint findNodeAtOffset (node : Node) (offset : Z)
    (includeRightBound : bool) : option Node :=
  if contains node offset includeRightBound
  then
    match children node with
    | Some items =>
        Some
          (default node
             (findFirst
                (λ child, findNodeAtOffset child offset includeRightBound)
                offset items))
    | None => Some node
    end
  else None.

End JsoncParser.

(** ** Text documents (vscode-languageserver-textdocument)

    Of a [FullTextDocument] the content and the cached line offsets are
    kept; a method that fills the cache returns the document with it. *)

Module TextDocument.

Record Position : Type := mkPosition { line : Z; character : JS.Number }.

Record t : Type := mk {
  _content : list Z;
  _lineOffsets : option (list nat)
}.

(** [TextDocument.create(uri, languageId, version, content)] *)
Definition create (content : list Z) : t := mk content None.

(** The loop of [computeLineOffsets] ([r] in the minified source), on the
    text from index [i] on. *)
Fixpoint lineOffsets_loop (rest : list Z) (textOffset i : nat) : list nat :=
  match rest with
  | [] => []
  | ch :: rest' =>
      if ((ch =? 13) || (ch =? 10))%Z
      then
        match rest' with
        | next :: rest'' =>
            if ((ch =? 13) && (next =? 10))%Z
            then
              (textOffset + S i + 1)
              :: lineOffsets_loop rest'' textOffset (S (S i))
            else (textOffset + i + 1) :: lineOffsets_loop rest' textOffset (S i)
        | [] => [textOffset + i + 1]
        end
      else lineOffsets_loop rest' textOffset (S i)
  end.

Definition computeLineOffsets (text : list Z) (isAtLineStart : bool)
    (textOffset : nat) : list nat :=
  (if isAtLineStart then [textOffset] else [])
  ++ lineOffsets_loop text textOffset 0.

Definition getLineOffsets (doc : t) : list nat * t :=
  match _lineOffsets doc with
  | None =>
      let lineOffsets := computeLineOffsets (_content doc) true 0 in
      (lineOffsets, mk (_content doc) (Some lineOffsets))
  | Some lineOffsets => (lineOffsets, doc)
  end.

Definition lineCount (doc : t) : nat * t :=
  let '(lineOffsets, doc) := getLineOffsets doc in
  (length lineOffsets, doc).

(** The binary search of [positionAt]:
    [while (low < high) { mid = floor((low + high) / 2);
       if (lineOffsets[mid] > offset) high = mid; else low = mid + 1; }] *)
Fixpoint positionAt_loop (fuel : nat) (lineOffsets : list nat) (offset : Z)
    (low high : nat) : option nat :=
  match fuel with
  | O => None
  | S fuel =>
      if low <? high
      then
        let mid := (low + high) / 2 in
        match lineOffsets !! mid with
        | Some lineOffset =>
            if (offset <? Z.of_nat lineOffset)%Z
            then positionAt_loop fuel lineOffsets offset low mid
            else positionAt_loop fuel lineOffsets offset (mid + 1) high
        | None => positionAt_loop fuel lineOffsets offset (mid + 1) high
        end
      else Some low
  end.

Definition positionAt (doc : t) (offset : Z) : option (Position * t) :=
  let offset := Z.max (Z.min offset (Z.of_nat (length (_content doc)))) 0 in
  let '(lineOffsets, doc) := getLineOffsets doc in
  let high := length lineOffsets in
  if high =? 0 then Some (mkPosition 0 (JS.Num offset), doc)
  else
    low ← positionAt_loop (S high) lineOffsets offset 0 high;
    let line := (Z.of_nat low - 1)%Z in
    let character :=
      match low with
      | S i =>
          match lineOffsets !! i with
          | Some lineOffset => JS.Num (offset - Z.of_nat lineOffset)
          | None => JS.NaN
          end
      | O => JS.NaN
      end in
    Some (mkPosition line character, doc).

Definition offsetAt (doc : t) (position : Position) : JS.Number * t :=
  let '(lineOffsets, doc) := getLineOffsets doc in
  if (Z.of_nat (length lineOffsets) <=? line position)%Z
  then (JS.Num (Z.of_nat (length (_content doc))), doc)
  else if (line position <? 0)%Z then (JS.Num 0, doc)
  else
    match lineOffsets !! Z.to_nat (line position), character position with
    | Some lineOffset, JS.Num character =>
        let nextLineOffset :=
          if (line position + 1 <? Z.of_nat (length lineOffsets))%Z
          then
            match lineOffsets !! Z.to_nat (line position + 1) with
            | Some nextLineOffset => JS.Num (Z.of_nat nextLineOffset)
            | None => JS.NaN
            end
          else JS.Num (Z.of_nat (length (_content doc))) in
        match nextLineOffset with
        | JS.Num nextLineOffset =>
            (JS.Num
               (Z.max
                  (Z.min (Z.of_nat lineOffset + character) nextLineOffset)
                  (Z.of_nat lineOffset)),
             doc)
        | JS.NaN => (JS.NaN, doc)
        end
    | _, _ => (JS.NaN, doc)
    end.

End TextDocument.

(** ** Sorting the edits ([mergeSort] of [TextDocument.applyEdits]) *)

Module MergeSort.
Section MergeSort.
Context {A : Type}.
(** The comparison function; the numbers it returns are integers here. *)
Variable compare : A → A → Z.

(** The three loops that write the two sorted halves back: the merge, then
    what is left of the left half, then what is left of the right one. *)
Fixpoint merge (left : list A) : list A → list A :=
  fix merge_right (right : list A) : list A :=
    match left, right with
    | [], _ => right
    | _, [] => left
    | x :: left', y :: right' =>
        if (compare x y <=? 0)%Z
        then x :: merge left' right
        else y :: merge_right right'
    end.

(** [mergeSort(data, compare)]; the halves are copies ([slice]), sorted by
    the two recursive calls before they are merged. *)
Fixpoint mergeSort_rec (fuel : nat) (data : list A) : option (list A) :=
  match fuel with
  | O => None
  | S fuel =>
      if length data <=? 1 then Some data
      else
        let p := length data / 2 in
        left ← mergeSort_rec fuel (take p data);
        right ← mergeSort_rec fuel (drop p data);
        Some (merge left right)
  end.

Definition mergeSort (data : list A) : option (list A) :=
  mergeSort_rec (S (length data)) data.

End MergeSort.
End MergeSort.

(** ** Edits (jsonc-parser/impl/edit and jsonc-parser/main) *)

Module Edit.

Record t : Type := mk {
  offset : nat;
  length : nat;
  content : list Z
}.

(** [applyEdit(text, edit)] *)
Definition applyEdit (text : list Z) (edit : t) : list Z :=
  JS.substring text 0 (offset edit)
  ++ content edit
  ++ drop (offset edit + length edit) text.

(** [applyEdits(text, edits)]: the edits are applied from the last to the
    first. *)
Definition applyEdits (text : list Z) (edits : list t) : list Z :=
  foldr (λ edit text, applyEdit text edit) text edits.

End Edit.

(** ** Strings (vscode-json-languageservice/utils/strings) *)

Module Strings.

(** The loop of [startsWith]: [haystack[i] !== needle[i]] is also true where
    the haystack has ended. *)
Fixpoint startsWith_loop (haystack needle : list Z) : bool :=
  match needle, haystack with
  | [], _ => true
  | _ :: _, [] => false
  | n :: needle', h :: haystack' =>
      if bool_decide (h ≠ n) then false
      else startsWith_loop haystack' needle'
  end.

Definition startsWith (haystack needle : list Z) : bool :=
  if length haystack <? length needle then false
  else startsWith_loop haystack needle.

(** [text.lastIndexOf(search)]: the last index at which [search] occurs in
    [text], -1 when it does not occur; the search goes down from [k]. *)
Fixpoint lastIndexOf_from (text search : list Z) (k : nat) : Z :=
  if bool_decide (take (length search) (drop k text) = search)
  then Z.of_nat k
  else
    match k with
    | O => (-1)%Z
    | S k' => lastIndexOf_from text search k'
    end.

Definition lastIndexOf (text search : list Z) : Z :=
  if length text <? length search then (-1)%Z
  else lastIndexOf_from text search (length text - length search).

Definition endsWith (haystack needle : list Z) : bool :=
  let diff := (Z.of_nat (length haystack) - Z.of_nat (length needle))%Z in
  if (0 <? diff)%Z then bool_decide (lastIndexOf haystack needle = diff)
  else bool_decide (0%Z = diff) && bool_decide (haystack = needle).

(** What building a string ends in: the string, or the [RangeError]
    ("Invalid string length") that the engine raises when a concatenation
    would give a string longer than it allows. *)
Inductive Built : Type :=
  | Returns (s : list Z)
  | RangeError.

Section Repeat.
(** The greatest length the engine allows a string. *)
Variable maxStringLength : nat.

(** [a + b] on strings. *)
Definition append (a b : list Z) : Built :=
  if length a + length b <=? maxStringLength then Returns (a ++ b)
  else RangeError.

(** The loop of [repeat(value, count)]:
    [while (count > 0) { if ((count & 1) == 1) s += value;
       value += value; count = count >>> 1; }].
    The count is an integer; [>>>] reads it modulo 2^32.  The value is
    doubled in every round, the last included, so the loop reaches the
    greatest length of a string on counts whose result is well within it. *)
Fixpoint repeat_loop (fuel : nat) (value : list Z) (count : Z)
    (s : list Z) : option Built :=
  match fuel with
  | O => None
  | S fuel =>
      if (0 <? count)%Z
      then
        match
          (if (Z.land 1 count =? 1)%Z then append s value else Returns s)
        with
        | Returns s =>
            match append value value with
            | Returns value =>
                repeat_loop fuel value (Z.shiftr (count mod 2 ^ 32) 1) s
            | RangeError => Some RangeError
            end
        | RangeError => Some RangeError
        end
      else Some (Returns s)
  end.

Definition repeat (value : list Z) (count : Z) : option Built :=
  repeat_loop 33 value count [].
End Repeat.

End Strings.

(** ** Colors (vscode-json-languageservice/utils/colors, and the color
    presentation of services/jsonDocumentSymbols) *)

Module Colors.

(** A color: its four channels are JavaScript numbers, binary64 floats. *)
Record Color : Type :=
  mkColor { red : float; green : float; blue : float; alpha : float }.

(** A small integer that is not negative, as a JavaScript number. *)
Definition ofZ (n : Z) : float := PrimFloat.of_uint63 (Uint63.of_Z n).

Definition hexDigit (charCode : Z) : Z :=
  if (charCode <? 48)%Z then 0%Z
  else if (charCode <=? 57)%Z then (charCode - 48)%Z
  else
    let charCode :=
      if (charCode <? 97)%Z then (charCode + (97 - 65))%Z else charCode in
    if ((97 <=? charCode) && (charCode <=? 102))%Z
    then (charCode - 97 + 10)%Z
    else 0%Z.

(** [hexDigit(text.charCodeAt(i))]: [charCodeAt] is [NaN] past the end of the
    text, which fails every comparison of [hexDigit], so the digit is 0. *)
Definition digitAt (text : list Z) (i : nat) : Z :=
  from_option hexDigit 0%Z (text !! i).

(** [colorFromHex(text)]; [None] is [null].  The numerators are integers of
    at most 255, computed exactly. *)
Definition colorFromHex (text : list Z) : option Color :=
  if bool_decide (text !! 0%nat ≠ Some 35%Z) then None
  else
    let one (i : nat) : float := (ofZ (17 * digitAt text i) / 255)%float in
    let two (i : nat) : float :=
      (ofZ (16 * digitAt text i + digitAt text (S i)) / 255)%float in
    match length text with
    | 4%nat => Some (mkColor (one 1%nat) (one 2%nat) (one 3%nat) 1%float)
    | 5%nat => Some (mkColor (one 1%nat) (one 2%nat) (one 3%nat) (one 4%nat))
    | 7%nat => Some (mkColor (two 1%nat) (two 3%nat) (two 5%nat) 1%float)
    | 9%nat => Some (mkColor (two 1%nat) (two 3%nat) (two 5%nat) (two 7%nat))
    | _ => None
    end.

(** [colorFrom256RGB(red, green, blue, alpha)]; [alpha] is 1 when it is not
    given. *)
Definition colorFrom256RGB (red green blue : float) (alpha : option float)
    : Color :=
  mkColor (red / 255)%float (green / 255)%float (blue / 255)%float
    (default 1%float alpha).

(** The values of [Math.round]: an integer (the zero of either sign is
    [Integer 0]), [NaN] or an infinity. *)
Inductive Rounded : Type :=
  | Integer (n : Z)
  | RoundedNaN
  | RoundedInfinity (negative : bool).

(** [Math.round(x)]: the integer nearest to [x], the greater one of two that
    are equally near; computed exactly from the sign, mantissa and exponent
    of [x]. *)
Definition round (x : float) : Rounded :=
  match Prim2SF x with
  | S754_nan => RoundedNaN
  | S754_infinity negative => RoundedInfinity negative
  | S754_zero _ => Integer 0
  | S754_finite negative mantissa exponent =>
      let m := if negative then Z.neg mantissa else Z.pos mantissa in
      Integer
        (if (0 <=? exponent)%Z then (m * 2 ^ exponent)%Z
         else ((2 * m + 2 ^ (- exponent)) / 2 ^ (1 - exponent))%Z)
  end.

(** A hexadecimal digit of [n.toString(16)]. *)
Definition hexChar (d : Z) : Z :=
  if (d <? 10)%Z then (48 + d)%Z else (97 + d - 10)%Z.

(** The digits of an integer that is not negative, most significant first. *)
Fixpoint toString16_digits (fuel : nat) (n : Z) : list Z :=
  match fuel with
  | O => []
  | S fuel =>
      if (n <? 16)%Z then [hexChar n]
      else toString16_digits fuel (n / 16)%Z ++ [hexChar (n mod 16)%Z]
  end.

(** [n.toString(16)] for a value of [Math.round]. *)
Definition toString16 (n : Rounded) : list Z :=
  match n with
  | Integer n =>
      if (n <? 0)%Z
      then 45%Z :: toString16_digits (S (Z.to_nat (Z.log2 (- n)))) (- n)
      else toString16_digits (S (Z.to_nat (Z.log2 n))) n
  | RoundedNaN => JS.codes "NaN"
  | RoundedInfinity negative =>
      if negative then JS.codes "-Infinity" else JS.codes "Infinity"
  end.

(** The inner function of [getColorPresentations]: two hexadecimal digits,
    a leading zero added to a text of another length. *)
Definition twoDigits (n : Rounded) : list Z :=
  let s := toString16 n in
  if bool_decide (length s ≠ 2%nat) then 48%Z :: s else s.

(** The label [getColorPresentations] gives a color. *)
Definition colorLabel (color : Color) : list Z :=
  let r := round (255 * red color) in
  let g := round (255 * green color) in
  let b := round (255 * blue color) in
  if PrimFloat.eqb 1 (alpha color)
  then [35%Z] ++ twoDigits r ++ twoDigits g ++ twoDigits b
  else
    [35%Z] ++ twoDigits r ++ twoDigits g ++ twoDigits b
    ++ twoDigits (round (255 * alpha color)).

End Colors.

(** ** Predicates of the statements about the JSON worker *)

(** The code units that stand for themselves in a string literal. *)
Definition plainInString (ch : Z) : Prop :=
  (ch ≠ 34 ∧ ch ≠ 92 ∧ ¬ 0 ≤ ch ≤ 31)%Z.

(** A line starts at [p]: at the start of the text, after a line feed, and
    after a carriage return that no line feed follows. *)
Definition lineStart (text : list Z) (p : nat) : Prop :=
  p = 0
  ∨ (0 < p
     ∧ (text !! (p - 1) = Some 10%Z
        ∨ (text !! (p - 1) = Some 13%Z ∧ text !! p ≠ Some 10%Z))).

(** Edits in the order of their offsets, none reaching into the next, the
    first at or after [pos], the last ending within [bound]. *)
Fixpoint inOrder (bound pos : nat) (edits : list Edit.t) : Prop :=
  match edits with
  | [] => pos ≤ bound
  | edit :: edits =>
      pos ≤ Edit.offset edit
      ∧ inOrder bound (Edit.offset edit + Edit.length edit) edits
  end.

(** The text from [pos] on with every edit made in its place. *)
Fixpoint spliceAll (text : list Z) (pos : nat) (edits : list Edit.t) :
    list Z :=
  match edits with
  | [] => drop pos text
  | edit :: edits =>
      JS.substring text pos (Edit.offset edit)
      ++ Edit.content edit
      ++ spliceAll text (Edit.offset edit + Edit.length edit) edits
  end.


(** The color of four bytes: [colorFrom256RGB(r, g, b, a / 255)]. *)
Definition byteColor (r g b a : Z) : Colors.Color :=
  Colors.colorFrom256RGB (Colors.ofZ r) (Colors.ofZ g) (Colors.ofZ b)
    (Some (Colors.ofZ a / 255)%float).

(** The two hexadecimal digits of a byte. *)
Definition byteDigits (n : Z) : list Z :=
  [Colors.hexChar (n / 16); Colors.hexChar (n mod 16)].

(** One digit or more. *)
Definition isDigits (ds : list Z) : Prop :=
  ds ≠ [] ∧ Forall (λ ch, 48 ≤ ch ≤ 57)%Z ds.

(** A number of the JSON grammar without its sign: an integer part that is
    [0] or starts with another digit, then optionally a fraction and an
    exponent. *)
Definition unsignedNumber (value : list Z) : Prop :=
  ∃ int frac exp,
    value = int ++ frac ++ exp
    ∧ (int = [48%Z] ∨ (isDigits int ∧ head int ≠ Some 48%Z))
    ∧ (frac = [] ∨ ∃ ds, frac = [46%Z] ++ ds ∧ isDigits ds)
    ∧ (exp = []
       ∨ ∃ e sign ds,
           exp = [e] ++ sign ++ ds
           ∧ (e = 69 ∨ e = 101)%Z
           ∧ (sign = [] ∨ sign = [43%Z] ∨ sign = [45%Z])
           ∧ isDigits ds).

(** A number of the JSON grammar. *)
Definition jsonNumber (value : list Z) : Prop :=
  unsignedNumber value
  ∨ ∃ digits, value = 45%Z :: digits ∧ unsignedNumber digits.

(** The nodes of a tree: the node and the nodes of its children. *)
Fixpoint subnodes (node : JsoncParser.Node) : list JsoncParser.Node :=
  node
  :: match JsoncParser.children node with
     | Some items => flat_map subnodes items
     | None => []
     end.

(** A child of an object that is no property called [name]: it has no
    children array, or a first child with another value. *)
Definition otherName (name : string) (property : JsoncParser.Node) : Prop :=
  JsoncParser.children property = None
  ∨ ∃ key rest,
      JsoncParser.children property = Some (key :: rest)
      ∧ JsoncParser.valueIs key name = false.

(** An object node is complete when each of its children that has a
    children array has a key and a value in it. *)
Definition completeObject (node : JsoncParser.Node) : Prop :=
  JsoncParser.type node = "object" →
  ∀ properties property items,
    JsoncParser.children node = Some properties →
    property ∈ properties →
    JsoncParser.children property = Some items →
    2 ≤ length items.

(** Sample trees: an object with the property [a] of value 1, the same
    object with a second property [b] that has a key and no value, and an
    array that holds an object with the property [a]. *)
Module SampleTree.

Definition keyA : JsoncParser.Node :=
  JsoncParser.mkNode "string" (Some (JsoncParser.LString "a")) 1 3 None.
Definition one : JsoncParser.Node :=
  JsoncParser.mkNode "number" (Some (JsoncParser.LNumber 1)) 5 1 None.
Definition propertyA : JsoncParser.Node :=
  JsoncParser.mkNode "property" None 1 5 (Some [keyA; one]).
Definition keyB : JsoncParser.Node :=
  JsoncParser.mkNode "string" (Some (JsoncParser.LString "b")) 7 3 None.
Definition propertyB : JsoncParser.Node :=
  JsoncParser.mkNode "property" None 7 3 (Some [keyB]).
Definition complete : JsoncParser.Node :=
  JsoncParser.mkNode "object" None 0 7 (Some [propertyA]).
Definition incomplete : JsoncParser.Node :=
  JsoncParser.mkNode "object" None 0 11 (Some [propertyA; propertyB]).
Definition nested : JsoncParser.Node :=
  JsoncParser.mkNode "array" None 0 9
    (Some
       [JsoncParser.mkNode "object" None 1 7
          (Some
             [JsoncParser.mkNode "property" None 2 5
                (Some
                   [JsoncParser.mkNode "string"
                      (Some (JsoncParser.LString "a")) 2 3 None;
                    JsoncParser.mkNode "number"
                      (Some (JsoncParser.LNumber 1)) 6 1 None])])]).

End SampleTree.

(** ** Concrete sizes and nodes, for the examples *)

Module Sample.
Local Open Scope Q_scope.

Definition ElementInterval : CoordPoint.t := CoordPoint.mk 50 60.
Definition BranchIntervalX : Q := 50.
Definition BranchIntervalY : Q := 30.

(** A row that is not centred takes the centre line of its leftmost item. *)
Definition uncentredAxisX (boxes : list Boundary.t) (interval : Q) : Q :=
  match boxes with
  | [] => 0
  | b :: _ => Boundary.axisX b
  end.

Definition node (id : string) (w h : Q) (type choiceId gotoChoice :
    option string) : GraphNode.t :=
  GraphNode.mk id CoordPoint.origin (Boundary.make w h)
    (Data.mk type choiceId gotoChoice (Some id)) false.

Definition question (type : string) : GraphNode.t :=
  node "q" 200 80 (Some type) None None.

Definition choiceA : GraphNode.t := node "A" 100 40 None (Some "a") None.
Definition choiceB : GraphNode.t := node "B" 100 40 None (Some "b") None.
Definition choiceC : GraphNode.t := node "C" 100 40 None (Some "c") None.
Definition caseA : GraphNode.t := node "caseA" 120 50 None (Some "a") None.
Definition caseB : GraphNode.t := node "caseB" 120 50 None (Some "b") None.
Definition caseC : GraphNode.t := node "caseC" 120 50 None (Some "c") None.

(** Choice A redirected to the case of choice C. *)
Definition choiceAtoC : GraphNode.t :=
  node "A" 100 40 None (Some "a") (Some "c").

Definition three (type : string) : Inputs.t :=
  Inputs.mk (Some (question type))
    [choiceA; choiceB; choiceC] [caseA; caseB; caseC].

Definition converging : Inputs.t :=
  Inputs.mk (Some (question "choice"))
    [choiceAtoC; choiceB; choiceC] [caseA; caseB; caseC].

(** Choices that name a case without redirecting: the first names its own
    case, the second a case that does not exist. *)
Definition unredirected : Inputs.t :=
  Inputs.mk (Some (question "choice"))
    [node "A" 100 40 None (Some "a") (Some "a");
     node "B" 100 40 None (Some "b") (Some "z");
     choiceC]
    [caseA; caseB; caseC].

(** One choice and two branches, the second branch at offset [p] when the
    layout starts. *)
Definition surplus (p : CoordPoint.t) : Inputs.t :=
  Inputs.mk (Some (question "confirm"))
    [choiceA] [caseA; GraphNode.set_offset caseB p].

End Sample.

Section Layouter.
Local Open Scope Q_scope.

(** The sizes of constants/ElementSizes, which is not among the sources. *)
Variables BranchIntervalX BranchIntervalY : Q.
Variable ElementInterval : CoordPoint.t.
(** The centre line [GraphCoord.topAlignWithInterval] gives a row that is not
    centred. *)
Variable uncentredAxisX : list Boundary.t → Q → Q.

Definition topAlignWithInterval :=
  GraphCoord.topAlignWithInterval uncentredAxisX.

(** The node object in a slot of the store, as an element of a composition. *)
Definition element (st : Inputs.t) (r : NodeRef) :
    option GraphCoord.CoordNode :=
  GraphCoord.node r <$> Inputs.get st r.

Definition coordElement (c : GraphCoord.t) : option GraphCoord.CoordNode :=
  Some (GraphCoord.OfCoord c).

Definition centreX (n : GraphNode.t) : Q :=
  CoordPoint.x (GraphNode.offset n) + Boundary.axisX (GraphNode.boundary n).

Definition bottomY (n : GraphNode.t) : Q :=
  CoordPoint.y (GraphNode.offset n) + Boundary.height (GraphNode.boundary n).

Definition calculateEdges (containerBoundary : Boundary.t)
    (questionNode : GraphNode.t) (branchNodes : list GraphNode.t) :
    list Edge.t :=
  let edges :=
    [Edge.mk
       ("edge/" +:+ GraphNode.id questionNode +:+ "/switch/condition->switch")
       EdgeDirection.Down
       (Boundary.axisX containerBoundary)
       (bottomY questionNode)
       BranchIntervalY
       None] in
  let BaselinePositionY := bottomY questionNode + BranchIntervalY in
  let edges :=
    edges ++
    map
      (λ x,
         Edge.mk
           ("edge/" +:+ GraphNode.id questionNode +:+ "/case/baseline->" +:+
            GraphNode.id x)
           EdgeDirection.Down
           (centreX x)
           BaselinePositionY
           (CoordPoint.y (GraphNode.offset x) - BaselinePositionY)
           (Some (Edge.mkOptions (Data.label (GraphNode.data x)))))
      branchNodes in
  if decide (1 < length branchNodes)%nat then
    let firstBranchNode := default GraphNode_blank (branchNodes !! 0%nat) in
    let lastBranchNode :=
      default GraphNode_blank
        (branchNodes !! (length branchNodes - 1)%nat) in
    let linePositionX := centreX firstBranchNode in
    let baseLineLength := centreX lastBranchNode - linePositionX in
    edges ++
    [Edge.mk
       ("edge/" +:+ GraphNode.id questionNode +:+ "/baseline")
       EdgeDirection.Right
       linePositionX
       BaselinePositionY
       baseLineLength
       None]
  else edges.

Definition questionLayouterNonBranching : GraphLayout.t :=
  GraphLayout.mk (Boundary.make 300 286)
    (NodeMap.mk (Some QuestionRef) None None) [] [].

(** [{ questionNode, choiceNodes, branchNodes }] *)
Definition fullNodeMap (st : Inputs.t) : NodeMap.t :=
  NodeMap.mk (Some QuestionRef)
    (Some (ChoiceRef <$> seq 0 (length (Inputs.choiceNodes st))))
    (Some (BranchRef <$> seq 0 (length (Inputs.branchNodes st)))).

(** The pairing loop of [questionLayouterBranching]. *)
Definition choiceWithBranchNodes (st : Inputs.t) :
    Completion (list GraphCoord.t) :=
  mapM
    (λ i,
       GraphCoord.new (element st (ChoiceRef i))
         [(element st (BranchRef i), GraphCoord.AxisX 0,
           GraphCoord.BottomMargin (CoordPoint.y ElementInterval))])
    (seq 0 (length (Inputs.choiceNodes st)
            `min` length (Inputs.branchNodes st))).

(** The composed row of [questionLayouterBranching], before the HACK. *)
Definition branchingContentCoord (st : Inputs.t) : Completion GraphCoord.t :=
  pairs ← choiceWithBranchNodes st;
  topAlignWithInterval (coordElement <$> pairs) BranchIntervalX false.

Definition branchingCoord (st : Inputs.t) : Completion GraphCoord.t :=
  contentCoord ← branchingContentCoord st;
  (* HACK: increase bottom space to hide following nodes if any *)
  let contentCoord := GraphCoord.add_height contentCoord 200 in
  GraphCoord.new (element st QuestionRef)
    [(coordElement contentCoord, GraphCoord.AxisX 0,
      GraphCoord.BottomMargin (BranchIntervalY * 2))].

Definition questionLayouterBranching (st : Inputs.t) :
    Completion GraphLayout.t * Inputs.t :=
  match Inputs.questionNode st with
  | None => (Normal GraphLayout.empty, st)
  | Some _ =>
      if decide (length (Inputs.branchNodes st) = 0%nat)
      then (Normal GraphLayout.empty, st)
      else
        match branchingCoord st with
        | Throw e => (Throw e, st)
        | Normal questionCoord =>
            let st' := GraphCoord.moveCoordTo questionCoord 0 0 st in
            (questionNode ← defined (Inputs.questionNode st');
             let edges :=
               calculateEdges (GraphCoord.boundary questionCoord)
                 questionNode (Inputs.branchNodes st') in
             mret (GraphLayout.mk (GraphCoord.boundary questionCoord)
                     (fullNodeMap st') edges []),
             st')
        end
  end.

(** *** Convergence *)

(** One round of the [forEach] that builds the convergence index map
    (choiceIndex => caseIndex). *)
Definition convergenceStep (branchNodes : list GraphNode.t)
    (convergenceMap : gmap nat nat) (choiceIndex : nat) (node : GraphNode.t) :
    gmap nat nat :=
  let gotoChoice := Data.gotoChoice (GraphNode.data node) in
  if negb (truthy gotoChoice)
     || bool_decide (gotoChoice = Data.choiceId (GraphNode.data node))
  then convergenceMap
  else
    match
      findIndex
        (λ n, bool_decide (Data.choiceId (GraphNode.data n) = gotoChoice))
        branchNodes
    with
    | Some caseIndex => <[choiceIndex := caseIndex]> convergenceMap
    | None => convergenceMap
    end.

Fixpoint convergenceLoop (branchNodes : list GraphNode.t)
    (convergenceMap : gmap nat nat) (choiceIndex : nat)
    (choiceNodes : list GraphNode.t) : gmap nat nat :=
  match choiceNodes with
  | [] => convergenceMap
  | node :: rest =>
      convergenceLoop branchNodes
        (convergenceStep branchNodes convergenceMap choiceIndex node)
        (S choiceIndex) rest
  end.

Definition buildConvergenceMap (st : Inputs.t) : gmap nat nat :=
  convergenceLoop (Inputs.branchNodes st) ∅ 0%nat (Inputs.choiceNodes st).

(** The case a choice leads to: [convergenceMap.get(iChoice) ?? iChoice]. *)
Definition caseOf (convergenceMap : gmap nat nat) (iChoice : nat) : nat :=
  default iChoice (convergenceMap !! iChoice).

Definition connectStep (convergenceMap : gmap nat nat)
    (connections : list (option Connection)) (iChoice : nat) :
    list (option Connection) :=
  let iCase := caseOf convergenceMap iChoice in
  match array_get connections iCase with
  | Some (c, choiceIndices) =>
      array_set iCase (c, choiceIndices ++ [iChoice]) connections
  | None => array_set iCase (iCase, [iChoice]) connections
  end.

Definition buildConnections (convergenceMap : gmap nat nat)
    (nChoices : nat) : list (option Connection) :=
  foldl (connectStep convergenceMap) [] (seq 0 nChoices).

(** Some cases are unreachable. Mark as hidden. *)
Definition markHidden (connections : list (option Connection))
    (st : Inputs.t) : Inputs.t :=
  Inputs.mk (Inputs.questionNode st) (Inputs.choiceNodes st)
    (imap
       (λ i n,
          match array_get connections i with
          | Some _ => n
          | None => GraphNode.set_hidden n true
          end)
       (Inputs.branchNodes st)).

(** [connections.filter(Boolean)] *)
Definition reachable (connections : list (option Connection)) :
    list Connection :=
  omap id connections.

(** One round of the positioning loop: the choices of a group in a row, the
    shared branch below it. *)
Definition branchCoord (st : Inputs.t) (connection : Connection) :
    Completion GraphCoord.t :=
  let '(caseIdx, choiceIndices) := connection in
  let choices := (λ i, element st (ChoiceRef i)) <$> choiceIndices in
  choicesGroupCoord ← topAlignWithInterval choices BranchIntervalX false;
  GraphCoord.new (coordElement choicesGroupCoord)
    [(element st (BranchRef caseIdx), GraphCoord.AxisX 0,
      GraphCoord.BottomMargin (CoordPoint.y ElementInterval))].

Definition convergenceContentCoord (st : Inputs.t)
    (reachableConnections : list Connection) : Completion GraphCoord.t :=
  compositedBranchCoords ← mapM (branchCoord st) reachableConnections;
  topAlignWithInterval (coordElement <$> compositedBranchCoords)
    BranchIntervalX false.

Definition convergenceCoord (st : Inputs.t)
    (reachableConnections : list Connection) : Completion GraphCoord.t :=
  contentCoord ← convergenceContentCoord st reachableConnections;
  GraphCoord.new (element st QuestionRef)
    [(coordElement contentCoord, GraphCoord.AxisX 0,
      GraphCoord.BottomMargin (BranchIntervalY * 2))].

(** The two edges every choice gets. *)
Definition choiceEdges (BaselineUnderQuestionPosY : Q) (converged : bool)
    (choice : GraphNode.t) : list Edge.t :=
  [Edge.mk
     ("edge/" +:+ GraphNode.id choice +:+ "/baseline->choice")
     EdgeDirection.Down
     (centreX choice)
     BaselineUnderQuestionPosY
     BranchIntervalY
     None;
   Edge.mk
     ("edge/" +:+ GraphNode.id choice +:+ "/choice->mid-baseline")
     EdgeDirection.Down
     (centreX choice)
     (bottomY choice)
     (if converged
      then CoordPoint.y ElementInterval / 2
      else CoordPoint.y ElementInterval)
     None].

(** The two edges that merge a converged group. *)
Definition mergeEdges (branch cFirst cLast : GraphNode.t) : list Edge.t :=
  [Edge.mk
     ("edge/" +:+ GraphNode.id branch +:+ "/mid-baseline->case")
     EdgeDirection.Up
     (centreX branch)
     (CoordPoint.y (GraphNode.offset branch))
     BranchIntervalY
     None;
   Edge.mk
     ("edge/" +:+ GraphNode.id branch +:+ "/converged/mid-baseline")
     EdgeDirection.Right
     (centreX cFirst)
     (bottomY cFirst + CoordPoint.y ElementInterval / 2)
     (centreX cLast - centreX cFirst)
     None].

(** One round of the edge loop. *)
Definition groupEdges (st : Inputs.t) (BaselineUnderQuestionPosY : Q)
    (connection : Connection) : Completion (list Edge.t) :=
  let '(caseIdx, choiceIndices) := connection in
  let converged := bool_decide (1 < length choiceIndices)%nat in
  perChoice ←
    mapM
      (λ choiceIdx,
         choice ← defined (Inputs.choiceNodes st !! choiceIdx);
         mret (choiceEdges BaselineUnderQuestionPosY converged choice))
      choiceIndices;
  merge ←
    (if converged
     then
       branch ← defined (Inputs.branchNodes st !! caseIdx);
       cFirst ←
         defined (choiceIndices !! 0%nat ≫= (Inputs.choiceNodes st !!.));
       cLast ←
         defined
           (choiceIndices !! (length choiceIndices - 1)%nat
            ≫= (Inputs.choiceNodes st !!.));
       mret (mergeEdges branch cFirst cLast)
     else mret []);
  mret (concat perChoice ++ merge).

(** The edges of the convergence-aware layout, read off the positioned
    nodes. *)
Definition convergenceEdges (st : Inputs.t)
    (reachableConnections : list Connection) : Completion (list Edge.t) :=
  questionNode ← defined (Inputs.questionNode st);
  let BaselineUnderQuestionPosY := bottomY questionNode + BranchIntervalY in
  firstChocie ← defined (Inputs.choiceNodes st !! 0%nat);
  lastChoice ←
    defined
      (Inputs.choiceNodes st !! (length (Inputs.choiceNodes st) - 1)%nat);
  groups ← mapM (groupEdges st BaselineUnderQuestionPosY) reachableConnections;
  mret
    ([Edge.mk
        ("edge/" +:+ GraphNode.id questionNode +:+ "/q->baseline")
        EdgeDirection.Down
        (centreX questionNode)
        (bottomY questionNode)
        BranchIntervalY
        None;
      Edge.mk
        ("edge/" +:+ GraphNode.id questionNode +:+ "/baseline")
        EdgeDirection.Right
        (centreX firstChocie)
        BaselineUnderQuestionPosY
        (centreX lastChoice - centreX firstChocie)
        None]
     ++ concat groups).

Definition questionLayouterBranchingWithConvergence (st : Inputs.t) :
    Completion GraphLayout.t * Inputs.t :=
  match Inputs.questionNode st with
  | None => (Normal GraphLayout.empty, st)
  | Some _ =>
      if decide (length (Inputs.branchNodes st) = 0%nat)
      then (Normal GraphLayout.empty, st)
      else
        let convergenceMap := buildConvergenceMap st in
        if decide (size convergenceMap = 0%nat)
        then questionLayouterBranching st
        else
          let connections :=
            buildConnections convergenceMap
              (length (Inputs.choiceNodes st)) in
          let st1 := markHidden connections st in
          let reachableConnections := reachable connections in
          match convergenceCoord st1 reachableConnections with
          | Throw e => (Throw e, st1)
          | Normal rootCoord =>
              let st2 := GraphCoord.moveCoordTo rootCoord 0 0 st1 in
              (edges ← convergenceEdges st2 reachableConnections;
               mret (GraphLayout.mk (GraphCoord.boundary rootCoord)
                       (fullNodeMap st2) edges []),
               st2)
          end
  end.

Definition questionLayouter (st : Inputs.t) :
    Completion GraphLayout.t * Inputs.t :=
  match Inputs.questionNode st with
  | None => (Normal GraphLayout.empty, st)
  | Some questionNode =>
      let questionType := Data.type (GraphNode.data questionNode) in
      if decide (questionType = Some QuestionType.choice)
      then questionLayouterBranchingWithConvergence st
      else if decide (questionType = Some QuestionType.confirm)
      then questionLayouterBranching st
      else (Normal questionLayouterNonBranching, st)
  end.

(** ** Predicates of the statements *)

(** A choice that does not redirect: it has no [gotoChoice], or one equal to
    its own [choiceId], or one that matches no branch node's [choiceId]. *)
Definition noRedirect (branchNodes : list GraphNode.t) (c : GraphNode.t) :
    Prop :=
  Data.gotoChoice (GraphNode.data c) = None
  ∨ Data.gotoChoice (GraphNode.data c) = Data.choiceId (GraphNode.data c)
  ∨ ∀ b, b ∈ branchNodes →
      Data.choiceId (GraphNode.data b) ≠ Data.gotoChoice (GraphNode.data c).

(** *** The plain composition, on defined elements *)

Global Instance GraphNode_inhabited : Inhabited GraphNode.t :=
  populate GraphNode_blank.

(** A choice with its branch attached below. *)
Definition pairCoord (i : nat) (choice branch : GraphNode.t) : GraphCoord.t :=
  GraphCoord.compose (GraphCoord.node (ChoiceRef i) choice)
    [(GraphCoord.node (BranchRef i) branch, GraphCoord.AxisX 0,
      GraphCoord.BottomMargin (CoordPoint.y ElementInterval))].

Definition plainPairs (st : Inputs.t) : list GraphCoord.t :=
  (λ i,
     pairCoord i (Inputs.choiceNodes st !!! i) (Inputs.branchNodes st !!! i))
  <$> seq 0 (length (Inputs.choiceNodes st)
             `min` length (Inputs.branchNodes st)).

Definition plainContent (st : Inputs.t) : GraphCoord.t :=
  GraphCoord.row uncentredAxisX (GraphCoord.OfCoord <$> plainPairs st)
    BranchIntervalX false.

(** The question above a composed content. *)
Definition rootCoord (q : GraphNode.t) (content : GraphCoord.t) :
    GraphCoord.t :=
  GraphCoord.compose (GraphCoord.node QuestionRef q)
    [(GraphCoord.OfCoord content, GraphCoord.AxisX 0,
      GraphCoord.BottomMargin (BranchIntervalY * 2))].

Definition plainRoot (q : GraphNode.t) (st : Inputs.t) : GraphCoord.t :=
  rootCoord q (GraphCoord.add_height (plainContent st) 200).

(** The height of a choice with its branch one element gap below. *)
Definition pairHeight (choice branch : GraphNode.t) : Q :=
  Qmax
    (Boundary.height (GraphNode.boundary choice)
     + CoordPoint.y ElementInterval
     + Boundary.height (GraphNode.boundary branch))
    (Boundary.height (GraphNode.boundary choice)).

Definition directed (d : EdgeDirection.t) (edges : list Edge.t) :
    list Edge.t :=
  filter (λ e, Edge.direction e = d) edges.

(** *** The groups of the convergence-aware layout *)

(** The choices that lead to case [j], in input order. *)
Definition choicesOf (convergenceMap : gmap nat nat) (nChoices j : nat) :
    list nat :=
  filter (λ i, caseOf convergenceMap i = j) (seq 0 nChoices).

(** Every choice leads to a case that has a branch node. *)
Definition casesInRange (st : Inputs.t) : Prop :=
  Forall
    (λ i, (caseOf (buildConvergenceMap st) i
           < length (Inputs.branchNodes st))%nat)
    (seq 0 (length (Inputs.choiceNodes st))).

(** The connections of the inputs, and the nodes after the unreachable cases
    are marked. *)
Definition connectionsOf (st : Inputs.t) : list (option Connection) :=
  buildConnections (buildConvergenceMap st) (length (Inputs.choiceNodes st)).

Definition marked (st : Inputs.t) : Inputs.t :=
  markHidden (connectionsOf st) st.

(** *** The convergence-aware composition, on defined elements *)

Definition choiceRow (st : Inputs.t) (choiceIndices : list nat) :
    GraphCoord.t :=
  GraphCoord.row uncentredAxisX
    ((λ i, GraphCoord.node (ChoiceRef i) (Inputs.choiceNodes st !!! i))
     <$> choiceIndices)
    BranchIntervalX false.

(** The choices of a group in a row, their branch below. *)
Definition groupCoord (st : Inputs.t) (connection : Connection) :
    GraphCoord.t :=
  GraphCoord.compose (GraphCoord.OfCoord (choiceRow st connection.2))
    [(GraphCoord.node (BranchRef connection.1)
        (Inputs.branchNodes st !!! connection.1),
      GraphCoord.AxisX 0,
      GraphCoord.BottomMargin (CoordPoint.y ElementInterval))].

Definition convergenceContent (st : Inputs.t)
    (reachableConnections : list Connection) : GraphCoord.t :=
  GraphCoord.row uncentredAxisX
    (GraphCoord.OfCoord <$> (groupCoord st <$> reachableConnections))
    BranchIntervalX false.

(** A connection whose case and choices all have node objects. *)
Definition connectionInRange (st : Inputs.t) (connection : Connection) :
    Prop :=
  (connection.1 < length (Inputs.branchNodes st))%nat
  ∧ Forall (λ i, (i < length (Inputs.choiceNodes st))%nat) connection.2.

(** The nodes of a composed tree. *)
Definition refs (c : GraphCoord.t) : list NodeRef := (GraphCoord.placed c).*1.

(** *** The edges of the convergence-aware layout, on defined nodes *)

Definition groupEdgeList (st : Inputs.t) (BaselineUnderQuestionPosY : Q)
    (connection : Connection) : list Edge.t :=
  let choiceIndices := connection.2 in
  let converged := bool_decide (1 < length choiceIndices)%nat in
  flat_map
    (λ i,
       choiceEdges BaselineUnderQuestionPosY converged
         (Inputs.choiceNodes st !!! i))
    choiceIndices
  ++ (if converged
      then
        mergeEdges (Inputs.branchNodes st !!! connection.1)
          (Inputs.choiceNodes st !!! (choiceIndices !!! 0%nat))
          (Inputs.choiceNodes st
             !!! (choiceIndices !!! (length choiceIndices - 1)%nat))
      else []).

Definition questionEdges (st : Inputs.t) (questionNode : GraphNode.t) :
    list Edge.t :=
  let firstChocie := Inputs.choiceNodes st !!! 0%nat in
  let lastChoice :=
    Inputs.choiceNodes st !!! (length (Inputs.choiceNodes st) - 1)%nat in
  [Edge.mk
     ("edge/" +:+ GraphNode.id questionNode +:+ "/q->baseline")
     EdgeDirection.Down
     (centreX questionNode)
     (bottomY questionNode)
     BranchIntervalY
     None;
   Edge.mk
     ("edge/" +:+ GraphNode.id questionNode +:+ "/baseline")
     EdgeDirection.Right
     (centreX firstChocie)
     (bottomY questionNode + BranchIntervalY)
     (centreX lastChoice - centreX firstChocie)
     None].

Definition convergenceEdgeList (st : Inputs.t) (questionNode : GraphNode.t)
    (reachableConnections : list Connection) : list Edge.t :=
  questionEdges st questionNode
  ++ flat_map (groupEdgeList st (bottomY questionNode + BranchIntervalY))
       reachableConnections.

(** Every choice node of a composed tree has its top at height [v]. *)
Definition choicesAt (v : Q) (l : list (NodeRef * CoordPoint.t)) : Prop :=
  ∀ i p, (ChoiceRef i, p) ∈ l → CoordPoint.y p == v.

(** A group in which choices converge. *)
Definition converged (connection : Connection) : Prop :=
  (1 < length connection.2)%nat.

(** *** Stores that differ in what a layout writes *)

(** Two nodes that differ in offset and hidden flag at most. *)
Definition sameShape (n n' : GraphNode.t) : Prop :=
  GraphNode.id n = GraphNode.id n'
  ∧ GraphNode.boundary n = GraphNode.boundary n'
  ∧ GraphNode.data n = GraphNode.data n'.

(** Two nodes that differ in offset at most. *)
Definition sameButOffset (n n' : GraphNode.t) : Prop :=
  sameShape n n' ∧ GraphNode.hidden n = GraphNode.hidden n'.

Definition related (R : GraphNode.t → GraphNode.t → Prop)
    (st st' : Inputs.t) : Prop :=
  option_Forall2 R (Inputs.questionNode st) (Inputs.questionNode st')
  ∧ Forall2 R (Inputs.choiceNodes st) (Inputs.choiceNodes st')
  ∧ Forall2 R (Inputs.branchNodes st) (Inputs.branchNodes st').

(** The inputs on which the plain branching layout runs. *)
Definition plainPath (st : Inputs.t) : Prop :=
  ∃ q,
    Inputs.questionNode st = Some q
    ∧ (Data.type (GraphNode.data q) = Some QuestionType.confirm
       ∨ (Data.type (GraphNode.data q) = Some QuestionType.choice
          ∧ size (buildConvergenceMap st) = 0%nat)).

(** *** What a layout may write, and where a choice redirects *)

(** Two nodes that differ in offset at most, and in that the second may have
    been hidden. *)
Definition onlyHides (n n' : GraphNode.t) : Prop :=
  sameShape n n'
  ∧ (GraphNode.hidden n = true → GraphNode.hidden n' = true).

(** The case index a round of the [forEach] enters for a choice, if it
    enters one. *)
Definition redirectTarget (branchNodes : list GraphNode.t)
    (node : GraphNode.t) : option nat :=
  convergenceStep branchNodes ∅ 0%nat node !! 0%nat.

(** *** A branch node attached to its choice *)

(** The branch node stands under the choice node: centre line on centre
    line, its top one element gap below the bottom of the choice. *)
Definition attachedBelow (choice branch : GraphNode.t) : Prop :=
  centreX branch == centreX choice
  ∧ CoordPoint.y (GraphNode.offset branch)
    == bottomY choice + CoordPoint.y ElementInterval.

(** The same of the positions a composed tree holds for choice [i] and
    branch [i]. *)
Definition pairPlaced (l : list (NodeRef * CoordPoint.t)) (i : nat)
    (choice branch : GraphNode.t) : Prop :=
  ∃ pc pb,
    GraphCoord.lookup_placed (ChoiceRef i) l = Some pc
    ∧ GraphCoord.lookup_placed (BranchRef i) l = Some pb
    ∧ CoordPoint.x pb + Boundary.axisX (GraphNode.boundary branch)
      == CoordPoint.x pc + Boundary.axisX (GraphNode.boundary choice)
    ∧ CoordPoint.y pb
      == CoordPoint.y pc + Boundary.height (GraphNode.boundary choice)
         + CoordPoint.y ElementInterval.

(** * Properties *)

(** ** Completions and [mapM] *)

Section CompletionFacts.
Context {A B : Type}.
Implicit Types (f : A → Completion B) (l : list A).

Lemma mapM_Normal f (g : A → B) l :
  (∀ a, a ∈ l → f a = Normal (g a)) → mapM f l = Normal (g <$> l).
Proof.
  induction l as [|a l IH]; intros Hf; [done|].
  cbn. rewrite (Hf a) by left. cbn.
  rewrite IH; [done|]. intros b Hb. apply Hf. by right.
Qed.

Lemma mapM_Throw f l a e :
  a ∈ l → f a = Throw e → ∃ e', mapM f l = Throw e'.
Proof.
  induction 1 as [a l|a b l _ IH]; intros Hfa; cbn.
  - rewrite Hfa. eauto.
  - destruct (f b); cbn; [|eauto].
    destruct (IH Hfa) as [e' ->]. eauto.
Qed.
End CompletionFacts.

Lemma mapM_defined_Some {A : Type} (l : list A) :
  mapM defined (Some <$> l) = Normal l.
Proof.
  induction l as [|a l IH]; [done|]. cbn. by rewrite IH.
Qed.

(** ** The dispatcher and the layouts without composition *)

Lemma findIndex_None {A : Type} (p : A → bool) (l : list A) :
  (∀ a, a ∈ l → p a = false) → findIndex p l = None.
Proof.
  intros Hp. unfold findIndex.
  destruct (list_find _ l) as [[i a]|] eqn:Hfind; [|done].
  apply list_find_Some in Hfind as (Hi & Ha & _).
  rewrite Hp in Ha; [done|]. by eapply list_elem_of_lookup_2.
Qed.

Lemma convergenceStep_noRedirect branchNodes m i c :
  noRedirect branchNodes c → convergenceStep branchNodes m i c = m.
Proof.
  intros Hc. unfold convergenceStep.
  destruct (negb _ || bool_decide _) eqn:Hguard; [done|].
  apply orb_false_iff in Hguard as [Htruthy Hself].
  apply bool_decide_eq_false in Hself.
  destruct Hc as [Hnone|[Hown|Hmiss]].
  - rewrite Hnone in Htruthy. done.
  - done.
  - rewrite findIndex_None; [done|].
    intros b Hb. apply bool_decide_eq_false. by apply Hmiss.
Qed.

Lemma convergenceLoop_noRedirect branchNodes m i choiceNodes :
  Forall (noRedirect branchNodes) choiceNodes →
  convergenceLoop branchNodes m i choiceNodes = m.
Proof.
  intros Hall. revert m i.
  induction Hall as [|c rest Hc _ IH]; intros m i; [done|].
  cbn. rewrite convergenceStep_noRedirect by done. apply IH.
Qed.

(** C1.  For a question of type [choice] in which no choice redirects (each
    choice has no [gotoChoice], or one equal to its own [choiceId], or one
    that matches no branch node's [choiceId]), [questionLayouter] gives what
    the plain branching layout gives on the same inputs: the same layout
    record (boundary, edges) and the same positioned nodes. *)
Theorem questionLayouter_choice_without_redirect st q :
  Inputs.questionNode st = Some q →
  Data.type (GraphNode.data q) = Some QuestionType.choice →
  Forall (noRedirect (Inputs.branchNodes st)) (Inputs.choiceNodes st) →
  questionLayouter st = questionLayouterBranching st.
Proof.
  intros Hq Htype Hall. unfold questionLayouter. rewrite Hq. cbn zeta.
  rewrite decide_True by done.
  unfold questionLayouterBranchingWithConvergence. rewrite Hq.
  destruct (decide (length (Inputs.branchNodes st) = 0%nat)) as [Hlen|Hlen].
  - unfold questionLayouterBranching. rewrite Hq. by rewrite decide_True.
  - cbn zeta. unfold buildConvergenceMap.
    rewrite convergenceLoop_noRedirect by done.
    by rewrite decide_True by apply map_size_empty.
Qed.

Lemma questionLayouter_absent st :
  Inputs.questionNode st = None →
  questionLayouter st = (Normal GraphLayout.empty, st).
Proof. unfold questionLayouter. by intros ->. Qed.

Lemma questionLayouter_no_branches st q :
  Inputs.questionNode st = Some q →
  Data.type (GraphNode.data q) = Some QuestionType.confirm
  ∨ Data.type (GraphNode.data q) = Some QuestionType.choice →
  Inputs.branchNodes st = [] →
  questionLayouter st = (Normal GraphLayout.empty, st).
Proof.
  unfold questionLayouter, questionLayouterBranchingWithConvergence,
    questionLayouterBranching.
  intros -> Htype ->. cbn.
  destruct Htype as [-> | ->]; done.
Qed.

(** C6.  Without a question node, and for a question of a branching type
    ([confirm] or [choice]) without branch nodes, [questionLayouter] returns
    the empty layout (zero-sized boundary, no edges, no nodes), normally and
    leaving the nodes as they were. *)
Theorem questionLayouter_empty st :
  Inputs.questionNode st = None
  ∨ (∃ q, Inputs.questionNode st = Some q
      ∧ (Data.type (GraphNode.data q) = Some QuestionType.confirm
         ∨ Data.type (GraphNode.data q) = Some QuestionType.choice)
      ∧ Inputs.branchNodes st = []) →
  questionLayouter st = (Normal GraphLayout.empty, st)
  ∧ Boundary.width (GraphLayout.boundary GraphLayout.empty) = 0
  ∧ Boundary.height (GraphLayout.boundary GraphLayout.empty) = 0
  ∧ GraphLayout.edges GraphLayout.empty = []
  ∧ GraphLayout.nodes GraphLayout.empty = [].
Proof.
  intros Hin. split; [|done].
  destruct Hin as [Hq|(q & Hq & Htype & Hbranches)].
  - by apply questionLayouter_absent.
  - by apply (questionLayouter_no_branches st q).
Qed.

(** C7.  For a question whose type is neither [choice] nor [confirm] ([text],
    [number], anything else, or none), the layout has the boundary 300 x 286,
    no edges and only the question node in its [nodeMap], and no node is
    changed, whatever the choice and branch nodes are. *)
Theorem questionLayouter_non_branching st q :
  Inputs.questionNode st = Some q →
  Data.type (GraphNode.data q) ≠ Some QuestionType.choice →
  Data.type (GraphNode.data q) ≠ Some QuestionType.confirm →
  ∃ layout,
    questionLayouter st = (Normal layout, st)
    ∧ Boundary.width (GraphLayout.boundary layout) = 300
    ∧ Boundary.height (GraphLayout.boundary layout) = 286
    ∧ GraphLayout.edges layout = []
    ∧ GraphLayout.nodeMap layout = NodeMap.mk (Some QuestionRef) None None.
Proof.
  intros Hq Hchoice Hconfirm. exists questionLayouterNonBranching.
  split; [|done].
  unfold questionLayouter. rewrite Hq. cbn zeta.
  by rewrite !decide_False by done.
Qed.

(** ** Composition on defined elements *)

Lemma topAlignWithInterval_coords (coords : list GraphCoord.t) interval c :
  topAlignWithInterval (coordElement <$> coords) interval c
  = Normal (GraphCoord.row uncentredAxisX (GraphCoord.OfCoord <$> coords)
              interval c).
Proof.
  unfold topAlignWithInterval, GraphCoord.topAlignWithInterval, coordElement.
  rewrite (list_fmap_compose GraphCoord.OfCoord Some).
  by rewrite mapM_defined_Some.
Qed.

Lemma compose_height root e dx g :
  Boundary.height
    (GraphCoord.boundary
       (GraphCoord.compose root [(e, dx, GraphCoord.BottomMargin g)]))
  = Qmax
      (Boundary.height (GraphCoord.box root) + g
       + Boundary.height (GraphCoord.box e))
      (Boundary.height (GraphCoord.box root)).
Proof. done. Qed.

Lemma row_height_nonneg items : 0 <= GraphCoord.row_height items.
Proof.
  unfold GraphCoord.row_height.
  induction items as [|e items IH]; cbn; [lra|].
  eapply Qle_trans; [exact IH|]. apply Q.le_max_r.
Qed.

(** ** The plain branching layout *)

Lemma element_lookup st r n :
  Inputs.get st r = Some n → element st r = Some (GraphCoord.node r n).
Proof. unfold element. by intros ->. Qed.

Lemma choiceWithBranchNodes_plainPairs st :
  choiceWithBranchNodes st = Normal (plainPairs st).
Proof.
  unfold choiceWithBranchNodes, plainPairs. apply mapM_Normal.
  intros i [_ Hi]%elem_of_seq. cbn in Hi.
  rewrite (element_lookup st (ChoiceRef i) (Inputs.choiceNodes st !!! i)),
    (element_lookup st (BranchRef i) (Inputs.branchNodes st !!! i));
    [done|cbn; apply list_lookup_lookup_total_lt; lia..].
Qed.

Lemma plainPairs_length st :
  length (plainPairs st)
  = (length (Inputs.choiceNodes st) `min` length (Inputs.branchNodes st))%nat.
Proof. unfold plainPairs. by rewrite length_fmap, length_seq. Qed.

Lemma branchingContentCoord_plainContent st :
  branchingContentCoord st = Normal (plainContent st).
Proof.
  unfold branchingContentCoord. rewrite choiceWithBranchNodes_plainPairs. cbn.
  apply topAlignWithInterval_coords.
Qed.

Lemma branchingCoord_plainRoot st q :
  Inputs.questionNode st = Some q →
  branchingCoord st = Normal (plainRoot q st).
Proof.
  intros Hq. unfold branchingCoord.
  rewrite branchingContentCoord_plainContent.
  by rewrite (element_lookup st QuestionRef q).
Qed.

(** What the plain branching layout returns, spelt out. *)
Lemma questionLayouterBranching_returns st q :
  Inputs.questionNode st = Some q →
  Inputs.branchNodes st ≠ [] →
  let root := plainRoot q st in
  let st' := GraphCoord.moveCoordTo root 0 0 st in
  questionLayouterBranching st
  = (Normal
       (GraphLayout.mk (GraphCoord.boundary root) (fullNodeMap st')
          (calculateEdges (GraphCoord.boundary root)
             (GraphCoord.place root 0 0 QuestionRef q)
             (Inputs.branchNodes st'))
          []),
     st').
Proof.
  intros Hq Hbranches. cbn zeta. unfold questionLayouterBranching.
  rewrite Hq, decide_False; last first.
  { by destruct (Inputs.branchNodes st). }
  rewrite (branchingCoord_plainRoot st q) by done.
  cbn. by rewrite Hq.
Qed.

(** ** The edges of the plain branching layout *)

Lemma directed_app d l1 l2 :
  directed d (l1 ++ l2) = directed d l1 ++ directed d l2.
Proof. apply filter_app. Qed.

Lemma directed_map_other {A : Type} d (f : A → Edge.t) (l : list A) :
  (∀ a, Edge.direction (f a) ≠ d) → directed d (map f l) = [].
Proof.
  intros Hf. induction l as [|a l IH]; [done|].
  unfold directed in *. change (map f (a :: l)) with (f a :: map f l).
  by rewrite filter_cons_False.
Qed.

Lemma directed_map_same {A : Type} d (f : A → Edge.t) (l : list A) :
  (∀ a, Edge.direction (f a) = d) → directed d (map f l) = map f l.
Proof.
  intros Hf. induction l as [|a l IH]; [done|].
  unfold directed in *. change (map f (a :: l)) with (f a :: map f l).
  rewrite filter_cons_True by done. by rewrite IH.
Qed.

Lemma directed_single_same d e :
  Edge.direction e = d → directed d [e] = [e].
Proof. intros He. unfold directed. by rewrite filter_cons_True. Qed.

Lemma directed_single_other d e :
  Edge.direction e ≠ d → directed d [e] = [].
Proof. intros He. unfold directed. by rewrite filter_cons_False. Qed.

Lemma calculateEdges_length containerBoundary q branchNodes :
  length (calculateEdges containerBoundary q branchNodes)
  = (1 + length branchNodes
     + (if decide (1 < length branchNodes) then 1 else 0))%nat.
Proof.
  unfold calculateEdges. case_decide; cbn.
  - rewrite length_app, length_map. cbn. lia.
  - rewrite length_map. lia.
Qed.

Lemma calculateEdges_down containerBoundary q branchNodes :
  length (directed EdgeDirection.Down
            (calculateEdges containerBoundary q branchNodes))
  = (1 + length branchNodes)%nat.
Proof.
  unfold calculateEdges.
  case_decide; rewrite ?directed_app, !length_app;
    rewrite directed_map_same by done; rewrite length_map;
    rewrite directed_single_same by done;
    rewrite ?directed_single_other by done; cbn; lia.
Qed.

Lemma calculateEdges_right_many containerBoundary q branchNodes first last :
  (1 < length branchNodes)%nat →
  branchNodes !! 0%nat = Some first →
  branchNodes !! (length branchNodes - 1)%nat = Some last →
  directed EdgeDirection.Right
    (calculateEdges containerBoundary q branchNodes)
  = [Edge.mk ("edge/" +:+ GraphNode.id q +:+ "/baseline")
       EdgeDirection.Right
       (centreX first)
       (bottomY q + BranchIntervalY)
       (centreX last - centreX first)
       None].
Proof.
  intros Hlen Hfirst Hlast. unfold calculateEdges.
  rewrite decide_True by done. rewrite Hfirst, Hlast.
  rewrite !directed_app, directed_map_other by done.
  rewrite directed_single_other by done. by rewrite directed_single_same.
Qed.

Lemma calculateEdges_right_few containerBoundary q branchNodes :
  (length branchNodes ≤ 1)%nat →
  directed EdgeDirection.Right
    (calculateEdges containerBoundary q branchNodes) = [].
Proof.
  intros Hlen. unfold calculateEdges.
  rewrite decide_False by lia.
  rewrite directed_app, directed_map_other by done.
  by rewrite directed_single_other.
Qed.

(** ** What moving a composed tree leaves alone *)

Lemma place_id c x y r n :
  GraphNode.id (GraphCoord.place c x y r n) = GraphNode.id n.
Proof. unfold GraphCoord.place. by destruct GraphCoord.lookup_placed. Qed.

Lemma place_boundary c x y r n :
  GraphNode.boundary (GraphCoord.place c x y r n) = GraphNode.boundary n.
Proof. unfold GraphCoord.place. by destruct GraphCoord.lookup_placed. Qed.

Lemma place_data c x y r n :
  GraphNode.data (GraphCoord.place c x y r n) = GraphNode.data n.
Proof. unfold GraphCoord.place. by destruct GraphCoord.lookup_placed. Qed.

Lemma place_hidden c x y r n :
  GraphNode.hidden (GraphCoord.place c x y r n) = GraphNode.hidden n.
Proof. unfold GraphCoord.place. by destruct GraphCoord.lookup_placed. Qed.

Lemma moveCoordTo_get c x y st r :
  Inputs.get (GraphCoord.moveCoordTo c x y st) r
  = GraphCoord.place c x y r <$> Inputs.get st r.
Proof. destruct r; cbn; [done|by rewrite list_lookup_imap..]. Qed.

Lemma moveCoordTo_choices_length c x y st :
  length (Inputs.choiceNodes (GraphCoord.moveCoordTo c x y st))
  = length (Inputs.choiceNodes st).
Proof. apply length_imap. Qed.

Lemma moveCoordTo_branches_length c x y st :
  length (Inputs.branchNodes (GraphCoord.moveCoordTo c x y st))
  = length (Inputs.branchNodes st).
Proof. apply length_imap. Qed.

Lemma questionLayouter_confirm st q :
  Inputs.questionNode st = Some q →
  Data.type (GraphNode.data q) = Some QuestionType.confirm →
  questionLayouter st = questionLayouterBranching st.
Proof.
  intros Hq Htype. unfold questionLayouter. rewrite Hq. cbn zeta.
  rewrite Htype. by rewrite decide_False, decide_True.
Qed.

Lemma plainPairs_lookup st i c b :
  Inputs.choiceNodes st !! i = Some c →
  Inputs.branchNodes st !! i = Some b →
  plainPairs st !! i = Some (pairCoord i c b).
Proof.
  intros Hc Hb. unfold plainPairs.
  rewrite list_lookup_fmap, lookup_seq_lt; cbn.
  - by rewrite (list_lookup_total_correct _ _ _ Hc),
      (list_lookup_total_correct _ _ _ Hb).
  - apply lookup_lt_Some in Hc, Hb. lia.
Qed.

(** C3, as the code has it.  For a question of type [confirm] with three
    choices and three branches the edges are five: the edge from the question
    down to the baseline, the three edges from the baseline down to the
    branches, and the baseline edge.  The boundary height is the question
    height plus twice the branch interval plus the height of the row of
    choices with their branches plus 200 (the branch interval not being
    negative). *)
Theorem questionLayouter_confirm_three st q c0 c1 c2 b0 b1 b2 :
  Inputs.questionNode st = Some q →
  Data.type (GraphNode.data q) = Some QuestionType.confirm →
  Inputs.choiceNodes st = [c0; c1; c2] →
  Inputs.branchNodes st = [b0; b1; b2] →
  0 <= BranchIntervalY →
  ∃ layout st',
    questionLayouter st = (Normal layout, st')
    ∧ Edge.id <$> GraphLayout.edges layout
      = ["edge/" +:+ GraphNode.id q +:+ "/switch/condition->switch";
         "edge/" +:+ GraphNode.id q +:+ "/case/baseline->" +:+ GraphNode.id b0;
         "edge/" +:+ GraphNode.id q +:+ "/case/baseline->" +:+ GraphNode.id b1;
         "edge/" +:+ GraphNode.id q +:+ "/case/baseline->" +:+ GraphNode.id b2;
         "edge/" +:+ GraphNode.id q +:+ "/baseline"]
    ∧ length (GraphLayout.edges layout) = 5%nat
    ∧ length (directed EdgeDirection.Down (GraphLayout.edges layout)) = 4%nat
    ∧ length (directed EdgeDirection.Right (GraphLayout.edges layout)) = 1%nat
    ∧ Boundary.height (GraphLayout.boundary layout)
      == Boundary.height (GraphNode.boundary q)
         + 2 * BranchIntervalY
         + Qmax (pairHeight c0 b0)
             (Qmax (pairHeight c1 b1) (Qmax (pairHeight c2 b2) 0))
         + 200.
Proof.
  intros Hq Htype Hchoices Hbranches Hinterval.
  assert (Inputs.branchNodes st ≠ []) as Hne by by rewrite Hbranches.
  pose proof (questionLayouterBranching_returns st q Hq Hne) as Hret.
  cbn zeta in Hret.
  set (root := plainRoot q st) in *.
  set (st' := GraphCoord.moveCoordTo root 0 0 st) in *.
  assert (length (Inputs.branchNodes st') = 3%nat) as Hlen.
  { unfold st'. by rewrite moveCoordTo_branches_length, Hbranches. }
  eexists _, st'.
  split; [by rewrite (questionLayouter_confirm st q)|].
  cbn [GraphLayout.edges GraphLayout.boundary].
  split; [|split; [|split; [|split]]].
  - unfold st'. cbn [GraphCoord.moveCoordTo Inputs.branchNodes].
    rewrite Hbranches. unfold calculateEdges. cbn.
    by rewrite !place_id.
  - rewrite calculateEdges_length, Hlen. done.
  - rewrite calculateEdges_down, Hlen. done.
  - destruct (lookup_lt_is_Some_2 (Inputs.branchNodes st') 0%nat)
      as [first Hfirst]; [lia|].
    destruct (lookup_lt_is_Some_2 (Inputs.branchNodes st')
                (length (Inputs.branchNodes st') - 1)%nat)
      as [last Hlast]; [lia|].
    rewrite (calculateEdges_right_many _ _ _ first last); [done|lia|done..].
  - unfold root, plainRoot, rootCoord. rewrite compose_height.
    assert (Boundary.height
              (GraphCoord.box
                 (GraphCoord.OfCoord
                    (GraphCoord.add_height (plainContent st) 200)))
            = Qmax (pairHeight c0 b0)
                (Qmax (pairHeight c1 b1) (Qmax (pairHeight c2 b2) 0))
              + 200) as ->.
    { unfold plainContent, plainPairs. rewrite Hchoices, Hbranches. done. }
    pose proof (row_height_nonneg
                  (GraphCoord.OfCoord
                   <$> [pairCoord 0 c0 b0; pairCoord 1 c1 b1;
                        pairCoord 2 c2 b2])) as Hrow.
    change (GraphCoord.row_height _)
      with (Qmax (pairHeight c0 b0)
              (Qmax (pairHeight c1 b1) (Qmax (pairHeight c2 b2) 0)))
      in Hrow.
    unfold GraphCoord.box, GraphCoord.node.
    cbn [GraphCoord.of_element GraphCoord.boundary].
    rewrite Q.max_l; lra.
Qed.

(** ** Arrays with holes *)

Lemma array_get_set_eq {A : Type} (i : nat) (v : A) l :
  array_get (array_set i v l) i = Some v.
Proof.
  revert l. induction i as [|i IH]; intros [|a l]; cbn; try done; apply IH.
Qed.

Lemma array_get_set_ne {A : Type} (i j : nat) (v : A) l :
  i ≠ j → array_get (array_set i v l) j = array_get l j.
Proof.
  revert j l. induction i as [|i IH]; intros [|j] [|a l] Hne; try done.
  - cbn. change (array_get (array_set i v []) j = None).
    rewrite IH by lia. done.
  - cbn. change (array_get (array_set i v l) j = array_get l j).
    apply IH. lia.
Qed.

Lemma elem_of_holes {A : Type} (l : list (option A)) (a : A) :
  a ∈ omap id l ↔ ∃ j, array_get l j = Some a.
Proof.
  rewrite list_elem_of_omap. split.
  - intros (o & [j Hj]%list_elem_of_lookup_1 & Ho). cbn in Ho. subst o.
    exists j. unfold array_get. by rewrite Hj.
  - intros [j Hj]. unfold array_get in Hj.
    destruct (l !! j) as [[a'|]|] eqn:Hlook; cbn in Hj; simplify_eq.
    exists (Some a). split; [|done]. by eapply list_elem_of_lookup_2.
Qed.

(** ** The connections *)

Lemma choicesOf_S m n j :
  choicesOf m (S n) j
  = choicesOf m n j ++ (if decide (caseOf m n = j) then [n] else []).
Proof.
  unfold choicesOf. by rewrite seq_S, filter_app.
Qed.

Lemma buildConnections_S m n :
  buildConnections m (S n) = connectStep m (buildConnections m n) n.
Proof. unfold buildConnections. by rewrite seq_S, foldl_snoc. Qed.

(** The slot of case [j] holds the choices that lead to [j], and is a hole
    when there are none. *)
Lemma buildConnections_get m n j :
  array_get (buildConnections m n) j
  = match choicesOf m n j with
    | [] => None
    | choiceIndices => Some (j, choiceIndices)
    end.
Proof.
  induction n as [|n IH] in j |- *; [done|].
  rewrite buildConnections_S, choicesOf_S. unfold connectStep.
  set (iCase := caseOf m n).
  destruct (decide (iCase = j)) as [<-|Hne].
  - rewrite IH.
    destruct (choicesOf m n iCase) as [|i l];
      by rewrite array_get_set_eq.
  - rewrite app_nil_r.
    destruct (array_get (buildConnections m n) iCase) as [[c l]|];
      rewrite array_get_set_ne by done; apply IH.
Qed.

Lemma elem_of_choicesOf m n j i :
  i ∈ choicesOf m n j ↔ (i < n)%nat ∧ caseOf m i = j.
Proof.
  unfold choicesOf. rewrite list_elem_of_filter, elem_of_seq. lia.
Qed.

Lemma elem_of_reachable m n j choiceIndices :
  (j, choiceIndices) ∈ reachable (buildConnections m n)
  ↔ choiceIndices = choicesOf m n j ∧ choiceIndices ≠ [].
Proof.
  unfold reachable. rewrite elem_of_holes. split.
  - intros [k Hk]. rewrite buildConnections_get in Hk.
    destruct (choicesOf m n k) eqn:Hof; simplify_eq. by rewrite Hof.
  - intros [-> Hne]. exists j. rewrite buildConnections_get.
    by destruct (choicesOf m n j).
Qed.

(** ** Marking the unreachable cases *)

Lemma markHidden_branch connections st j :
  Inputs.branchNodes (markHidden connections st) !! j
  = (λ n,
       match array_get connections j with
       | Some _ => n
       | None => GraphNode.set_hidden n true
       end)
    <$> Inputs.branchNodes st !! j.
Proof. cbn. by rewrite list_lookup_imap. Qed.

Lemma markHidden_branches_length connections st :
  length (Inputs.branchNodes (markHidden connections st))
  = length (Inputs.branchNodes st).
Proof. apply length_imap. Qed.

(** A convergence map is only filled when there are branch nodes. *)
Lemma buildConvergenceMap_no_branches st :
  Inputs.branchNodes st = [] → buildConvergenceMap st = ∅.
Proof.
  intros Hnil. unfold buildConvergenceMap. rewrite Hnil.
  apply convergenceLoop_noRedirect, Forall_forall.
  intros c _. right. right. by intros b ?%elem_of_nil.
Qed.

Lemma converging_has_branches st :
  size (buildConvergenceMap st) ≠ 0%nat → Inputs.branchNodes st ≠ [].
Proof.
  intros Hsize Hnil. apply Hsize.
  by rewrite buildConvergenceMap_no_branches, map_size_empty.
Qed.

(** ** The convergence-aware composition *)

Lemma mapM_fmap {A B C : Type} (f : B → Completion C) (g : A → B)
    (l : list A) :
  mapM f (g <$> l) = mapM (f ∘ g) l.
Proof. induction l as [|a l IH]; [done|]. cbn. by rewrite IH. Qed.

Lemma topAlignWithInterval_choices st choiceIndices :
  Forall (λ i, (i < length (Inputs.choiceNodes st))%nat) choiceIndices →
  topAlignWithInterval ((λ i, element st (ChoiceRef i)) <$> choiceIndices)
    BranchIntervalX false
  = Normal (choiceRow st choiceIndices).
Proof.
  intros Hrange.
  unfold topAlignWithInterval, GraphCoord.topAlignWithInterval, choiceRow.
  rewrite mapM_fmap.
  rewrite (mapM_Normal _
             (λ i, GraphCoord.node (ChoiceRef i)
                     (Inputs.choiceNodes st !!! i))); [done|].
  intros i Hi. rewrite Forall_forall in Hrange.
  unfold compose.
  rewrite (element_lookup st (ChoiceRef i) (Inputs.choiceNodes st !!! i));
    [done|].
  cbn. apply list_lookup_lookup_total_lt. auto.
Qed.

Lemma branchCoord_groupCoord st connection :
  connectionInRange st connection →
  branchCoord st connection = Normal (groupCoord st connection).
Proof.
  destruct connection as [caseIdx choiceIndices]. intros [Hcase Hchoices].
  cbn in Hcase, Hchoices. unfold branchCoord.
  rewrite topAlignWithInterval_choices by done.
  cbn [mbind Completion_bind].
  rewrite (element_lookup st (BranchRef caseIdx)
             (Inputs.branchNodes st !!! caseIdx)); [done|].
  cbn. by apply list_lookup_lookup_total_lt.
Qed.

Lemma convergenceContentCoord_content st reachableConnections :
  Forall (connectionInRange st) reachableConnections →
  convergenceContentCoord st reachableConnections
  = Normal (convergenceContent st reachableConnections).
Proof.
  intros Hrange. unfold convergenceContentCoord.
  rewrite (mapM_Normal _ (groupCoord st)).
  - cbn [mbind Completion_bind]. apply topAlignWithInterval_coords.
  - intros c Hc. apply branchCoord_groupCoord.
    rewrite Forall_forall in Hrange. auto.
Qed.

Lemma convergenceCoord_rootCoord st q reachableConnections :
  Inputs.questionNode st = Some q →
  Forall (connectionInRange st) reachableConnections →
  convergenceCoord st reachableConnections
  = Normal (rootCoord q (convergenceContent st reachableConnections)).
Proof.
  intros Hq Hrange. unfold convergenceCoord.
  rewrite convergenceContentCoord_content by done.
  by rewrite (element_lookup st QuestionRef q).
Qed.

Lemma casesInRange_connections st :
  casesInRange st →
  Forall (connectionInRange (marked st)) (reachable (connectionsOf st)).
Proof.
  intros Hrange. apply Forall_forall. intros [j choiceIndices] Hin.
  apply elem_of_reachable in Hin as [-> Hne].
  unfold casesInRange in Hrange. rewrite Forall_forall in Hrange.
  split; cbn.
  - destruct (choicesOf _ _ j) as [|i l] eqn:Hof; [done|].
    assert (i ∈ choicesOf (buildConvergenceMap st)
                  (length (Inputs.choiceNodes st)) j) as Hi
      by (rewrite Hof; left).
    apply elem_of_choicesOf in Hi as [Hi <-].
    rewrite length_imap. apply Hrange, elem_of_seq. lia.
  - apply Forall_forall. by intros i [Hi _]%elem_of_choicesOf.
Qed.

(** ** The edges of the convergence-aware layout *)

Lemma connectionInRange_lengths st st' connection :
  length (Inputs.choiceNodes st') = length (Inputs.choiceNodes st) →
  length (Inputs.branchNodes st') = length (Inputs.branchNodes st) →
  connectionInRange st connection → connectionInRange st' connection.
Proof. unfold connectionInRange. by intros -> ->. Qed.

Lemma concat_fmap_flat_map {A B : Type} (f : A → list B) (l : list A) :
  concat (f <$> l) = flat_map f l.
Proof. induction l as [|a l IH]; [done|]. cbn. by rewrite IH. Qed.

Lemma groupEdges_list st baseline connection :
  connectionInRange st connection →
  groupEdges st baseline connection
  = Normal (groupEdgeList st baseline connection).
Proof.
  destruct connection as [caseIdx choiceIndices]. intros [Hcase Hchoices].
  cbn in Hcase, Hchoices. rewrite Forall_forall in Hchoices.
  unfold groupEdges, groupEdgeList. cbn [fst snd].
  set (converged := bool_decide (1 < length choiceIndices)%nat).
  rewrite (mapM_Normal _
             (λ i, choiceEdges baseline converged
                     (Inputs.choiceNodes st !!! i))); last first.
  { intros i Hi.
    by rewrite (list_lookup_lookup_total_lt (Inputs.choiceNodes st) i)
      by auto. }
  cbn [mbind Completion_bind]. rewrite concat_fmap_flat_map.
  destruct converged eqn:Hconverged; [|done].
  apply bool_decide_eq_true in Hconverged.
  rewrite (list_lookup_lookup_total_lt (Inputs.branchNodes st) caseIdx)
    by done.
  cbn [mbind Completion_bind defined].
  assert (∀ k, (k < length choiceIndices)%nat →
            choiceIndices !! k ≫= (Inputs.choiceNodes st !!.)
            = Some (Inputs.choiceNodes st !!! (choiceIndices !!! k)))
    as Hnth.
  { intros k Hk.
    rewrite (list_lookup_lookup_total_lt choiceIndices k) by done. cbn.
    apply list_lookup_lookup_total_lt, Hchoices.
    by apply list_elem_of_lookup_total_2. }
  rewrite !Hnth by lia. done.
Qed.

Lemma buildConvergenceMap_no_choices st :
  Inputs.choiceNodes st = [] → buildConvergenceMap st = ∅.
Proof. unfold buildConvergenceMap. by intros ->. Qed.

Lemma converging_has_choices st :
  size (buildConvergenceMap st) ≠ 0%nat → Inputs.choiceNodes st ≠ [].
Proof.
  intros Hsize Hnil. apply Hsize.
  by rewrite buildConvergenceMap_no_choices, map_size_empty.
Qed.

Lemma convergenceEdges_list st q reachableConnections :
  Inputs.questionNode st = Some q →
  Inputs.choiceNodes st ≠ [] →
  Forall (connectionInRange st) reachableConnections →
  convergenceEdges st reachableConnections
  = Normal (convergenceEdgeList st q reachableConnections).
Proof.
  intros Hq Hchoices Hrange. unfold convergenceEdges. rewrite Hq.
  cbn [mbind Completion_bind defined].
  assert (0 < length (Inputs.choiceNodes st))%nat as Hlen.
  { destruct (Inputs.choiceNodes st); [done|cbn; lia]. }
  rewrite !(list_lookup_lookup_total_lt (Inputs.choiceNodes st)) by lia.
  cbn [mbind Completion_bind defined].
  rewrite (mapM_Normal _ (groupEdgeList st (bottomY q + BranchIntervalY))).
  - cbn [mbind Completion_bind]. by rewrite concat_fmap_flat_map.
  - intros c Hc. apply groupEdges_list.
    rewrite Forall_forall in Hrange. auto.
Qed.

(** ** The convergence-aware layout as a whole *)

Lemma questionLayouter_choice st q :
  Inputs.questionNode st = Some q →
  Data.type (GraphNode.data q) = Some QuestionType.choice →
  questionLayouter st = questionLayouterBranchingWithConvergence st.
Proof.
  intros Hq Htype. unfold questionLayouter. rewrite Hq. cbn zeta.
  by rewrite decide_True.
Qed.

Lemma convergence_unfold st q :
  Inputs.questionNode st = Some q →
  size (buildConvergenceMap st) ≠ 0%nat →
  questionLayouterBranchingWithConvergence st
  = match convergenceCoord (marked st) (reachable (connectionsOf st)) with
    | Throw e => (Throw e, marked st)
    | Normal root =>
        let st2 := GraphCoord.moveCoordTo root 0 0 (marked st) in
        (edges ← convergenceEdges st2 (reachable (connectionsOf st));
         mret (GraphLayout.mk (GraphCoord.boundary root) (fullNodeMap st2)
                 edges []),
         st2)
    end.
Proof.
  intros Hq Hsize. unfold questionLayouterBranchingWithConvergence.
  rewrite Hq, decide_False; last first.
  { pose proof (converging_has_branches st Hsize).
    by destruct (Inputs.branchNodes st). }
  cbn zeta. by rewrite decide_False.
Qed.

(** What the convergence-aware layout returns when every case has a branch
    node, spelt out. *)
Lemma questionLayouter_converging_returns st q :
  Inputs.questionNode st = Some q →
  Data.type (GraphNode.data q) = Some QuestionType.choice →
  size (buildConvergenceMap st) ≠ 0%nat →
  casesInRange st →
  let reachableConnections := reachable (connectionsOf st) in
  let root :=
    rootCoord q (convergenceContent (marked st) reachableConnections) in
  let st' := GraphCoord.moveCoordTo root 0 0 (marked st) in
  questionLayouter st
  = (Normal
       (GraphLayout.mk (GraphCoord.boundary root) (fullNodeMap st')
          (convergenceEdgeList st' (GraphCoord.place root 0 0 QuestionRef q)
             reachableConnections)
          []),
     st').
Proof.
  intros Hq Htype Hsize Hrange. cbn zeta.
  rewrite (questionLayouter_choice st q), (convergence_unfold st q) by done.
  pose proof (casesInRange_connections st Hrange) as Hconn.
  rewrite (convergenceCoord_rootCoord (marked st) q) by done.
  cbn zeta.
  set (root := rootCoord q _).
  rewrite (convergenceEdges_list _ (GraphCoord.place root 0 0 QuestionRef q)).
  - done.
  - cbn. by rewrite Hq.
  - cbn [GraphCoord.moveCoordTo Inputs.choiceNodes marked markHidden].
    intros Hnil%(f_equal length). rewrite length_imap in Hnil.
    apply (converging_has_choices st Hsize).
    by destruct (Inputs.choiceNodes st).
  - eapply Forall_impl; [exact Hconn|].
    intros c. apply connectionInRange_lengths.
    + apply moveCoordTo_choices_length.
    + apply moveCoordTo_branches_length.
Qed.

(** ** The nodes of a composed tree *)

Lemma refs_translate dx dy c : (GraphCoord.translate dx dy c).*1 = refs c.
Proof.
  unfold GraphCoord.translate, refs. rewrite <-list_fmap_compose.
  by apply list_fmap_ext.
Qed.

Lemma fmap_flat_map {A B C : Type} (g : B → C) (f : A → list B) (l : list A) :
  g <$> flat_map f l = flat_map (λ a, g <$> f a) l.
Proof.
  induction l as [|a l IH]; [done|]. cbn. by rewrite fmap_app, IH.
Qed.

Lemma refs_compose root children :
  refs (GraphCoord.compose root children)
  = refs (GraphCoord.of_element root)
    ++ flat_map (λ ch, refs (GraphCoord.of_element ch.1.1)) children.
Proof.
  unfold refs at 1. cbn [GraphCoord.compose GraphCoord.placed].
  rewrite fmap_app, refs_translate, fmap_flat_map. f_equal.
  apply flat_map_ext. intros ch. apply refs_translate.
Qed.

Lemma refs_row_placed x interval items :
  (GraphCoord.row_placed x interval items).*1
  = flat_map (λ e, refs (GraphCoord.of_element e)) items.
Proof.
  revert x. induction items as [|e items IH]; intros x; [done|].
  cbn. by rewrite fmap_app, refs_translate, IH.
Qed.

Lemma refs_row items interval centred :
  refs (GraphCoord.row uncentredAxisX items interval centred)
  = flat_map (λ e, refs (GraphCoord.of_element e)) items.
Proof. apply refs_row_placed. Qed.

Lemma flat_map_fmap {A B C : Type} (f : B → list C) (g : A → B)
    (l : list A) :
  flat_map f (g <$> l) = flat_map (f ∘ g) l.
Proof. induction l as [|a l IH]; [done|]. cbn. by rewrite IH. Qed.

Lemma flat_map_singleton {A B : Type} (f : A → B) (l : list A) :
  flat_map (λ a, [f a]) l = f <$> l.
Proof. induction l as [|a l IH]; [done|]. cbn. by rewrite IH. Qed.

Lemma refs_choiceRow st choiceIndices :
  refs (choiceRow st choiceIndices) = ChoiceRef <$> choiceIndices.
Proof.
  unfold choiceRow. rewrite refs_row, flat_map_fmap.
  apply flat_map_singleton.
Qed.

Lemma refs_groupCoord st connection :
  refs (groupCoord st connection)
  = (ChoiceRef <$> connection.2) ++ [BranchRef connection.1].
Proof.
  unfold groupCoord. rewrite refs_compose. cbn [GraphCoord.of_element].
  by rewrite refs_choiceRow.
Qed.

Lemma refs_convergenceContent st reachableConnections :
  refs (convergenceContent st reachableConnections)
  = flat_map (λ connection,
                (ChoiceRef <$> connection.2) ++ [BranchRef connection.1])
      reachableConnections.
Proof.
  unfold convergenceContent. rewrite refs_row, !flat_map_fmap.
  apply flat_map_ext. intros c. apply refs_groupCoord.
Qed.

Lemma refs_rootCoord q content :
  refs (rootCoord q content) = QuestionRef :: refs content.
Proof. unfold rootCoord. rewrite refs_compose. cbn. by rewrite app_nil_r. Qed.

Lemma refs_plainContent st :
  refs (plainContent st)
  = flat_map (λ i, [ChoiceRef i; BranchRef i])
      (seq 0 (length (Inputs.choiceNodes st)
              `min` length (Inputs.branchNodes st))).
Proof.
  unfold plainContent, plainPairs. rewrite refs_row, !flat_map_fmap.
  apply flat_map_ext. intros i. unfold compose, pairCoord.
  cbn [GraphCoord.of_element]. by rewrite refs_compose.
Qed.

Lemma lookup_placed_elem r l p :
  GraphCoord.lookup_placed r l = Some p → (r, p) ∈ l.
Proof.
  induction l as [|[r' p'] l IH]; cbn; [done|].
  case_decide; [intros [= ->]; subst; left|intros ?; right; auto].
Qed.

Lemma lookup_placed_None r l :
  r ∉ l.*1 → GraphCoord.lookup_placed r l = None.
Proof.
  induction l as [|[r' p'] l IH]; cbn; [done|].
  intros Hnot. apply not_elem_of_cons in Hnot as [Hne Hnot].
  rewrite decide_False by done. auto.
Qed.

Lemma lookup_placed_is_Some r l :
  r ∈ l.*1 → is_Some (GraphCoord.lookup_placed r l).
Proof.
  induction l as [|[r' p'] l IH]; cbn; [by intros ?%elem_of_nil|].
  intros Hin. case_decide; [eauto|].
  apply elem_of_cons in Hin as [?|?]; [done|auto].
Qed.

Lemma place_placed c x y r n :
  r ∈ refs c →
  ∃ p, GraphCoord.lookup_placed r (GraphCoord.placed c) = Some p
       ∧ GraphCoord.place c x y r n
         = GraphNode.set_offset n (CoordPoint.shift x y p).
Proof.
  intros [p Hp]%lookup_placed_is_Some. exists p. split; [done|].
  unfold GraphCoord.place. by rewrite Hp.
Qed.

(** ** Hidden cases *)

Lemma moveCoordTo_branch c x y st j :
  Inputs.branchNodes (GraphCoord.moveCoordTo c x y st) !! j
  = GraphCoord.place c x y (BranchRef j) <$> Inputs.branchNodes st !! j.
Proof. apply (moveCoordTo_get c x y st (BranchRef j)). Qed.

Lemma moveCoordTo_choice c x y st i :
  Inputs.choiceNodes (GraphCoord.moveCoordTo c x y st) !! i
  = GraphCoord.place c x y (ChoiceRef i) <$> Inputs.choiceNodes st !! i.
Proof. apply (moveCoordTo_get c x y st (ChoiceRef i)). Qed.

Lemma elem_of_flat_map {A B : Type} (f : A → list B) (l : list A) (b : B) :
  b ∈ flat_map f l ↔ ∃ a, a ∈ l ∧ b ∈ f a.
Proof.
  induction l as [|a l IH]; cbn.
  - split; [by intros ?%elem_of_nil|]. by intros (a & ?%elem_of_nil & _).
  - rewrite elem_of_app, IH. split.
    + intros [Hb|(a' & Ha' & Hb)]; [exists a; split; [left|done]|].
      exists a'. split; [by right|done].
    + intros (a' & [->|Ha']%elem_of_cons & Hb); [by left|right; eauto].
Qed.

(** ** The attachments of the plain branching layout *)

Lemma lookup_placed_translate r dx dy c :
  GraphCoord.lookup_placed r (GraphCoord.translate dx dy c)
  = CoordPoint.shift dx dy <$> GraphCoord.lookup_placed r (GraphCoord.placed c).
Proof.
  unfold GraphCoord.translate.
  induction (GraphCoord.placed c) as [|[r' p'] l IH]; [done|].
  cbn. by case_decide.
Qed.

Lemma lookup_placed_app r l1 l2 :
  GraphCoord.lookup_placed r (l1 ++ l2)
  = match GraphCoord.lookup_placed r l1 with
    | Some p => Some p
    | None => GraphCoord.lookup_placed r l2
    end.
Proof.
  induction l1 as [|[r' p'] l1 IH]; [done|]. cbn. by case_decide.
Qed.

Lemma pairPlaced_translate dx dy c i choice branch :
  pairPlaced (GraphCoord.placed c) i choice branch →
  pairPlaced (GraphCoord.translate dx dy c) i choice branch.
Proof.
  intros (pc & pb & Hc & Hb & Hx & Hy).
  exists (CoordPoint.shift dx dy pc), (CoordPoint.shift dx dy pb).
  rewrite !lookup_placed_translate, Hc, Hb.
  split; [done|]. split; [done|]. cbn. split; lra.
Qed.

Lemma pairPlaced_app_l l1 l2 i choice branch :
  pairPlaced l1 i choice branch → pairPlaced (l1 ++ l2) i choice branch.
Proof.
  intros (pc & pb & Hc & Hb & Hxy). exists pc, pb.
  by rewrite !lookup_placed_app, Hc, Hb.
Qed.

Lemma pairPlaced_app_r l1 l2 i choice branch :
  ChoiceRef i ∉ l1.*1 → BranchRef i ∉ l1.*1 →
  pairPlaced l2 i choice branch → pairPlaced (l1 ++ l2) i choice branch.
Proof.
  intros Hc1 Hb1 (pc & pb & Hc & Hb & Hxy). exists pc, pb.
  by rewrite !lookup_placed_app, (lookup_placed_None _ l1 Hc1),
    (lookup_placed_None _ l1 Hb1), Hc, Hb.
Qed.

(** In the composition of a choice with its branch, the branch is attached
    below the choice. *)
Lemma pairPlaced_pairCoord i choice branch :
  pairPlaced (GraphCoord.placed (pairCoord i choice branch)) i choice branch.
Proof.
  unfold pairCoord, pairPlaced.
  cbn [GraphCoord.compose GraphCoord.placed GraphCoord.translate
       GraphCoord.of_element GraphCoord.node map flat_map app fst snd
       GraphCoord.lookup_placed].
  rewrite decide_True by done.
  rewrite decide_False by done. rewrite decide_True by done.
  eexists _, _. split; [done|]. split; [done|].
  cbn. split; lra.
Qed.

Lemma pairPlaced_row_placed st (k n : nat) x interval i choice branch :
  (k ≤ i < k + n)%nat →
  Inputs.choiceNodes st !! i = Some choice →
  Inputs.branchNodes st !! i = Some branch →
  pairPlaced
    (GraphCoord.row_placed x interval
       (GraphCoord.OfCoord
        <$> ((λ j,
                pairCoord j (Inputs.choiceNodes st !!! j)
                  (Inputs.branchNodes st !!! j))
             <$> seq k n)))
    i choice branch.
Proof.
  intros Hi Hchoice Hbranch. revert k x Hi.
  induction n as [|n IH]; intros k x Hi; [lia|].
  cbn [seq fmap list_fmap GraphCoord.row_placed].
  destruct (decide (i = k)) as [->|Hne].
  - apply pairPlaced_app_l, pairPlaced_translate.
    cbn [GraphCoord.of_element].
    rewrite (list_lookup_total_correct _ _ _ Hchoice),
      (list_lookup_total_correct _ _ _ Hbranch).
    apply pairPlaced_pairCoord.
  - apply pairPlaced_app_r; [| |apply IH; lia].
    all: rewrite refs_translate; cbn [GraphCoord.of_element];
      unfold pairCoord; rewrite refs_compose; cbn;
      intros Hin; repeat (apply elem_of_cons in Hin as [Hin|Hin];
                          [congruence|]);
      by apply elem_of_nil in Hin.
Qed.

(** In the tree of the plain branching layout every choice that has a branch
    node of its index has it attached below. *)
Lemma pairPlaced_plainRoot q st i choice branch :
  Inputs.choiceNodes st !! i = Some choice →
  Inputs.branchNodes st !! i = Some branch →
  pairPlaced (GraphCoord.placed (plainRoot q st)) i choice branch.
Proof.
  intros Hchoice Hbranch. unfold plainRoot, rootCoord.
  cbn [GraphCoord.compose GraphCoord.placed flat_map fst snd
       GraphCoord.of_element GraphCoord.node].
  apply pairPlaced_app_r; [| |].
  1-2: cbn; intros Hin; apply elem_of_cons in Hin as [Hin|Hin];
    [congruence|by apply elem_of_nil in Hin].
  apply pairPlaced_app_l, pairPlaced_translate.
  cbn [GraphCoord.add_height GraphCoord.placed].
  unfold plainContent, plainPairs.
  cbn [GraphCoord.row GraphCoord.placed].
  apply pairPlaced_row_placed; [|done..].
  apply lookup_lt_Some in Hchoice, Hbranch. lia.
Qed.

Lemma attachedBelow_place c i choice branch :
  pairPlaced (GraphCoord.placed c) i choice branch →
  attachedBelow (GraphCoord.place c 0 0 (ChoiceRef i) choice)
    (GraphCoord.place c 0 0 (BranchRef i) branch).
Proof.
  intros (pc & pb & Hc & Hb & Hx & Hy).
  unfold attachedBelow, GraphCoord.place, centreX, bottomY.
  rewrite Hc, Hb. cbn. split; lra.
Qed.

Lemma place_not_placed c x y r n :
  r ∉ refs c → GraphCoord.place c x y r n = n.
Proof.
  intros Hnot. unfold GraphCoord.place.
  by rewrite lookup_placed_None.
Qed.

Lemma refs_plainRoot q st :
  refs (plainRoot q st)
  = QuestionRef
    :: flat_map (λ i, [ChoiceRef i; BranchRef i])
         (seq 0 (length (Inputs.choiceNodes st)
                 `min` length (Inputs.branchNodes st))).
Proof.
  unfold plainRoot. rewrite refs_rootCoord. f_equal.
  apply refs_plainContent.
Qed.

(** A node whose index has no pair is not a node of the tree. *)
Lemma plainRoot_unpaired q st i :
  ((length (Inputs.choiceNodes st) `min` length (Inputs.branchNodes st))
   ≤ i)%nat →
  (ChoiceRef i ∉ refs (plainRoot q st))
  ∧ (BranchRef i ∉ refs (plainRoot q st)).
Proof.
  intros Hi. rewrite refs_plainRoot.
  split; intros Hin; apply elem_of_cons in Hin as [Hin|Hin]; try done.
  all: apply elem_of_flat_map in Hin as (j & [_ Hj]%elem_of_seq & Hin).
  all: repeat (apply elem_of_cons in Hin as [Hin|Hin];
               [first [discriminate Hin|injection Hin as ->; cbn in Hj; lia]|]).
  all: by apply elem_of_nil in Hin.
Qed.

(** C4.  For a question of type [confirm], the choice-branch attachments that
    are composed are exactly the first [min (choices, branches)] positional
    pairs: the layout's boundary is that of the question above the row of
    those pairs, every choice that has a branch node of its index ends up
    with that branch node attached below it, and the nodes beyond the pairs
    are left where they were.  With more than one branch node the edges hold
    exactly one [Right] edge, the baseline from the first to the last branch
    node's centre line, and with one branch node they hold no [Right]
    edge. *)
Theorem questionLayouter_confirm_attachments st q :
  Inputs.questionNode st = Some q →
  Data.type (GraphNode.data q) = Some QuestionType.confirm →
  ∃ pairs layout st',
    choiceWithBranchNodes st = Normal pairs
    ∧ length pairs
      = (length (Inputs.choiceNodes st)
         `min` length (Inputs.branchNodes st))%nat
    ∧ (∀ i c b,
         Inputs.choiceNodes st !! i = Some c →
         Inputs.branchNodes st !! i = Some b →
         pairs !! i = Some (pairCoord i c b))
    ∧ questionLayouter st = (Normal layout, st')
    ∧ ((1 < length (Inputs.branchNodes st))%nat →
       ∃ q' first last,
         Inputs.questionNode st' = Some q'
         ∧ Inputs.branchNodes st' !! 0%nat = Some first
         ∧ Inputs.branchNodes st'
             !! (length (Inputs.branchNodes st) - 1)%nat = Some last
         ∧ directed EdgeDirection.Right (GraphLayout.edges layout)
           = [Edge.mk ("edge/" +:+ GraphNode.id q +:+ "/baseline")
                EdgeDirection.Right
                (centreX first)
                (bottomY q' + BranchIntervalY)
                (centreX last - centreX first)
                None])
    ∧ (length (Inputs.branchNodes st) = 1%nat →
       directed EdgeDirection.Right (GraphLayout.edges layout) = [])
    ∧ (Inputs.branchNodes st ≠ [] →
       GraphLayout.boundary layout
       = GraphCoord.boundary
           (rootCoord q
              (GraphCoord.add_height
                 (GraphCoord.row uncentredAxisX (GraphCoord.OfCoord <$> pairs)
                    BranchIntervalX false)
                 200)))
    ∧ (∀ i c b,
         Inputs.choiceNodes st !! i = Some c →
         Inputs.branchNodes st !! i = Some b →
         ∃ c' b',
           Inputs.choiceNodes st' !! i = Some c'
           ∧ Inputs.branchNodes st' !! i = Some b'
           ∧ attachedBelow c' b')
    ∧ (∀ i,
         ((length (Inputs.choiceNodes st)
           `min` length (Inputs.branchNodes st)) ≤ i)%nat →
         Inputs.choiceNodes st' !! i = Inputs.choiceNodes st !! i
         ∧ Inputs.branchNodes st' !! i = Inputs.branchNodes st !! i).
Proof.
  intros Hq Htype.
  destruct (decide (Inputs.branchNodes st = [])) as [Hnil|Hbranches].
  { exists (plainPairs st), GraphLayout.empty, st.
    split; [apply choiceWithBranchNodes_plainPairs|].
    split; [apply plainPairs_length|].
    split; [apply plainPairs_lookup|].
    split.
    { apply (questionLayouter_no_branches st q); auto. }
    rewrite Hnil. cbn. split; [lia|]. split; [done|].
    split; [done|]. split; [|done].
    intros i c b _ Hb. by rewrite lookup_nil in Hb. }
  pose proof (questionLayouterBranching_returns st q Hq Hbranches) as Hret.
  cbn zeta in Hret.
  set (root := plainRoot q st) in *.
  set (st' := GraphCoord.moveCoordTo root 0 0 st) in *.
  eexists (plainPairs st), _, st'.
  split; [apply choiceWithBranchNodes_plainPairs|].
  split; [apply plainPairs_length|].
  split; [apply plainPairs_lookup|].
  split; [by rewrite (questionLayouter_confirm st q)|].
  cbn [GraphLayout.edges GraphLayout.boundary]. split.
  { intros Hlen.
    destruct (lookup_lt_is_Some_2 (Inputs.branchNodes st') 0%nat)
      as [first Hfirst].
    { unfold st'. rewrite moveCoordTo_branches_length. lia. }
    destruct (lookup_lt_is_Some_2 (Inputs.branchNodes st')
                (length (Inputs.branchNodes st) - 1)%nat) as [last Hlast].
    { unfold st'. rewrite moveCoordTo_branches_length. lia. }
    exists (GraphCoord.place root 0 0 QuestionRef q), first, last.
    split; [by cbn; rewrite Hq|]. do 2 (split; [done|]).
    rewrite (calculateEdges_right_many _ _ _ first last).
    + by rewrite place_id.
    + unfold st'. rewrite moveCoordTo_branches_length. lia.
    + done.
    + unfold st' in *. by rewrite moveCoordTo_branches_length. }
  split.
  { intros Hlen. apply calculateEdges_right_few.
    unfold st'. rewrite moveCoordTo_branches_length. lia. }
  split; [done|]. split.
  - intros i c b Hc Hb.
    exists (GraphCoord.place root 0 0 (ChoiceRef i) c),
      (GraphCoord.place root 0 0 (BranchRef i) b).
    unfold st'. rewrite moveCoordTo_choice, moveCoordTo_branch, Hc, Hb.
    split; [done|]. split; [done|].
    by apply attachedBelow_place, pairPlaced_plainRoot.
  - intros i Hi. unfold st'.
    rewrite moveCoordTo_choice, moveCoordTo_branch.
    destruct (plainRoot_unpaired q st i Hi) as [Hchoice Hbranch].
    split.
    + destruct (Inputs.choiceNodes st !! i) as [c|]; [|done]. cbn.
      by rewrite place_not_placed.
    + destruct (Inputs.branchNodes st !! i) as [b|]; [|done]. cbn.
      by rewrite place_not_placed.
Qed.

Lemma choicesOf_nil m n j :
  choicesOf m n j = [] ↔ ∀ i, (i < n)%nat → caseOf m i ≠ j.
Proof.
  split.
  - intros Hnil i Hi Hcase.
    assert (i ∈ choicesOf m n j) as Hin by by apply elem_of_choicesOf.
    rewrite Hnil in Hin. by apply elem_of_nil in Hin.
  - intros Hnone. destruct (choicesOf m n j) as [|i l] eqn:Hof; [done|].
    assert (i ∈ choicesOf m n j) as Hin by (rewrite Hof; left).
    apply elem_of_choicesOf in Hin as [Hi Hcase]. by destruct (Hnone i).
Qed.

Lemma marked_branch st j :
  Inputs.branchNodes (marked st) !! j
  = (λ b,
       match choicesOf (buildConvergenceMap st)
               (length (Inputs.choiceNodes st)) j with
       | [] => GraphNode.set_hidden b true
       | _ => b
       end)
    <$> Inputs.branchNodes st !! j.
Proof.
  unfold marked. rewrite markHidden_branch. unfold connectionsOf.
  rewrite buildConnections_get. by destruct choicesOf.
Qed.

(** The store the convergence-aware layout leaves behind differs from the
    marked store in offsets only. *)
Lemma convergence_final_branch st q j :
  Inputs.questionNode st = Some q →
  size (buildConvergenceMap st) ≠ 0%nat →
  ∃ f : GraphNode.t → GraphNode.t,
    (∀ n, GraphNode.hidden (f n) = GraphNode.hidden n)
    ∧ Inputs.branchNodes (questionLayouterBranchingWithConvergence st).2 !! j
      = f <$> Inputs.branchNodes (marked st) !! j.
Proof.
  intros Hq Hsize. rewrite (convergence_unfold st q) by done.
  destruct (convergenceCoord _ _) as [root|e]; cbn [snd].
  - exists (GraphCoord.place root 0 0 (BranchRef j)).
    split; [intros n; apply place_hidden|].
    apply moveCoordTo_branch.
  - exists id. split; [done|]. by rewrite option_fmap_id.
Qed.

(** C2.  For a question of type [choice] with a non-empty convergence map:
    after the layout every branch node no choice leads to is hidden, and
    every branch node some choice leads to has its [hidden] flag as before.
    When every choice leads to a case with a branch node the layout returns,
    and each branch node some choice leads to is a node of the composed
    tree, which gives it its offset. *)
Theorem convergence_hidden_branches st q :
  Inputs.questionNode st = Some q →
  Data.type (GraphNode.data q) = Some QuestionType.choice →
  size (buildConvergenceMap st) ≠ 0%nat →
  let convergenceMap := buildConvergenceMap st in
  let nChoices := length (Inputs.choiceNodes st) in
  let st' := (questionLayouter st).2 in
  (∀ j b,
     Inputs.branchNodes st !! j = Some b →
     ∃ b',
       Inputs.branchNodes st' !! j = Some b'
       ∧ ((∀ i, (i < nChoices)%nat → caseOf convergenceMap i ≠ j) →
          GraphNode.hidden b' = true)
       ∧ ((∃ i, (i < nChoices)%nat ∧ caseOf convergenceMap i = j) →
          GraphNode.hidden b' = GraphNode.hidden b))
  ∧ (casesInRange st →
     ∃ layout root,
       (questionLayouter st).1 = Normal layout
       ∧ convergenceCoord (marked st) (reachable (connectionsOf st))
         = Normal root
       ∧ GraphLayout.boundary layout = GraphCoord.boundary root
       ∧ ∀ j b,
           Inputs.branchNodes st !! j = Some b →
           (∃ i, (i < nChoices)%nat ∧ caseOf convergenceMap i = j) →
           ∃ p,
             GraphCoord.lookup_placed (BranchRef j) (GraphCoord.placed root)
             = Some p
             ∧ Inputs.branchNodes st' !! j
               = Some (GraphNode.set_offset b (CoordPoint.shift 0 0 p))).
Proof.
  intros Hq Htype Hsize. cbn zeta. split.
  - intros j b Hb. rewrite (questionLayouter_choice st q) by done.
    destruct (convergence_final_branch st q j Hq Hsize) as (f & Hf & ->).
    rewrite marked_branch, Hb. cbn. eexists. split; [done|].
    rewrite Hf. split.
    + intros Hnone%choicesOf_nil. by rewrite Hnone.
    + intros (i & Hi & Hcase).
      destruct (choicesOf _ _ j) eqn:Hof; [|done].
      rewrite choicesOf_nil in Hof. by destruct (Hof i).
  - intros Hrange.
    pose proof (questionLayouter_converging_returns st q Hq Htype Hsize Hrange)
      as Hret.
    cbn zeta in Hret. rewrite Hret. cbn [fst snd].
    set (reachableConnections := reachable (connectionsOf st)) in *.
    set (root := rootCoord q _) in *.
    eexists _, root. split; [done|].
    split.
    { apply convergenceCoord_rootCoord; [done|].
      by apply casesInRange_connections. }
    split; [done|].
    intros j b Hb (i & Hi & Hcase).
    assert (BranchRef j ∈ refs root) as Hplaced.
    { unfold root. rewrite refs_rootCoord, refs_convergenceContent.
      right. apply elem_of_flat_map.
      exists (j, choicesOf (buildConvergenceMap st)
                   (length (Inputs.choiceNodes st)) j).
      split.
      - apply elem_of_reachable. split; [done|].
        intros Hnil. rewrite choicesOf_nil in Hnil. by destruct (Hnil i).
      - cbn. apply elem_of_app. right. left. }
    destruct (place_placed root 0 0 (BranchRef j) b Hplaced)
      as (p & Hp & Hplace).
    exists p. split; [done|].
    rewrite moveCoordTo_branch, marked_branch, Hb. cbn.
    destruct (choicesOf _ _ j) eqn:Hof.
    + rewrite choicesOf_nil in Hof. by destruct (Hof i).
    + by rewrite Hplace.
Qed.

(** ** Heights *)



(** ** Where the choices stand *)

Lemma choicesAt_nil v : choicesAt v [].
Proof. by intros i p ?%elem_of_nil. Qed.

Lemma choicesAt_app v l1 l2 :
  choicesAt v l1 → choicesAt v l2 → choicesAt v (l1 ++ l2).
Proof. intros H1 H2 i p [?|?]%elem_of_app; eauto. Qed.

Lemma choicesAt_translate v v' dx dy c :
  choicesAt v (GraphCoord.placed c) → dy + v == v' →
  choicesAt v' (GraphCoord.translate dx dy c).
Proof.
  intros Hc Hv i p ([r p'] & [= <- ->] & Hin)%list_elem_of_fmap.
  cbn in *. rewrite (Hc i p' Hin). exact Hv.
Qed.

Lemma choicesAt_row_placed v x interval items :
  (∀ e, e ∈ items → choicesAt v (GraphCoord.placed (GraphCoord.of_element e))) →
  choicesAt v (GraphCoord.row_placed x interval items).
Proof.
  revert x. induction items as [|e items IH]; intros x Hitems; cbn.
  - apply choicesAt_nil.
  - apply choicesAt_app.
    + apply (choicesAt_translate v); [apply Hitems; left|lra].
    + apply IH. intros e' He'. apply Hitems. by right.
Qed.

Lemma choicesAt_choiceRow st choiceIndices :
  choicesAt 0 (GraphCoord.placed (choiceRow st choiceIndices)).
Proof.
  apply choicesAt_row_placed.
  intros e (i & -> & _)%list_elem_of_fmap. cbn.
  intros i' p [= _ ->]%list_elem_of_singleton. done.
Qed.

Lemma choicesAt_groupCoord st connection :
  choicesAt 0 (GraphCoord.placed (groupCoord st connection)).
Proof.
  unfold groupCoord. cbn [GraphCoord.compose GraphCoord.placed].
  apply choicesAt_app.
  - apply (choicesAt_translate 0); [apply choicesAt_choiceRow|lra].
  - cbn. intros i p Hin. by apply list_elem_of_singleton in Hin.
Qed.

Lemma choicesAt_convergenceContent st reachableConnections :
  choicesAt 0
    (GraphCoord.placed (convergenceContent st reachableConnections)).
Proof.
  apply choicesAt_row_placed.
  intros e (c & -> & (connection & -> & _)%list_elem_of_fmap)%list_elem_of_fmap.
  apply choicesAt_groupCoord.
Qed.

Lemma choicesAt_rootCoord q content :
  choicesAt 0 (GraphCoord.placed content) →
  choicesAt (Boundary.height (GraphNode.boundary q) + BranchIntervalY * 2)
    (GraphCoord.placed (rootCoord q content)).
Proof.
  intros Hcontent. unfold rootCoord.
  cbn [GraphCoord.compose GraphCoord.placed]. apply choicesAt_app.
  - cbn. intros i p Hin. by apply list_elem_of_singleton in Hin.
  - cbn [flat_map]. rewrite app_nil_r.
    apply (choicesAt_translate 0); [done|]. cbn. lra.
Qed.

(** The question stands at the top of the tree it is the primary of. *)
Lemma rootCoord_question q content :
  ∃ p, GraphCoord.lookup_placed QuestionRef
         (GraphCoord.placed (rootCoord q content)) = Some p
       ∧ CoordPoint.y p == 0.
Proof.
  unfold rootCoord. cbn [GraphCoord.compose GraphCoord.placed].
  cbn. eexists. split; [done|]. cbn. lra.
Qed.

Lemma place_question_bottom q content :
  bottomY (GraphCoord.place (rootCoord q content) 0 0 QuestionRef q)
  == Boundary.height (GraphNode.boundary q).
Proof.
  destruct (rootCoord_question q content) as (p & Hp & Hy).
  unfold GraphCoord.place, bottomY. rewrite Hp. cbn. rewrite Hy. lra.
Qed.

(** Both layouts start the edge under the question on the same line: the
    centre line of the composed boundary is where the question's centre line
    ends up. *)
Lemma place_question_centre q content :
  centreX (GraphCoord.place (rootCoord q content) 0 0 QuestionRef q)
  == Boundary.axisX (GraphCoord.boundary (rootCoord q content)).
Proof.
  unfold rootCoord, GraphCoord.place, centreX.
  cbn [GraphCoord.compose GraphCoord.placed GraphCoord.boundary].
  cbn. rewrite decide_True by done. cbn. lra.
Qed.

Lemma place_choice_top q content i c :
  choicesAt 0 (GraphCoord.placed content) →
  ChoiceRef i ∈ refs content →
  CoordPoint.y
    (GraphNode.offset (GraphCoord.place (rootCoord q content) 0 0
                         (ChoiceRef i) c))
  == Boundary.height (GraphNode.boundary q) + BranchIntervalY * 2.
Proof.
  intros Hcontent Hin.
  destruct (place_placed (rootCoord q content) 0 0 (ChoiceRef i) c)
    as (p & Hp & ->).
  { rewrite refs_rootCoord. by right. }
  apply lookup_placed_elem in Hp.
  apply (choicesAt_rootCoord q content Hcontent) in Hp.
  cbn. rewrite Hp. lra.
Qed.

(** ** Membership and counts in the convergence-aware edge list *)

Lemma directed_flat_map {A : Type} d (f : A → list Edge.t) (l : list A) :
  directed d (flat_map f l) = flat_map (λ a, directed d (f a)) l.
Proof.
  induction l as [|a l IH]; [done|]. cbn [flat_map].
  by rewrite directed_app, IH.
Qed.

Lemma flat_map_nil {A B : Type} (f : A → list B) (l : list A) :
  (∀ a, f a = []) → flat_map f l = [].
Proof. intros Hf. induction l as [|a l IH]; [done|]. cbn. by rewrite Hf. Qed.

Lemma length_flat_map_filter {A B : Type} (P : A → Prop)
    `{!∀ a, Decision (P a)} (f : A → list B) (l : list A) :
  (∀ a, length (f a) = if decide (P a) then 1%nat else 0%nat) →
  length (flat_map f l) = length (filter P l).
Proof.
  intros Hf. induction l as [|a l IH]; [done|].
  cbn [flat_map]. rewrite length_app, Hf, IH.
  destruct (decide (P a)).
  - by rewrite filter_cons_True.
  - by rewrite filter_cons_False.
Qed.

Lemma directed_choiceEdges d baseline c n :
  d ≠ EdgeDirection.Down →
  directed d (choiceEdges baseline c n) = [].
Proof.
  intros Hd. unfold directed, choiceEdges.
  by rewrite !filter_cons_False by (cbn; congruence).
Qed.

Lemma directed_groupEdgeList_up st baseline connection :
  length (directed EdgeDirection.Up (groupEdgeList st baseline connection))
  = if decide (converged connection) then 1%nat else 0%nat.
Proof.
  unfold groupEdgeList, converged.
  rewrite directed_app, directed_flat_map, flat_map_nil; last first.
  { intros i. by apply directed_choiceEdges. }
  destruct (decide (1 < length connection.2)%nat) as [Hlen|Hlen].
  - rewrite bool_decide_eq_true_2 by done. unfold mergeEdges, directed.
    rewrite filter_cons_True by done. by rewrite filter_cons_False.
  - by rewrite bool_decide_eq_false_2.
Qed.

Lemma directed_groupEdgeList_right st baseline connection :
  length (directed EdgeDirection.Right (groupEdgeList st baseline connection))
  = if decide (converged connection) then 1%nat else 0%nat.
Proof.
  unfold groupEdgeList, converged.
  rewrite directed_app, directed_flat_map, flat_map_nil; last first.
  { intros i. by apply directed_choiceEdges. }
  destruct (decide (1 < length connection.2)%nat) as [Hlen|Hlen].
  - rewrite bool_decide_eq_true_2 by done. unfold mergeEdges, directed.
    rewrite filter_cons_False by done. by rewrite filter_cons_True.
  - by rewrite bool_decide_eq_false_2.
Qed.

Lemma convergenceEdgeList_up st q reachableConnections :
  length (directed EdgeDirection.Up
            (convergenceEdgeList st q reachableConnections))
  = length (filter converged reachableConnections).
Proof.
  unfold convergenceEdgeList. rewrite directed_app, length_app.
  unfold questionEdges. unfold directed at 1.
  rewrite !filter_cons_False by done. rewrite filter_nil.
  rewrite directed_flat_map. cbn [length plus].
  apply (length_flat_map_filter converged).
  intros c. apply directed_groupEdgeList_up.
Qed.

Lemma convergenceEdgeList_right st q reachableConnections :
  length (directed EdgeDirection.Right
            (convergenceEdgeList st q reachableConnections))
  = S (length (filter converged reachableConnections)).
Proof.
  unfold convergenceEdgeList. rewrite directed_app, length_app.
  unfold questionEdges. unfold directed at 1.
  rewrite filter_cons_False by done. rewrite filter_cons_True by done.
  rewrite filter_nil, directed_flat_map. cbn [length plus]. f_equal.
  apply (length_flat_map_filter converged).
  intros c. apply directed_groupEdgeList_right.
Qed.

Lemma choiceEdges_in_list st q reachableConnections j choiceIndices i e :
  (j, choiceIndices) ∈ reachableConnections →
  i ∈ choiceIndices →
  e ∈ choiceEdges (bottomY q + BranchIntervalY)
        (bool_decide (1 < length choiceIndices)%nat)
        (Inputs.choiceNodes st !!! i) →
  e ∈ convergenceEdgeList st q reachableConnections.
Proof.
  intros Hgroup Hi He. unfold convergenceEdgeList.
  apply elem_of_app. right. apply elem_of_flat_map.
  exists (j, choiceIndices). split; [done|].
  unfold groupEdgeList. cbn [fst snd]. apply elem_of_app. left.
  apply elem_of_flat_map. eauto.
Qed.

Lemma mergeEdges_in_list st q reachableConnections j choiceIndices e :
  (j, choiceIndices) ∈ reachableConnections →
  (1 < length choiceIndices)%nat →
  e ∈ mergeEdges (Inputs.branchNodes st !!! j)
        (Inputs.choiceNodes st !!! (choiceIndices !!! 0%nat))
        (Inputs.choiceNodes st
           !!! (choiceIndices !!! (length choiceIndices - 1)%nat)) →
  e ∈ convergenceEdgeList st q reachableConnections.
Proof.
  intros Hgroup Hlen He. unfold convergenceEdgeList.
  apply elem_of_app. right. apply elem_of_flat_map.
  exists (j, choiceIndices). split; [done|].
  unfold groupEdgeList. cbn [fst snd]. apply elem_of_app. right.
  by rewrite bool_decide_eq_true_2.
Qed.

(** Every choice is in exactly one group: the groups hold as many choice
    indices as there are choices. *)
Lemma array_set_members (i : nat) (v : Connection)
    (l : list (option Connection)) :
  (length (flat_map snd (omap id (array_set i v l)))
   + length (default [] (snd <$> array_get l i)))%nat
  = (length (flat_map snd (omap id l)) + length v.2)%nat.
Proof.
  revert l. induction i as [|i IH]; intros [|a l].
  - cbn. rewrite app_nil_r. lia.
  - destruct a as [c|]; cbn; rewrite ?length_app; lia.
  - specialize (IH []).
    assert (array_get (A:=Connection) [] i = None) as Hnil by by destruct i.
    rewrite Hnil in IH. cbn in *. lia.
  - specialize (IH l).
    change (array_get (a :: l) (S i)) with (array_get l i).
    destruct a as [c|]; cbn [array_set omap list_omap id flat_map];
      rewrite ?length_app; cbn in *; lia.
Qed.

Lemma buildConnections_members m n :
  length (flat_map snd (reachable (buildConnections m n))) = n.
Proof.
  unfold reachable. induction n as [|n IH]; [done|].
  rewrite buildConnections_S. unfold connectStep.
  set (iCase := caseOf m n).
  destruct (array_get (buildConnections m n) iCase) as [[c l]|] eqn:Hget.
  - pose proof (array_set_members iCase (c, l ++ [n]) (buildConnections m n))
      as Hset.
    rewrite Hget in Hset. cbn in Hset. rewrite length_app in Hset.
    cbn in Hset. unfold Connection in *. lia.
  - pose proof (array_set_members iCase (iCase, [n]) (buildConnections m n))
      as Hset.
    rewrite Hget in Hset. cbn in Hset. unfold Connection in *. lia.
Qed.

Lemma length_flat_map_twice {A B C : Type} (f : A → list B) (g : A → list C)
    (l : list A) :
  (∀ a, length (f a) = 2 * length (g a))%nat →
  (length (flat_map f l) = 2 * length (flat_map g l))%nat.
Proof.
  intros Hf. induction l as [|a l IH]; [done|].
  cbn [flat_map]. rewrite !length_app, Hf, IH. lia.
Qed.

Lemma directed_groupEdgeList_down st baseline connection :
  (length (directed EdgeDirection.Down (groupEdgeList st baseline connection))
   = 2 * length connection.2)%nat.
Proof.
  unfold groupEdgeList.
  rewrite directed_app, length_app, directed_flat_map.
  assert (directed EdgeDirection.Down
            (if bool_decide (1 < length connection.2)%nat
             then
               mergeEdges (Inputs.branchNodes st !!! connection.1)
                 (Inputs.choiceNodes st !!! (connection.2 !!! 0%nat))
                 (Inputs.choiceNodes st
                    !!! (connection.2 !!! (length connection.2 - 1)%nat))
             else []) = []) as ->.
  { destruct (bool_decide _); [|done].
    unfold mergeEdges, directed. by rewrite !filter_cons_False. }
  cbn [length]. rewrite Nat.add_0_r.
  rewrite (length_flat_map_twice _ (λ i, [i])).
  - by rewrite flat_map_singleton, list_fmap_id.
  - intros i. unfold choiceEdges, directed.
    by rewrite !filter_cons_True.
Qed.

Lemma convergenceEdgeList_down st q m n :
  length (directed EdgeDirection.Down
            (convergenceEdgeList st q (reachable (buildConnections m n))))
  = S (2 * n).
Proof.
  unfold convergenceEdgeList. rewrite directed_app, length_app.
  unfold questionEdges. unfold directed at 1.
  rewrite filter_cons_True by done. rewrite filter_cons_False by done.
  rewrite filter_nil, directed_flat_map. cbn [length plus]. f_equal.
  rewrite (length_flat_map_twice _ (λ c : Connection, c.2)).
  - f_equal. apply buildConnections_members.
  - intros c. apply directed_groupEdgeList_down.
Qed.

(** C5.  In the convergence-aware layout (every case having its branch node)
    each choice gets a [Down] edge that starts on the baseline under the
    question, above the choice's centre line, and is one branch interval
    long, which is where the choice's top is; and a [Down] edge from its
    bottom centre that is half the element gap long when the choice's group
    has more than one choice and the full element gap otherwise.  Each group
    with more than one choice gets an [Up] edge of one branch interval from
    its branch's top centre and a [Right] edge, half an element gap under the
    bottom of the group's first choice, from the centre line of the first to
    that of the last choice of the group; there are as many [Up] edges as
    such groups, one [Right] edge more (the baseline), and two [Down] edges
    for every choice besides the one under the question. *)
Theorem convergence_edges st q :
  Inputs.questionNode st = Some q →
  Data.type (GraphNode.data q) = Some QuestionType.choice →
  size (buildConvergenceMap st) ≠ 0%nat →
  casesInRange st →
  let convergenceMap := buildConvergenceMap st in
  let nChoices := length (Inputs.choiceNodes st) in
  ∃ layout st' q',
    questionLayouter st = (Normal layout, st')
    ∧ Inputs.questionNode st' = Some q'
    ∧ (∀ i choice,
         Inputs.choiceNodes st' !! i = Some choice →
         let group := choicesOf convergenceMap nChoices
                        (caseOf convergenceMap i) in
         Edge.mk ("edge/" +:+ GraphNode.id choice +:+ "/baseline->choice")
           EdgeDirection.Down (centreX choice)
           (bottomY q' + BranchIntervalY) BranchIntervalY None
         ∈ GraphLayout.edges layout
         ∧ CoordPoint.y (GraphNode.offset choice)
           == bottomY q' + BranchIntervalY + BranchIntervalY
         ∧ Edge.mk
             ("edge/" +:+ GraphNode.id choice +:+ "/choice->mid-baseline")
             EdgeDirection.Down (centreX choice) (bottomY choice)
             (if bool_decide (1 < length group)%nat
              then CoordPoint.y ElementInterval / 2
              else CoordPoint.y ElementInterval)
             None
           ∈ GraphLayout.edges layout)
    ∧ (∀ j,
         let group := choicesOf convergenceMap nChoices j in
         (1 < length group)%nat →
         ∃ branch cFirst cLast,
           Inputs.branchNodes st' !! j = Some branch
           ∧ head group ≫= (Inputs.choiceNodes st' !!.) = Some cFirst
           ∧ last group ≫= (Inputs.choiceNodes st' !!.) = Some cLast
           ∧ Edge.mk
               ("edge/" +:+ GraphNode.id branch +:+ "/mid-baseline->case")
               EdgeDirection.Up (centreX branch)
               (CoordPoint.y (GraphNode.offset branch)) BranchIntervalY None
             ∈ GraphLayout.edges layout
           ∧ Edge.mk
               ("edge/" +:+ GraphNode.id branch +:+ "/converged/mid-baseline")
               EdgeDirection.Right (centreX cFirst)
               (bottomY cFirst + CoordPoint.y ElementInterval / 2)
               (centreX cLast - centreX cFirst) None
             ∈ GraphLayout.edges layout)
    ∧ length (directed EdgeDirection.Up (GraphLayout.edges layout))
      = length (filter converged (reachable (connectionsOf st)))
    ∧ length (directed EdgeDirection.Right (GraphLayout.edges layout))
      = S (length (filter converged (reachable (connectionsOf st))))
    ∧ length (directed EdgeDirection.Down (GraphLayout.edges layout))
      = S (2 * nChoices).
Proof.
  intros Hq Htype Hsize Hrange. cbn zeta.
  pose proof (questionLayouter_converging_returns st q Hq Htype Hsize Hrange)
    as Hret.
  cbn zeta in Hret.
  pose proof (casesInRange_connections st Hrange) as Hconn.
  rewrite Forall_forall in Hconn.
  set (reachableConnections := reachable (connectionsOf st)) in *.
  set (content := convergenceContent (marked st) reachableConnections) in *.
  set (root := rootCoord q content) in *.
  set (st' := GraphCoord.moveCoordTo root 0 0 (marked st)) in *.
  set (q' := GraphCoord.place root 0 0 QuestionRef q) in *.
  set (m := buildConvergenceMap st) in *.
  set (n := length (Inputs.choiceNodes st)) in *.
  assert (length (Inputs.choiceNodes st') = n) as Hn.
  { unfold st'. by rewrite moveCoordTo_choices_length. }
  assert (∀ j, choicesOf m n j ≠ [] →
               (j, choicesOf m n j) ∈ reachableConnections) as Hgroup.
  { intros j Hne. by apply elem_of_reachable. }
  eexists _, st', q'. split; [exact Hret|].
  split; [by cbn; rewrite Hq|].
  cbn [GraphLayout.edges]. split; [|split; [|split; [|split]]].
  - intros i choice Hchoice.
    assert (i < n)%nat as Hi by (rewrite <-Hn; by eapply lookup_lt_Some).
    set (j := caseOf m i).
    assert (i ∈ choicesOf m n j) as Hin by by apply elem_of_choicesOf.
    assert (choicesOf m n j ≠ []) as Hne.
    { intros Hnil. rewrite Hnil in Hin. by apply elem_of_nil in Hin. }
    pose proof (list_lookup_total_correct _ _ _ Hchoice) as Htotal.
    split; [|split].
    + apply (choiceEdges_in_list st' q' _ j (choicesOf m n j) i);
        [by apply Hgroup|done|].
      rewrite Htotal. left.
    + unfold st' in Hchoice. rewrite moveCoordTo_choice in Hchoice.
      destruct (Inputs.choiceNodes (marked st) !! i) as [c|]; [|done].
      cbn in Hchoice. injection Hchoice as <-.
      pose proof (place_question_bottom q content) as Hbottom.
      fold root in Hbottom. fold q' in Hbottom.
      assert (ChoiceRef i ∈ refs content) as Hplaced.
      { unfold content. rewrite refs_convergenceContent.
        apply elem_of_flat_map. exists (j, choicesOf m n j).
        split; [by apply Hgroup|]. cbn. apply elem_of_app. left.
        by apply list_elem_of_fmap_2. }
      pose proof (place_choice_top q content i c
                    (choicesAt_convergenceContent _ _) Hplaced) as Htop.
      fold root in Htop. lra.
    + apply (choiceEdges_in_list st' q' _ j (choicesOf m n j) i);
        [by apply Hgroup|done|].
      rewrite Htotal. right. left.
  - intros j Hlen.
    assert (choicesOf m n j ≠ []) as Hne.
    { intros Hnil. rewrite Hnil in Hlen. cbn in Hlen. lia. }
    pose proof (Hconn _ (Hgroup j Hne)) as [Hj Hchoices].
    cbn [fst snd] in Hj, Hchoices. rewrite Forall_forall in Hchoices.
    assert (∀ k, (k < length (choicesOf m n j))%nat →
                 choicesOf m n j !! k ≫= (Inputs.choiceNodes st' !!.)
                 = Some (Inputs.choiceNodes st'
                           !!! (choicesOf m n j !!! k))) as Hnth.
    { intros k Hk.
      rewrite (list_lookup_lookup_total_lt (choicesOf m n j) k) by done.
      cbn [mbind option_bind]. apply list_lookup_lookup_total_lt.
      rewrite Hn. apply Hchoices. by apply list_elem_of_lookup_total_2. }
    exists (Inputs.branchNodes st' !!! j),
      (Inputs.choiceNodes st' !!! (choicesOf m n j !!! 0%nat)),
      (Inputs.choiceNodes st'
         !!! (choicesOf m n j !!! (length (choicesOf m n j) - 1)%nat)).
    split; [|split; [|split; [|split]]].
    + apply list_lookup_lookup_total_lt. unfold st'.
      by rewrite moveCoordTo_branches_length.
    + rewrite head_lookup. apply Hnth. lia.
    + rewrite last_lookup.
      replace (pred (length (choicesOf m n j)))
        with (length (choicesOf m n j) - 1)%nat by lia.
      apply Hnth. lia.
    + apply (mergeEdges_in_list st' q' _ j (choicesOf m n j));
        [by apply Hgroup|done|]. left.
    + apply (mergeEdges_in_list st' q' _ j (choicesOf m n j));
        [by apply Hgroup|done|]. right. left.
  - apply convergenceEdgeList_up.
  - apply convergenceEdgeList_right.
  - apply convergenceEdgeList_down.
Qed.

(** ** Stores of the same shape *)

Lemma sameShape_trans n1 n2 n3 :
  sameShape n1 n2 → sameShape n2 n3 → sameShape n1 n3.
Proof. intros (? & ? & ?) (? & ? & ?). repeat split; congruence. Qed.

Lemma sameShape_place c x y r n : sameShape n (GraphCoord.place c x y r n).
Proof.
  repeat split; [by rewrite place_id|by rewrite place_boundary|
                 by rewrite place_data].
Qed.

Lemma related_refl R st : (∀ n, R n n) → related R st st.
Proof.
  intros HR. repeat split.
  - destruct (Inputs.questionNode st); by constructor.
  - apply Forall_Forall2_diag, Forall_forall. auto.
  - apply Forall_Forall2_diag, Forall_forall. auto.
Qed.

Lemma related_trans R st1 st2 st3 :
  (∀ n1 n2 n3, R n1 n2 → R n2 n3 → R n1 n3) →
  related R st1 st2 → related R st2 st3 → related R st1 st3.
Proof.
  intros HR (Hq & Hc & Hb) (Hq' & Hc' & Hb'). repeat split.
  - destruct Hq; inversion Hq'; constructor; eauto.
  - eapply Forall2_trans; eauto.
  - eapply Forall2_trans; eauto.
Qed.

Lemma related_get R st st' r :
  related R st st' → option_Forall2 R (Inputs.get st r) (Inputs.get st' r).
Proof.
  intros (Hq & Hc & Hb).
  destruct r; cbn; [done|by apply Forall2_lookup..].
Qed.

Lemma related_choices_length R st st' :
  related R st st' →
  length (Inputs.choiceNodes st') = length (Inputs.choiceNodes st).
Proof. intros (_ & Hc & _). symmetry. by eapply Forall2_length. Qed.

Lemma related_branches_length R st st' :
  related R st st' →
  length (Inputs.branchNodes st') = length (Inputs.branchNodes st).
Proof. intros (_ & _ & Hb). symmetry. by eapply Forall2_length. Qed.

Lemma Forall2_imap_r {A : Type} (R : A → A → Prop) (f : nat → A → A)
    (l : list A) :
  (∀ i a, R a (f i a)) → Forall2 R l (imap f l).
Proof.
  intros Hf. revert f Hf. induction l as [|a l IH]; intros f Hf; cbn.
  - constructor.
  - constructor; [apply Hf|]. apply IH. intros i. apply Hf.
Qed.

Lemma sameShape_moveCoordTo c x y st :
  related sameShape st (GraphCoord.moveCoordTo c x y st).
Proof.
  repeat split; cbn.
  - destruct (Inputs.questionNode st); constructor. apply sameShape_place.
  - apply Forall2_imap_r. intros i n. apply sameShape_place.
  - apply Forall2_imap_r. intros i n. apply sameShape_place.
Qed.

Lemma sameShape_markHidden connections st :
  related sameShape st (markHidden connections st).
Proof.
  repeat split; cbn.
  - destruct (Inputs.questionNode st); by constructor.
  - by apply related_refl.
  - apply Forall2_imap_r. intros i n. by destruct array_get.
Qed.

(** The composition reads the boundaries, and which slots hold a node. *)
Lemma element_ext st st' r :
  related sameShape st st' → element st r = element st' r.
Proof.
  intros Hrel. unfold element.
  destruct (related_get sameShape st st' r Hrel) as [n n' (_ & Hb & _)|];
    [|done].
  cbn. unfold GraphCoord.node. by rewrite Hb.
Qed.

Lemma mapM_ext {A B : Type} (f g : A → Completion B) (l : list A) :
  (∀ a, a ∈ l → f a = g a) → mapM f l = mapM g l.
Proof.
  induction l as [|a l IH]; intros Hfg; [done|].
  cbn. rewrite (Hfg a) by left.
  rewrite IH; [done|]. intros b Hb. apply Hfg. by right.
Qed.

Lemma branchingCoord_ext st st' :
  related sameShape st st' → branchingCoord st = branchingCoord st'.
Proof.
  intros Hrel. unfold branchingCoord, branchingContentCoord,
    choiceWithBranchNodes.
  rewrite (related_choices_length _ _ _ Hrel),
    (related_branches_length _ _ _ Hrel), (element_ext st st') by done.
  f_equal. f_equal.
  apply mapM_ext. intros i _. by rewrite !(element_ext st st').
Qed.

Lemma convergenceCoord_ext st st' reachableConnections :
  related sameShape st st' →
  convergenceCoord st reachableConnections
  = convergenceCoord st' reachableConnections.
Proof.
  intros Hrel. unfold convergenceCoord, convergenceContentCoord.
  rewrite (element_ext st st') by done.
  f_equal. f_equal.
  apply mapM_ext. intros [caseIdx choiceIndices] _. unfold branchCoord.
  rewrite (element_ext st st') by done. f_equal. f_equal.
  apply list_fmap_ext. intros _ i _. by apply element_ext.
Qed.

(** The convergence map reads the [data] of the choices and branches. *)
Lemma findIndex_data (p : Data.t → bool) (l l' : list GraphNode.t) :
  Forall2 sameShape l l' →
  findIndex (λ n, p (GraphNode.data n)) l
  = findIndex (λ n, p (GraphNode.data n)) l'.
Proof.
  unfold findIndex. induction 1 as [|n n' l l' (_ & _ & Hdata) _ IH]; [done|].
  cbn. rewrite <-Hdata. case_decide; [done|].
  destruct (list_find _ l) as [[i a]|], (list_find _ l') as [[i' a']|];
    cbn in *; congruence.
Qed.

Lemma convergenceLoop_ext branchNodes branchNodes' choiceNodes choiceNodes'
    m i :
  Forall2 sameShape branchNodes branchNodes' →
  Forall2 sameShape choiceNodes choiceNodes' →
  convergenceLoop branchNodes m i choiceNodes
  = convergenceLoop branchNodes' m i choiceNodes'.
Proof.
  intros Hb Hc. revert m i.
  induction Hc as [|c c' l l' (_ & _ & Hdata) _ IH]; intros m i; [done|].
  cbn. rewrite <-IH. f_equal. unfold convergenceStep. rewrite <-Hdata.
  pose proof (findIndex_data
                (λ d, bool_decide
                        (Data.choiceId d
                         = Data.gotoChoice (GraphNode.data c)))
                branchNodes branchNodes' Hb) as Hfind.
  cbv beta in Hfind. by rewrite Hfind.
Qed.

Lemma buildConvergenceMap_ext st st' :
  related sameShape st st' →
  buildConvergenceMap st = buildConvergenceMap st'.
Proof. intros (_ & Hc & Hb). by apply convergenceLoop_ext. Qed.

Lemma connectionsOf_ext st st' :
  related sameShape st st' → connectionsOf st = connectionsOf st'.
Proof.
  intros Hrel. unfold connectionsOf.
  by rewrite (buildConvergenceMap_ext st st'),
    (related_choices_length _ _ _ Hrel).
Qed.

(** ** Writing the same thing twice *)

Lemma imap_imap {A : Type} (f g : nat → A → A) (l : list A) :
  imap f (imap g l) = imap (λ i a, f i (g i a)) l.
Proof.
  apply list_eq. intros i. rewrite !list_lookup_imap.
  by destruct (l !! i).
Qed.

Lemma place_place c x y r n :
  GraphCoord.place c x y r (GraphCoord.place c x y r n)
  = GraphCoord.place c x y r n.
Proof. unfold GraphCoord.place. by destruct GraphCoord.lookup_placed. Qed.

Lemma moveCoordTo_twice c x y st :
  GraphCoord.moveCoordTo c x y (GraphCoord.moveCoordTo c x y st)
  = GraphCoord.moveCoordTo c x y st.
Proof.
  unfold GraphCoord.moveCoordTo. cbn. f_equal.
  - destruct (Inputs.questionNode st); cbn; [|done]. by rewrite place_place.
  - rewrite imap_imap. apply imap_ext. intros i n _. apply place_place.
  - rewrite imap_imap. apply imap_ext. intros i n _. apply place_place.
Qed.

Lemma markHidden_twice connections st :
  markHidden connections (markHidden connections st)
  = markHidden connections st.
Proof.
  unfold markHidden. cbn. f_equal.
  rewrite imap_imap. apply imap_ext. intros i n _. by destruct array_get.
Qed.

Lemma markHidden_moveCoordTo connections c x y st :
  markHidden connections (GraphCoord.moveCoordTo c x y st)
  = GraphCoord.moveCoordTo c x y (markHidden connections st).
Proof.
  unfold markHidden, GraphCoord.moveCoordTo. cbn. f_equal.
  rewrite !imap_imap. apply imap_ext. intros i n _.
  destruct array_get; [done|].
  unfold GraphCoord.place. by destruct GraphCoord.lookup_placed.
Qed.

(** ** The store a layout leaves behind has the shape of the one it got *)

Lemma plain_final_shape st :
  related sameShape st (questionLayouterBranching st).2.
Proof.
  unfold questionLayouterBranching.
  destruct (Inputs.questionNode st); [|by apply related_refl].
  case_decide; [by apply related_refl|].
  destruct (branchingCoord st); [|by apply related_refl].
  apply sameShape_moveCoordTo.
Qed.

Lemma convergence_final_shape st :
  related sameShape st (questionLayouterBranchingWithConvergence st).2.
Proof.
  unfold questionLayouterBranchingWithConvergence.
  destruct (Inputs.questionNode st); [|by apply related_refl].
  case_decide; [by apply related_refl|]. cbn zeta.
  case_decide; [apply plain_final_shape|].
  destruct (convergenceCoord _ _); cbn [snd].
  - eapply (related_trans sameShape); [apply sameShape_trans| |].
    + apply sameShape_markHidden.
    + apply sameShape_moveCoordTo.
  - apply sameShape_markHidden.
Qed.

Lemma final_shape st : related sameShape st (questionLayouter st).2.
Proof.
  unfold questionLayouter.
  destruct (Inputs.questionNode st); [|by apply related_refl]. cbn zeta.
  case_decide; [apply convergence_final_shape|].
  case_decide; [apply plain_final_shape|by apply related_refl].
Qed.

Lemma related_question_type st st' q :
  related sameShape st st' →
  Inputs.questionNode st = Some q →
  ∃ q', Inputs.questionNode st' = Some q'
        ∧ Data.type (GraphNode.data q') = Data.type (GraphNode.data q).
Proof.
  intros (Hq & _ & _) Hsome. rewrite Hsome in Hq.
  inversion Hq as [? q' (_ & _ & Hdata)|]; subst.
  exists q'. by rewrite Hdata.
Qed.

(** ** Running a layout again *)

Lemma Normal_inj {A : Type} (a b : A) : Normal a = Normal b → a = b.
Proof. by intros [= ->]. Qed.

Lemma plain_idempotent st :
  questionLayouterBranching (questionLayouterBranching st).2
  = questionLayouterBranching st.
Proof.
  destruct (Inputs.questionNode st) as [q|] eqn:Hq; last first.
  { unfold questionLayouterBranching at 2. rewrite Hq. done. }
  destruct (decide (Inputs.branchNodes st = [])) as [Hnil|Hbranches].
  { unfold questionLayouterBranching at 2. rewrite Hq, Hnil. done. }
  rewrite (questionLayouterBranching_returns st q) by done. cbn [snd].
  set (root := plainRoot q st).
  set (st' := GraphCoord.moveCoordTo root 0 0 st).
  set (q' := GraphCoord.place root 0 0 QuestionRef q).
  assert (Inputs.questionNode st' = Some q') as Hq' by by cbn; rewrite Hq.
  assert (Inputs.branchNodes st' ≠ []) as Hbranches'.
  { intros Hnil%(f_equal length).
    unfold st' in Hnil. rewrite moveCoordTo_branches_length in Hnil.
    by destruct (Inputs.branchNodes st). }
  rewrite (questionLayouterBranching_returns st' q') by done. cbn zeta.
  assert (plainRoot q' st' = root) as ->.
  { pose proof (branchingCoord_ext st st' (sameShape_moveCoordTo _ _ _ _))
      as Hext.
    rewrite (branchingCoord_plainRoot st q),
      (branchingCoord_plainRoot st' q') in Hext by done.
    symmetry. by apply Normal_inj. }
  assert (GraphCoord.moveCoordTo root 0 0 st' = st') as ->
    by apply moveCoordTo_twice.
  assert (GraphCoord.place root 0 0 QuestionRef q' = q') as ->
    by apply place_place.
  done.
Qed.

Lemma marked_final st c x y :
  marked (GraphCoord.moveCoordTo c x y (marked st))
  = GraphCoord.moveCoordTo c x y (marked st).
Proof.
  unfold marked at 1.
  rewrite <-(connectionsOf_ext (marked st)) by apply sameShape_moveCoordTo.
  rewrite <-(connectionsOf_ext st) by apply sameShape_markHidden.
  rewrite markHidden_moveCoordTo. unfold marked.
  by rewrite markHidden_twice.
Qed.

Lemma marked_twice st : marked (marked st) = marked st.
Proof.
  unfold marked at 1.
  rewrite <-(connectionsOf_ext st) by apply sameShape_markHidden.
  apply markHidden_twice.
Qed.

Lemma convergence_idempotent st :
  questionLayouterBranchingWithConvergence
    (questionLayouterBranchingWithConvergence st).2
  = questionLayouterBranchingWithConvergence st.
Proof.
  destruct (Inputs.questionNode st) as [q|] eqn:Hq; last first.
  { unfold questionLayouterBranchingWithConvergence at 2. rewrite Hq. done. }
  destruct (decide (Inputs.branchNodes st = [])) as [Hnil|Hbranches].
  { unfold questionLayouterBranchingWithConvergence at 2.
    rewrite Hq, Hnil. done. }
  destruct (decide (size (buildConvergenceMap st) = 0%nat)) as [Hsize|Hsize].
  - assert (questionLayouterBranchingWithConvergence st
            = questionLayouterBranching st) as ->.
    { unfold questionLayouterBranchingWithConvergence.
      rewrite Hq, decide_False; last first.
      { by destruct (Inputs.branchNodes st). }
      cbn zeta. by rewrite decide_True. }
    pose proof (plain_final_shape st) as Hshape.
    set (st' := (questionLayouterBranching st).2) in *.
    unfold questionLayouterBranchingWithConvergence.
    destruct (related_question_type st st' q Hshape Hq) as (q' & -> & _).
    rewrite decide_False; last first.
    { rewrite (related_branches_length _ _ _ Hshape).
      by destruct (Inputs.branchNodes st). }
    cbn zeta. rewrite <-(buildConvergenceMap_ext st st') by done.
    rewrite decide_True by done. apply plain_idempotent.
  - rewrite (convergence_unfold st q) by done.
    destruct (convergenceCoord (marked st) _) as [root|e] eqn:Hcoord;
      cbn [snd].
    + set (st2 := GraphCoord.moveCoordTo root 0 0 (marked st)).
      assert (related sameShape st st2) as Hshape.
      { eapply (related_trans sameShape); [apply sameShape_trans| |].
        - apply sameShape_markHidden.
        - apply sameShape_moveCoordTo. }
      destruct (related_question_type st st2 q Hshape Hq) as (q2 & Hq2 & _).
      rewrite (convergence_unfold st2 q2); [|done|]; last first.
      { by rewrite <-(buildConvergenceMap_ext st st2). }
      rewrite <-(connectionsOf_ext st st2) by done.
      unfold st2 at 1 2. rewrite marked_final. fold st2.
      rewrite <-(convergenceCoord_ext (marked st) st2)
        by apply sameShape_moveCoordTo.
      rewrite Hcoord. cbn zeta.
      assert (GraphCoord.moveCoordTo root 0 0 st2 = st2) as ->
        by apply moveCoordTo_twice.
      done.
    + assert (related sameShape st (marked st)) as Hshape
        by apply sameShape_markHidden.
      destruct (related_question_type st (marked st) q Hshape Hq)
        as (q2 & Hq2 & _).
      rewrite (convergence_unfold (marked st) q2); [|done|]; last first.
      { by rewrite <-(buildConvergenceMap_ext st (marked st)). }
      rewrite <-(connectionsOf_ext st (marked st)) by done.
      rewrite marked_twice, Hcoord. done.
Qed.

Lemma questionLayouter_idempotent st :
  questionLayouter (questionLayouter st).2 = questionLayouter st.
Proof.
  destruct (Inputs.questionNode st) as [q|] eqn:Hq; last first.
  { rewrite (questionLayouter_absent st) by done. cbn [snd].
    by rewrite (questionLayouter_absent st). }
  pose proof (final_shape st) as Hshape.
  destruct (related_question_type st _ q Hshape Hq) as (q' & Hq' & Htype).
  destruct (decide (Data.type (GraphNode.data q)
                    = Some QuestionType.choice)) as [Hchoice|Hchoice].
  { rewrite (questionLayouter_choice _ q') by congruence.
    rewrite (questionLayouter_choice st q) by done.
    apply convergence_idempotent. }
  destruct (decide (Data.type (GraphNode.data q)
                    = Some QuestionType.confirm)) as [Hconfirm|Hconfirm].
  { rewrite (questionLayouter_confirm _ q') by congruence.
    rewrite (questionLayouter_confirm st q) by done.
    apply plain_idempotent. }
  unfold questionLayouter at 1. rewrite Hq'. cbn zeta.
  rewrite !decide_False by congruence.
  unfold questionLayouter. rewrite Hq. cbn zeta.
  by rewrite !decide_False by congruence.
Qed.

(** ** A case without a branch node *)

Lemma casesInRange_dec st : Decision (casesInRange st).
Proof. unfold casesInRange. apply _. Defined.

Lemma branchCoord_out_of_range st caseIdx choiceIndices :
  Forall (λ i, (i < length (Inputs.choiceNodes st))%nat) choiceIndices →
  (length (Inputs.branchNodes st) ≤ caseIdx)%nat →
  branchCoord st (caseIdx, choiceIndices) = Throw TypeError.
Proof.
  intros Hchoices Hcase. unfold branchCoord.
  rewrite topAlignWithInterval_choices by done.
  cbn [mbind Completion_bind]. unfold element. cbn [Inputs.get].
  by rewrite lookup_ge_None_2.
Qed.

(** In the embedding, where the constructor of [GraphCoord] fails on an
    element that is [undefined], the convergence-aware layout throws when a
    choice leads to a case that has no branch node; the unreachable cases
    are marked by then. *)
Lemma convergence_throws st q :
  Inputs.questionNode st = Some q →
  Data.type (GraphNode.data q) = Some QuestionType.choice →
  size (buildConvergenceMap st) ≠ 0%nat →
  ¬ casesInRange st →
  questionLayouter st = (Throw TypeError, marked st).
Proof.
  intros Hq Htype Hsize Hrange.
  rewrite (questionLayouter_choice st q), (convergence_unfold st q) by done.
  apply not_Forall_Exists in Hrange; [|apply _].
  apply Exists_exists in Hrange as (i & Hi & Hcase).
  apply elem_of_seq in Hi as [_ Hi]. cbn in Hi, Hcase.
  set (m := buildConvergenceMap st) in *.
  set (n := length (Inputs.choiceNodes st)) in *.
  set (j := caseOf m i) in *.
  assert ((j, choicesOf m n j) ∈ reachable (connectionsOf st)) as Hgroup.
  { apply elem_of_reachable. split; [done|]. intros Hnil.
    rewrite choicesOf_nil in Hnil. by destruct (Hnil i). }
  destruct (mapM_Throw (branchCoord (marked st)) _ _ TypeError Hgroup)
    as [e He].
  { apply branchCoord_out_of_range.
    - apply Forall_forall. by intros k [Hk _]%elem_of_choicesOf.
    - unfold marked. rewrite markHidden_branches_length. lia. }
  unfold convergenceCoord, convergenceContentCoord. rewrite He.
  by destruct e.
Qed.

(** ** Offsets the layout overwrites *)

Lemma related_impl (R R' : GraphNode.t → GraphNode.t → Prop) st st' :
  (∀ n n', R n n' → R' n n') → related R st st' → related R' st st'.
Proof.
  intros HR (Hq & Hc & Hb). repeat split.
  - destruct Hq; constructor; auto.
  - eapply Forall2_impl; eauto.
  - eapply Forall2_impl; eauto.
Qed.

Lemma place_sameButOffset c x y r n n' :
  r ∈ refs c → sameButOffset n n' →
  GraphCoord.place c x y r n = GraphCoord.place c x y r n'.
Proof.
  intros Hr ((Hid & Hboundary & Hdata) & Hhidden).
  destruct (place_placed c x y r n Hr) as (p & Hp & ->).
  unfold GraphCoord.place. rewrite Hp. unfold GraphNode.set_offset.
  by rewrite Hid, Hboundary, Hdata, Hhidden.
Qed.

Lemma Forall2_imap {A : Type} (R : A → A → Prop) (f : nat → A → A)
    (l l' : list A) :
  (∀ i a a', R a a' → R (f i a) (f i a')) →
  Forall2 R l l' → Forall2 R (imap f l) (imap f l').
Proof.
  intros Hf Hl. revert f Hf.
  induction Hl as [|a a' l l' Ha _ IH]; intros f Hf; cbn.
  - constructor.
  - constructor; [by apply Hf|]. apply IH. intros i. apply Hf.
Qed.

Lemma sameButOffset_markHidden connections st st' :
  related sameButOffset st st' →
  related sameButOffset (markHidden connections st)
    (markHidden connections st').
Proof.
  intros (Hq & Hc & Hb). repeat split; cbn; [done..|].
  apply Forall2_imap; [|done].
  intros i n n' Hn. destruct array_get; [done|].
  destruct Hn as ((? & ? & ?) & ?). by repeat split.
Qed.

(** Positioned nodes no longer tell the stores apart. *)
Lemma moveCoordTo_choices_agree c x y st st' :
  related sameButOffset st st' →
  (∀ i, (i < length (Inputs.choiceNodes st))%nat → ChoiceRef i ∈ refs c) →
  Inputs.choiceNodes (GraphCoord.moveCoordTo c x y st)
  = Inputs.choiceNodes (GraphCoord.moveCoordTo c x y st').
Proof.
  intros (_ & Hc & _) Hplaced. apply list_eq. intros i.
  rewrite !moveCoordTo_choice.
  destruct (Inputs.choiceNodes st !! i) as [n|] eqn:Hlook.
  - destruct (Forall2_lookup_l _ _ _ _ _ Hc Hlook) as (n' & -> & Hn).
    cbn. f_equal. apply place_sameButOffset; [|done].
    apply Hplaced. by eapply lookup_lt_Some.
  - apply lookup_ge_None in Hlook. rewrite (Forall2_length _ _ _ Hc) in Hlook.
    by rewrite (lookup_ge_None_2 _ _ Hlook).
Qed.

Lemma moveCoordTo_branch_agree c x y st st' j :
  related sameButOffset st st' →
  BranchRef j ∈ refs c →
  Inputs.branchNodes (GraphCoord.moveCoordTo c x y st) !! j
  = Inputs.branchNodes (GraphCoord.moveCoordTo c x y st') !! j.
Proof.
  intros (_ & _ & Hb) Hplaced. rewrite !moveCoordTo_branch.
  rewrite Forall2_lookup in Hb. destruct (Hb j) as [n n' Hn|]; [|done].
  cbn. f_equal. by apply place_sameButOffset.
Qed.

Lemma moveCoordTo_branches_agree c x y st st' :
  related sameButOffset st st' →
  (∀ j, (j < length (Inputs.branchNodes st))%nat → BranchRef j ∈ refs c) →
  Inputs.branchNodes (GraphCoord.moveCoordTo c x y st)
  = Inputs.branchNodes (GraphCoord.moveCoordTo c x y st').
Proof.
  intros Hrel Hplaced. apply list_eq. intros j.
  destruct (decide (j < length (Inputs.branchNodes st))%nat) as [Hj|Hj].
  - apply moveCoordTo_branch_agree; auto.
  - rewrite !lookup_ge_None_2; [done|..];
      rewrite moveCoordTo_branches_length;
      rewrite ?(related_branches_length _ _ _ Hrel); lia.
Qed.

Lemma fullNodeMap_lengths st st' :
  length (Inputs.choiceNodes st') = length (Inputs.choiceNodes st) →
  length (Inputs.branchNodes st') = length (Inputs.branchNodes st) →
  fullNodeMap st' = fullNodeMap st.
Proof. unfold fullNodeMap. by intros -> ->. Qed.

Lemma fullNodeMap_related R c x y st st' :
  related R st st' →
  fullNodeMap (GraphCoord.moveCoordTo c x y st')
  = fullNodeMap (GraphCoord.moveCoordTo c x y st).
Proof.
  intros Hrel. apply fullNodeMap_lengths.
  - rewrite !moveCoordTo_choices_length.
    apply (related_choices_length _ _ _ Hrel).
  - rewrite !moveCoordTo_branches_length.
    apply (related_branches_length _ _ _ Hrel).
Qed.

Lemma sameButOffset_sameShape st st' :
  related sameButOffset st st' → related sameShape st st'.
Proof. apply related_impl. by intros n n' [? _]. Qed.

Lemma plain_offsets_irrelevant st st' :
  related sameButOffset st st' →
  (length (Inputs.branchNodes st) ≤ length (Inputs.choiceNodes st))%nat →
  (questionLayouterBranching st).1 = (questionLayouterBranching st').1.
Proof.
  intros Hrel Hlen.
  pose proof (sameButOffset_sameShape st st' Hrel) as Hshape.
  pose proof Hrel as (Hq & _ & _).
  destruct (Inputs.questionNode st) as [q0|] eqn:Hq0;
    destruct (Inputs.questionNode st') as [q0'|] eqn:Hq0';
    inversion Hq as [? ? Hqq'|]; subst.
  2: { unfold questionLayouterBranching. by rewrite Hq0, Hq0'. }
  destruct (decide (Inputs.branchNodes st = [])) as [Hnil|Hbranches].
  { assert (Inputs.branchNodes st' = []) as Hnil'.
    { apply length_zero_iff_nil.
      by rewrite (related_branches_length _ _ _ Hrel), Hnil. }
    unfold questionLayouterBranching. by rewrite Hq0, Hq0', Hnil, Hnil'. }
  assert (Inputs.branchNodes st' ≠ []) as Hbranches'.
  { intros Hnil%(f_equal length).
    rewrite (related_branches_length _ _ _ Hrel) in Hnil.
    by destruct (Inputs.branchNodes st). }
  rewrite (questionLayouterBranching_returns st q0),
    (questionLayouterBranching_returns st' q0') by done.
  cbn [fst].
  assert (plainRoot q0' st' = plainRoot q0 st) as ->.
  { pose proof (branchingCoord_ext st st' Hshape) as Hext.
    rewrite (branchingCoord_plainRoot st q0),
      (branchingCoord_plainRoot st' q0') in Hext by done.
    symmetry. by apply Normal_inj. }
  set (root := plainRoot q0 st).
  assert (QuestionRef ∈ refs root) as Hquestion.
  { unfold root, plainRoot. rewrite refs_rootCoord. left. }
  assert (∀ j, (j < length (Inputs.branchNodes st))%nat →
               BranchRef j ∈ refs root) as Hplaced.
  { intros j Hj. unfold root, plainRoot.
    rewrite refs_rootCoord. right.
    change (refs (GraphCoord.add_height (plainContent st) 200))
      with (refs (plainContent st)).
    rewrite refs_plainContent. apply elem_of_flat_map.
    exists j. split; [apply elem_of_seq; lia|]. right. left. }
  rewrite (fullNodeMap_related _ root 0 0 st st' Hrel).
  rewrite (place_sameButOffset root 0 0 QuestionRef q0 q0') by done.
  by rewrite (moveCoordTo_branches_agree root 0 0 st st').
Qed.

Lemma flat_map_ext_in {A B : Type} (f g : A → list B) (l : list A) :
  (∀ a, a ∈ l → f a = g a) → flat_map f l = flat_map g l.
Proof.
  induction l as [|a l IH]; intros Hfg; [done|].
  cbn. rewrite (Hfg a) by left.
  rewrite IH; [done|]. intros b Hb. apply Hfg. by right.
Qed.

Lemma convergenceEdgeList_ext st st' q reachableConnections :
  Inputs.choiceNodes st = Inputs.choiceNodes st' →
  (∀ c, c ∈ reachableConnections →
        Inputs.branchNodes st !! c.1 = Inputs.branchNodes st' !! c.1) →
  convergenceEdgeList st q reachableConnections
  = convergenceEdgeList st' q reachableConnections.
Proof.
  intros Hchoices Hbranches.
  unfold convergenceEdgeList, questionEdges. rewrite Hchoices. f_equal.
  apply flat_map_ext_in. intros c Hc. unfold groupEdgeList.
  rewrite Hchoices. f_equal.
  rewrite !(list_lookup_total_alt (Inputs.branchNodes _)).
  by rewrite (Hbranches c Hc).
Qed.

Lemma choice_placed st st1 i :
  (i < length (Inputs.choiceNodes st))%nat →
  ChoiceRef i ∈ refs (convergenceContent st1 (reachable (connectionsOf st))).
Proof.
  intros Hi. rewrite refs_convergenceContent. apply elem_of_flat_map.
  set (m := buildConvergenceMap st).
  set (n := length (Inputs.choiceNodes st)) in *.
  assert (i ∈ choicesOf m n (caseOf m i)) as Hin
    by by apply elem_of_choicesOf.
  exists (caseOf m i, choicesOf m n (caseOf m i)). split.
  - apply elem_of_reachable. split; [done|].
    intros Hnil. rewrite Hnil in Hin. by apply elem_of_nil in Hin.
  - cbn. apply elem_of_app. left. by apply list_elem_of_fmap_2.
Qed.

Lemma branch_placed st1 reachableConnections c :
  c ∈ reachableConnections →
  BranchRef c.1 ∈ refs (convergenceContent st1 reachableConnections).
Proof.
  intros Hc. rewrite refs_convergenceContent. apply elem_of_flat_map.
  exists c. split; [done|]. apply elem_of_app. right. left.
Qed.

Lemma marked_related st st' :
  related sameButOffset st st' →
  related sameButOffset (marked st) (marked st').
Proof.
  intros Hrel. unfold marked.
  rewrite <-(connectionsOf_ext st st')
    by by apply sameButOffset_sameShape.
  by apply sameButOffset_markHidden.
Qed.

Lemma convergence_offsets_irrelevant st st' q :
  related sameButOffset st st' →
  Inputs.questionNode st = Some q →
  Data.type (GraphNode.data q) = Some QuestionType.choice →
  size (buildConvergenceMap st) ≠ 0%nat →
  (questionLayouter st).1 = (questionLayouter st').1.
Proof.
  intros Hrel Hq Htype Hsize.
  pose proof (sameButOffset_sameShape st st' Hrel) as Hshape.
  destruct (related_question_type st st' q Hshape Hq) as (q' & Hq' & Htype').
  rewrite Htype in Htype'.
  assert (sameButOffset q q') as Hqq'.
  { destruct Hrel as (Hrel & _ & _). rewrite Hq, Hq' in Hrel.
    by inversion Hrel. }
  pose proof (buildConvergenceMap_ext st st' Hshape) as Hmap.
  assert (casesInRange st ↔ casesInRange st') as Hrange.
  { unfold casesInRange.
    by rewrite Hmap, (related_choices_length _ _ _ Hshape),
      (related_branches_length _ _ _ Hshape). }
  destruct (casesInRange_dec st) as [Hin|Hout].
  - rewrite (questionLayouter_converging_returns st q) by done.
    rewrite (questionLayouter_converging_returns st' q');
      [|done|done|by rewrite <-Hmap|by apply Hrange].
    cbn [fst]. rewrite <-(connectionsOf_ext st st') by done.
    set (reachableConnections := reachable (connectionsOf st)).
    assert (rootCoord q' (convergenceContent (marked st') reachableConnections)
            = rootCoord q (convergenceContent (marked st) reachableConnections))
      as ->.
    { pose proof (convergenceCoord_ext (marked st) (marked st')
                    reachableConnections
                    (sameButOffset_sameShape _ _ (marked_related _ _ Hrel)))
        as Hext.
      rewrite (convergenceCoord_rootCoord (marked st) q),
        (convergenceCoord_rootCoord (marked st') q') in Hext;
        [symmetry; by apply Normal_inj|done| |done|].
      - unfold reachableConnections.
        rewrite (connectionsOf_ext st st') by done.
        by apply casesInRange_connections, Hrange.
      - by apply casesInRange_connections. }
    set (content := convergenceContent (marked st) reachableConnections).
    set (root := rootCoord q content).
    pose proof (marked_related st st' Hrel) as Hmarked.
    rewrite (fullNodeMap_related _ root 0 0 _ _ Hmarked).
    rewrite (place_sameButOffset root 0 0 QuestionRef q q'); [|..|done];
      last first.
    { unfold root. rewrite refs_rootCoord. left. }
    f_equal. f_equal. apply convergenceEdgeList_ext.
    + apply moveCoordTo_choices_agree; [done|].
      intros i Hi. unfold root. rewrite refs_rootCoord. right.
      by apply choice_placed.
    + intros c Hc. apply moveCoordTo_branch_agree; [done|].
      unfold root. rewrite refs_rootCoord. right. by apply branch_placed.
  - rewrite (convergence_throws st q) by done.
    rewrite (convergence_throws st' q');
      [done|done|done|by rewrite <-Hmap|by rewrite <-Hrange].
Qed.

(** ** When the layouter throws *)

(** The layouter itself reads no property of [undefined].  In the embedding
    it throws in one situation only, inside the constructor of [GraphCoord]:
    a question of type [choice], a non-empty convergence map, and a choice
    that leads to a case without a branch node. *)
Lemma questionLayouter_throws_iff st :
  (∃ e, (questionLayouter st).1 = Throw e)
  ↔ ∃ q,
      Inputs.questionNode st = Some q
      ∧ Data.type (GraphNode.data q) = Some QuestionType.choice
      ∧ size (buildConvergenceMap st) ≠ 0%nat
      ∧ ¬ casesInRange st.
Proof.
  split.
  - intros [e He].
    destruct (Inputs.questionNode st) as [q|] eqn:Hq; last first.
    { by rewrite (questionLayouter_absent st) in He. }
    exists q. split; [done|].
    assert (∀ e', (questionLayouterBranching st).1 ≠ Throw e') as Hplain.
    { intros e'. destruct (decide (Inputs.branchNodes st = [])) as [Hnil|Hne].
      - unfold questionLayouterBranching. by rewrite Hq, Hnil.
      - by rewrite (questionLayouterBranching_returns st q). }
    destruct (decide (Data.type (GraphNode.data q)
                      = Some QuestionType.choice)) as [Hchoice|Hchoice];
      last first.
    { unfold questionLayouter in He. rewrite Hq in He. cbn zeta in He.
      rewrite decide_False in He by done.
      case_decide; [by destruct (Hplain e)|done]. }
    split; [done|].
    rewrite (questionLayouter_choice st q) in He by done.
    destruct (decide (size (buildConvergenceMap st) = 0%nat)) as [Hsize|Hsize].
    { unfold questionLayouterBranchingWithConvergence in He.
      rewrite Hq in He. case_decide; [done|]. cbn zeta in He.
      rewrite decide_True in He by done. by destruct (Hplain e). }
    split; [done|]. intros Hrange.
    rewrite <-(questionLayouter_choice st q) in He by done.
    by rewrite (questionLayouter_converging_returns st q) in He.
  - intros (q & Hq & Htype & Hsize & Hrange). exists TypeError.
    by rewrite (convergence_throws st q).
Qed.

(** C8, as the code has it.  Calling [questionLayouter] again on the nodes a
    call has left behind gives the same outcome (and leaves the nodes as
    they are), for every input.  The offsets the nodes had before a call do
    not affect its outcome, provided that on the plain branching path there
    are no more branch nodes than choice nodes: two stores that differ in
    offsets only then give the same outcome. *)
Theorem questionLayouter_twice st :
  questionLayouter (questionLayouter st).2 = questionLayouter st
  ∧ ∀ st',
      related sameButOffset st st' →
      (plainPath st →
       (length (Inputs.branchNodes st)
        ≤ length (Inputs.choiceNodes st))%nat) →
      (questionLayouter st).1 = (questionLayouter st').1.
Proof.
  split; [apply questionLayouter_idempotent|].
  intros st' Hrel Hplain.
  pose proof (sameButOffset_sameShape st st' Hrel) as Hshape.
  destruct (Inputs.questionNode st) as [q|] eqn:Hq; last first.
  { destruct Hrel as (Hrel & _ & _). rewrite Hq in Hrel.
    inversion Hrel as [|Hnone]. symmetry in Hnone.
    by rewrite (questionLayouter_absent st), (questionLayouter_absent st'). }
  destruct (related_question_type st st' q Hshape Hq) as (q' & Hq' & Htype).
  pose proof (buildConvergenceMap_ext st st' Hshape) as Hmap.
  destruct (decide (Data.type (GraphNode.data q)
                    = Some QuestionType.confirm)) as [Hconfirm|Hconfirm].
  { rewrite (questionLayouter_confirm st q),
      (questionLayouter_confirm st' q') by congruence.
    apply plain_offsets_irrelevant; [done|].
    apply Hplain. exists q. auto. }
  destruct (decide (Data.type (GraphNode.data q)
                    = Some QuestionType.choice)) as [Hchoice|Hchoice];
    last first.
  { unfold questionLayouter. rewrite Hq, Hq'. cbn zeta.
    by rewrite !decide_False by congruence. }
  destruct (decide (size (buildConvergenceMap st) = 0%nat)) as [Hsize|Hsize];
    [|by apply (convergence_offsets_irrelevant st st' q)].
  rewrite (questionLayouter_choice st q),
    (questionLayouter_choice st' q') by congruence.
  unfold questionLayouterBranchingWithConvergence.
  rewrite Hq, Hq', <-Hmap, (related_branches_length _ _ _ Hshape).
  case_decide; [done|]. cbn zeta. rewrite !decide_True by done.
  apply plain_offsets_irrelevant; [done|].
  apply Hplain. exists q. auto.
Qed.

(** ** The convergence map, entry by entry *)

Lemma convergenceStep_redirectTarget branchNodes m i c :
  convergenceStep branchNodes m i c
  = match redirectTarget branchNodes c with
    | Some j => <[i:=j]> m
    | None => m
    end.
Proof.
  unfold redirectTarget, convergenceStep.
  destruct (negb _ || _); [by rewrite lookup_empty|].
  destruct findIndex; [by rewrite lookup_insert_eq|by rewrite lookup_empty].
Qed.

Lemma convergenceLoop_lookup branchNodes choiceNodes m i k :
  convergenceLoop branchNodes m i choiceNodes !! k
  = match
      (if decide (i ≤ k)%nat
       then choiceNodes !! (k - i)%nat ≫= redirectTarget branchNodes
       else None)
    with
    | Some j => Some j
    | None => m !! k
    end.
Proof.
  revert m i. induction choiceNodes as [|c rest IH]; intros m i.
  - cbn. by case_decide.
  - cbn [convergenceLoop]. rewrite IH, convergenceStep_redirectTarget.
    destruct (decide (S i ≤ k)%nat) as [Hlt|Hge].
    + rewrite decide_True by lia.
      replace (k - i)%nat with (S (k - S i)) by lia. cbn.
      destruct (rest !! (k - S i)%nat ≫= redirectTarget branchNodes);
        [done|].
      destruct (redirectTarget branchNodes c); [|done].
      rewrite lookup_insert_ne by lia. done.
    + destruct (decide (i ≤ k)%nat) as [Hle|Hgt].
      * assert (k = i) as -> by lia. rewrite Nat.sub_diag. cbn.
        destruct (redirectTarget branchNodes c); [|done].
        by rewrite lookup_insert_eq.
      * destruct (redirectTarget branchNodes c); [|done].
        rewrite lookup_insert_ne by lia. done.
Qed.

Lemma buildConvergenceMap_lookup st i :
  buildConvergenceMap st !! i
  = Inputs.choiceNodes st !! i ≫= redirectTarget (Inputs.branchNodes st).
Proof.
  unfold buildConvergenceMap. rewrite convergenceLoop_lookup.
  rewrite decide_True by lia. rewrite Nat.sub_0_r, lookup_empty.
  by destruct (_ ≫= _).
Qed.

Lemma redirectTarget_Some branchNodes c j :
  redirectTarget branchNodes c = Some j
  ↔ ∃ g,
      Data.gotoChoice (GraphNode.data c) = Some g
      ∧ g ≠ ""
      ∧ Data.choiceId (GraphNode.data c) ≠ Some g
      ∧ (∃ b, branchNodes !! j = Some b
              ∧ Data.choiceId (GraphNode.data b) = Some g)
      ∧ ∀ k b, (k < j)%nat → branchNodes !! k = Some b →
          Data.choiceId (GraphNode.data b) ≠ Some g.
Proof.
  unfold redirectTarget, convergenceStep, findIndex.
  destruct (Data.gotoChoice (GraphNode.data c)) as [g|] eqn:Hgoto; cbn;
    last first.
  { rewrite ?lookup_empty. split; [done|]. by intros (g & ? & _). }
  destruct (decide (g = "")) as [->|Hg].
  { cbn. rewrite ?lookup_empty. split; [done|]. by intros (g & [= <-] & ? & _). }
  rewrite (bool_decide_eq_true_2 (g ≠ "")) by done. cbn.
  case_bool_decide as Hown.
  { rewrite ?lookup_empty. split; [done|].
    intros (g' & [= <-] & _ & Hne & _). by destruct Hne. }
  destruct (list_find _ branchNodes) as [[j' b]|] eqn:Hfind; cbn.
  - rewrite lookup_insert_eq.
    apply list_find_Some in Hfind as (Hb & Hid & Hfirst).
    apply bool_decide_eq_true_1 in Hid.
    split.
    + intros [= <-]. exists g. repeat split; [done|congruence|eauto|].
      intros k b' Hk Hb' Hid'. apply (Hfirst k b' Hb' Hk).
      by apply bool_decide_eq_true_2.
    + intros (g' & [= <-] & _ & _ & (b' & Hb' & Hid') & Hmin).
      f_equal. destruct (Nat.lt_trichotomy j j') as [Hlt|[->|Hlt]]; [|done|].
      * destruct (Hfirst j b' Hb' Hlt). by apply bool_decide_eq_true_2.
      * by destruct (Hmin j' b Hlt Hb).
  - rewrite ?lookup_empty. split; [done|].
    intros (g' & [= <-] & _ & _ & (b' & Hb' & Hid') & _).
    apply list_find_None in Hfind. rewrite Forall_forall in Hfind.
    destruct (Hfind b'); [by eapply list_elem_of_lookup_2|].
    by apply bool_decide_eq_true_2.
Qed.

(** X1.  The convergence map, in closed form.  It sends choice [i] to case
    [j] exactly when the choice's [gotoChoice] is a non-empty string other
    than the choice's own [choiceId] and [j] is the first branch node whose
    [choiceId] is that string.  (An empty [gotoChoice], one that names the
    choice itself and one that names no branch node leave no entry.) *)
Theorem buildConvergenceMap_entry st i j :
  buildConvergenceMap st !! i = Some j
  ↔ ∃ c g,
      Inputs.choiceNodes st !! i = Some c
      ∧ Data.gotoChoice (GraphNode.data c) = Some g
      ∧ g ≠ ""
      ∧ Data.choiceId (GraphNode.data c) ≠ Some g
      ∧ (∃ b, Inputs.branchNodes st !! j = Some b
              ∧ Data.choiceId (GraphNode.data b) = Some g)
      ∧ ∀ k b, (k < j)%nat → Inputs.branchNodes st !! k = Some b →
          Data.choiceId (GraphNode.data b) ≠ Some g.
Proof.
  rewrite buildConvergenceMap_lookup.
  destruct (Inputs.choiceNodes st !! i) as [c|]; cbn.
  - rewrite redirectTarget_Some. split.
    + intros (g & H). by exists c, g.
    + intros (c' & g & [= <-] & H). by exists g.
  - split; [done|]. by intros (c & g & ? & _).
Qed.

(** ** Failure, in terms of the inputs *)

Lemma casesInRange_iff st :
  casesInRange st
  ↔ ∀ i, (i < length (Inputs.choiceNodes st))%nat →
      (caseOf (buildConvergenceMap st) i < length (Inputs.branchNodes st))%nat.
Proof.
  unfold casesInRange. rewrite Forall_forall. split.
  - intros H i Hi. apply H, elem_of_seq. lia.
  - intros H i [_ Hi]%elem_of_seq. apply H. lia.
Qed.

Lemma not_casesInRange st :
  ¬ casesInRange st
  ↔ ∃ i, (i < length (Inputs.choiceNodes st))%nat
         ∧ (length (Inputs.branchNodes st)
            ≤ caseOf (buildConvergenceMap st) i)%nat.
Proof.
  split.
  - intros Hrange. apply not_Forall_Exists in Hrange; [|apply _].
    apply Exists_exists in Hrange as (i & [_ Hi]%elem_of_seq & Hcase).
    exists i. cbn in *. lia.
  - intros (i & Hi & Hcase) Hrange.
    rewrite casesInRange_iff in Hrange. specialize (Hrange i Hi). lia.
Qed.

(** X2.  Where the layouter returns.  [questionLayouter] returns a layout
    unless the question has type 'choice', the convergence map is not empty
    and some choice leads to a case index that has no branch node: on every
    other input the layouter reads no property of [undefined] and hands the
    composition defined elements only. *)
Theorem questionLayouter_returns_in_range st :
  (∀ q i,
     Inputs.questionNode st = Some q →
     Data.type (GraphNode.data q) = Some QuestionType.choice →
     buildConvergenceMap st ≠ ∅ →
     (i < length (Inputs.choiceNodes st))%nat →
     (caseOf (buildConvergenceMap st) i
      < length (Inputs.branchNodes st))%nat) →
  ∃ layout, (questionLayouter st).1 = Normal layout.
Proof.
  intros Hrange.
  destruct (questionLayouter st).1 as [layout|e] eqn:Hret; [by exists layout|].
  destruct (proj1 (questionLayouter_throws_iff st) (ex_intro _ e Hret))
    as (q & Hq & Htype & Hsize & Hout).
  destruct Hout. apply casesInRange_iff. intros i Hi.
  apply (Hrange q i); [done..| |done].
  intros Hempty. by rewrite Hempty, map_size_empty in Hsize.
Qed.

(** X3.  Enough branch nodes, no failure.  With at least as many branch
    nodes as choice nodes, [questionLayouter] returns a layout, whatever the
    types, ids and redirections of the nodes. *)
Theorem questionLayouter_returns st :
  (length (Inputs.choiceNodes st) ≤ length (Inputs.branchNodes st))%nat →
  ∃ layout, (questionLayouter st).1 = Normal layout.
Proof.
  intros Hlen.
  destruct (questionLayouter st).1 as [layout|e] eqn:Hret; [by exists layout|].
  destruct (proj1 (questionLayouter_throws_iff st) (ex_intro _ e Hret))
    as (q & _ & _ & _ & Hrange).
  destruct Hrange. apply casesInRange_iff. intros i Hi. unfold caseOf.
  destruct (buildConvergenceMap st !! i) as [j|] eqn:Hj; cbn; [|lia].
  rewrite buildConvergenceMap_lookup in Hj.
  destruct (Inputs.choiceNodes st !! i) as [c|]; [|done]. cbn in Hj.
  apply redirectTarget_Some in Hj as (g & _ & _ & _ & (b & Hb & _) & _).
  by eapply lookup_lt_Some.
Qed.

(** ** What a call writes *)

Lemma sameButOffset_refl n : sameButOffset n n.
Proof. by repeat split. Qed.

Lemma sameButOffset_place c x y r n :
  sameButOffset n (GraphCoord.place c x y r n).
Proof. split; [apply sameShape_place|by rewrite place_hidden]. Qed.

Lemma sameButOffset_moveCoordTo c x y st :
  related sameButOffset st (GraphCoord.moveCoordTo c x y st).
Proof.
  repeat split; cbn.
  - destruct (Inputs.questionNode st); constructor. apply sameButOffset_place.
  - apply Forall2_imap_r. intros i n. apply sameButOffset_place.
  - apply Forall2_imap_r. intros i n. apply sameButOffset_place.
Qed.

Lemma onlyHides_sameButOffset n n' : sameButOffset n n' → onlyHides n n'.
Proof. intros [Hshape Hhidden]. split; [done|]. by rewrite Hhidden. Qed.

Lemma onlyHides_then_offset n1 n2 n3 :
  onlyHides n1 n2 → sameButOffset n2 n3 → onlyHides n1 n3.
Proof.
  intros [Hshape Hkept] [Hshape' Hhidden].
  split; [by eapply sameShape_trans|]. rewrite <-Hhidden. done.
Qed.

Lemma onlyHides_markHidden connections st :
  Forall2 onlyHides (Inputs.branchNodes st)
    (Inputs.branchNodes (markHidden connections st)).
Proof.
  cbn. apply Forall2_imap_r. intros i n.
  destruct array_get; by repeat split.
Qed.

Lemma plain_final_offsets st :
  related sameButOffset st (questionLayouterBranching st).2.
Proof.
  unfold questionLayouterBranching.
  destruct (Inputs.questionNode st);
    [|by apply related_refl, sameButOffset_refl].
  case_decide; [by apply related_refl, sameButOffset_refl|].
  destruct (branchingCoord st); [|by apply related_refl, sameButOffset_refl].
  apply sameButOffset_moveCoordTo.
Qed.

(** X4.  What a call may write.  Of the question node and of every choice
    node, [questionLayouter] changes the offset at most; of a branch node the
    offset and the hidden flag at most, and the flag only from unset to set:
    no call shows a branch node again that was hidden.  Ids, boundaries,
    data and the lengths of the two arrays stay as they are. *)
Theorem questionLayouter_writes st :
  option_Forall2 sameButOffset
    (Inputs.questionNode st) (Inputs.questionNode (questionLayouter st).2)
  ∧ Forall2 sameButOffset
      (Inputs.choiceNodes st) (Inputs.choiceNodes (questionLayouter st).2)
  ∧ Forall2 onlyHides
      (Inputs.branchNodes st) (Inputs.branchNodes (questionLayouter st).2).
Proof.
  assert (∀ st', related sameButOffset st st' →
            option_Forall2 sameButOffset
              (Inputs.questionNode st) (Inputs.questionNode st')
            ∧ Forall2 sameButOffset
                (Inputs.choiceNodes st) (Inputs.choiceNodes st')
            ∧ Forall2 onlyHides
                (Inputs.branchNodes st) (Inputs.branchNodes st')) as Hweaken.
  { intros st' (Hq & Hc & Hb). repeat split; [done..|].
    eapply Forall2_impl; [done|]. apply onlyHides_sameButOffset. }
  unfold questionLayouter.
  destruct (Inputs.questionNode st) as [q|] eqn:Hq; last first.
  { apply Hweaken, related_refl, sameButOffset_refl. }
  cbn zeta. case_decide; last first.
  { case_decide; [apply Hweaken, plain_final_offsets|].
    apply Hweaken, related_refl, sameButOffset_refl. }
  unfold questionLayouterBranchingWithConvergence. rewrite Hq.
  case_decide; [apply Hweaken, related_refl, sameButOffset_refl|].
  cbn zeta. case_decide; [apply Hweaken, plain_final_offsets|].
  set (connections := buildConnections _ _).
  destruct (convergenceCoord _ _) as [root|e]; cbn [snd].
  - destruct (sameButOffset_moveCoordTo root 0 0 (markHidden connections st))
      as (Hq' & Hc' & Hb').
    change (Inputs.questionNode (markHidden connections st))
      with (Inputs.questionNode st) in Hq'.
    rewrite Hq in Hq'.
    split; [exact Hq'|]. split; [exact Hc'|].
    apply Forall2_same_length_lookup_2.
    { apply Forall2_length in Hb'. rewrite <-Hb'.
      by rewrite markHidden_branches_length. }
    intros j b b' Hb Hfinal.
    pose proof (onlyHides_markHidden connections st) as Hmarked.
    destruct (Forall2_lookup_l _ _ _ _ _ Hmarked Hb) as (b1 & Hb1 & Hhides).
    destruct (Forall2_lookup_l _ _ _ _ _ Hb' Hb1) as (b2 & Hb2 & Hoffset).
    assert (b2 = b') as -> by congruence.
    by eapply onlyHides_then_offset.
  - cbn. rewrite Hq. repeat split.
    + constructor. apply sameButOffset_refl.
    + apply Forall_Forall2_diag, Forall_forall. intros n _.
      apply sameButOffset_refl.
    + apply onlyHides_markHidden.
Qed.

(** ** The groups of choices *)

Lemma holes_sorted (l : list (option Connection)) k :
  (∀ j c, array_get l j = Some c → c.1 = (k + j)%nat) →
  StronglySorted lt (omap id l).*1 ∧ Forall (λ x, (k ≤ x)%nat) (omap id l).*1.
Proof.
  revert k. induction l as [|a l IH]; intros k Hl.
  - split; constructor.
  - destruct (IH (S k)) as [Hsorted Hlow].
    { intros j c Hj. rewrite (Hl (S j) c Hj). lia. }
    destruct a as [c|]; cbn; [|split; [done|]].
    + rewrite (Hl 0%nat c eq_refl), Nat.add_0_r. split.
      * constructor; [done|]. eapply Forall_impl; [done|]. cbn. lia.
      * constructor; [done|]. eapply Forall_impl; [done|]. cbn. lia.
    + eapply Forall_impl; [done|]. cbn. lia.
Qed.

(** X5.  The groups the choices are laid out in.  The reachable connections
    list every choice index exactly once; they come in the order of their
    case indices; and the group of a case holds the choices that lead to it
    ([convergenceMap.get(i) ?? i]), in input order, and is never empty. *)
Theorem connections_partition m nChoices :
  flat_map snd (reachable (buildConnections m nChoices)) ≡ₚ seq 0 nChoices
  ∧ StronglySorted lt (reachable (buildConnections m nChoices)).*1
  ∧ ∀ caseIdx choiceIndices,
      (caseIdx, choiceIndices) ∈ reachable (buildConnections m nChoices)
      ↔ choiceIndices ≠ []
        ∧ choiceIndices
          = filter (λ i, default i (m !! i) = caseIdx) (seq 0 nChoices).
Proof.
  split; [|split].
  - symmetry. apply submseteq_length_Permutation.
    + apply NoDup_submseteq; [apply NoDup_seq|].
      intros i [_ Hi]%elem_of_seq. apply elem_of_flat_map.
      exists (caseOf m i, choicesOf m nChoices (caseOf m i)).
      assert (i ∈ choicesOf m nChoices (caseOf m i)) as Hin.
      { apply elem_of_choicesOf. split; [lia|done]. }
      split; [|done]. apply elem_of_reachable. split; [done|].
      intros Hnil. rewrite Hnil in Hin. by apply elem_of_nil in Hin.
    + rewrite buildConnections_members, length_seq. done.
  - apply (holes_sorted _ 0%nat). intros j c Hj.
    rewrite buildConnections_get in Hj.
    by destruct (choicesOf m nChoices j); simplify_eq.
  - intros caseIdx choiceIndices. rewrite elem_of_reachable.
    unfold choicesOf, caseOf. tauto.
Qed.

(** ** The edge ids of the plain branching layout *)

Lemma edge_id_inj (prefix suffix suffix' : string) (a a' : string) :
  "edge/" +:+ prefix +:+ suffix +:+ a = "edge/" +:+ prefix +:+ suffix' +:+ a' →
  suffix +:+ a = suffix' +:+ a'.
Proof. intros H. by do 2 apply String.app_inj in H. Qed.

(** X6.  The ids of the edges [calculateEdges] returns are pairwise distinct
    exactly when the ids of the branch nodes are. *)
Theorem calculateEdges_ids containerBoundary questionNode branchNodes :
  NoDup (Edge.id <$> calculateEdges containerBoundary questionNode branchNodes)
  ↔ NoDup (GraphNode.id <$> branchNodes).
Proof.
  unfold calculateEdges.
  set (p := GraphNode.id questionNode).
  set (toBranch := λ x : GraphNode.t, Edge.mk _ _ _ _ _ _).
  assert (Edge.id <$> map toBranch branchNodes
          = (λ s, "edge/" +:+ p +:+ "/case/baseline->" +:+ s)
            <$> (GraphNode.id <$> branchNodes)) as Hids.
  { clearbody p. induction branchNodes as [|b l IH]; [done|].
    cbn [map fmap list_fmap]. by rewrite <-IH. }
  assert (NoDup (Edge.id <$> map toBranch branchNodes)
          ↔ NoDup (GraphNode.id <$> branchNodes)) as Hbranches.
  { rewrite Hids. apply NoDup_fmap. intros s s' Heq.
    apply edge_id_inj in Heq. by apply String.app_inj in Heq. }
  assert (∀ s, s ∈ Edge.id <$> map toBranch branchNodes →
            ∃ a, s = "edge/" +:+ p +:+ "/case/baseline->" +:+ a) as Hshape.
  { intros s. rewrite Hids. intros (a & -> & _)%list_elem_of_fmap. eauto. }
  case_decide.
  - rewrite !fmap_app. cbn [fmap list_fmap Edge.id app].
    rewrite NoDup_cons, NoDup_app, Hbranches. split; [tauto|].
    intros Hnodup. split; [|split; [done|split]].
    + intros [Hin|Hin]%elem_of_app.
      * apply Hshape in Hin as [a Ha].
        apply (edge_id_inj p "/switch/condition->switch" _ "") in Ha.
        discriminate.
      * apply list_elem_of_singleton in Hin.
        apply (edge_id_inj p "/switch/condition->switch" "/baseline" "" "")
          in Hin.
        discriminate.
    + intros s [a Ha]%Hshape ->%list_elem_of_singleton.
      apply (edge_id_inj p "/baseline" _ "") in Ha. discriminate.
    + apply NoDup_singleton.
  - rewrite !fmap_app. cbn [fmap list_fmap Edge.id app].
    rewrite NoDup_cons, Hbranches. split; [tauto|].
    intros Hnodup. split; [|done].
    intros [a Ha]%Hshape.
    apply (edge_id_inj p "/switch/condition->switch" _ "") in Ha.
    discriminate.
Qed.

End Layouter.

(** * The layouter on concrete inputs *)

Local Abbreviation sampleLayouter :=
  (questionLayouter Sample.BranchIntervalX Sample.BranchIntervalY
     Sample.ElementInterval Sample.uncentredAxisX).

Lemma questionLayouter_choice_without_redirect_witness :
  Forall (noRedirect (Inputs.branchNodes Sample.unredirected))
    (Inputs.choiceNodes Sample.unredirected)
  ∧ sampleLayouter Sample.unredirected
    = questionLayouterBranching Sample.BranchIntervalX Sample.BranchIntervalY
        Sample.ElementInterval Sample.uncentredAxisX Sample.unredirected.
Proof.
  assert (Forall (noRedirect (Inputs.branchNodes Sample.unredirected))
            (Inputs.choiceNodes Sample.unredirected)) as Hall.
  { constructor; [|constructor; [|constructor; [|constructor]]].
    - right. left. reflexivity.
    - right. right. intros b Hb.
      repeat (apply elem_of_cons in Hb as [->|Hb]; [discriminate|]).
      by apply elem_of_nil in Hb.
    - left. reflexivity. }
  split; [exact Hall|].
  apply (questionLayouter_choice_without_redirect _ _ _ _
           Sample.unredirected (Sample.question "choice"));
    [reflexivity|reflexivity|exact Hall].
Defined.

Lemma questionLayouter_empty_witness :
  sampleLayouter (Inputs.mk None [Sample.choiceA] [Sample.caseA])
  = (Normal GraphLayout.empty,
     Inputs.mk None [Sample.choiceA] [Sample.caseA])
  ∧ sampleLayouter
      (Inputs.mk (Some (Sample.question "choice")) [Sample.choiceA] [])
    = (Normal GraphLayout.empty,
       Inputs.mk (Some (Sample.question "choice")) [Sample.choiceA] []).
Proof.
  split.
  - apply (questionLayouter_empty _ _ _ _
             (Inputs.mk None [Sample.choiceA] [Sample.caseA])).
    left. reflexivity.
  - apply (questionLayouter_empty _ _ _ _
             (Inputs.mk (Some (Sample.question "choice"))
                [Sample.choiceA] [])).
    right. exists (Sample.question "choice").
    split; [reflexivity|]. split; [right; reflexivity|reflexivity].
Defined.

Lemma questionLayouter_non_branching_witness :
  ∃ layout,
    sampleLayouter (Sample.three "text") = (Normal layout, Sample.three "text")
    ∧ Boundary.width (GraphLayout.boundary layout) = 300%Q
    ∧ Boundary.height (GraphLayout.boundary layout) = 286%Q
    ∧ GraphLayout.edges layout = []
    ∧ GraphLayout.nodeMap layout = NodeMap.mk (Some QuestionRef) None None.
Proof.
  apply (questionLayouter_non_branching _ _ _ _
           (Sample.three "text") (Sample.question "text"));
    [reflexivity|discriminate|discriminate].
Defined.

Lemma questionLayouter_confirm_attachments_witness :
  ∃ pairs layout st',
    choiceWithBranchNodes Sample.ElementInterval (Sample.three "confirm")
    = Normal pairs
    ∧ length pairs = 3%nat
    ∧ sampleLayouter (Sample.three "confirm") = (Normal layout, st')
    ∧ length (directed EdgeDirection.Right (GraphLayout.edges layout))
      = 1%nat
    ∧ ∃ c' b',
        Inputs.choiceNodes st' !! 1%nat = Some c'
        ∧ Inputs.branchNodes st' !! 1%nat = Some b'
        ∧ attachedBelow Sample.ElementInterval c' b'.
Proof.
  destruct (questionLayouter_confirm_attachments
              Sample.BranchIntervalX Sample.BranchIntervalY
              Sample.ElementInterval Sample.uncentredAxisX
              (Sample.three "confirm") (Sample.question "confirm")
              eq_refl eq_refl)
    as (pairs & layout & st' & Hpairs & Hlen & _ & Hret & Hmany & _ & _
        & Hattached & _).
  exists pairs, layout, st'.
  split; [exact Hpairs|]. split; [exact Hlen|]. split; [exact Hret|].
  split.
  - destruct Hmany as (q' & first & last & _ & _ & _ & ->); [cbn; lia|].
    reflexivity.
  - exact (Hattached 1%nat Sample.choiceB Sample.caseB eq_refl eq_refl).
Defined.

Lemma questionLayouter_confirm_three_witness :
  ∃ layout st',
    sampleLayouter (Sample.three "confirm") = (Normal layout, st')
    ∧ length (GraphLayout.edges layout) = 5%nat
    ∧ (Boundary.height (GraphLayout.boundary layout) == 490)%Q.
Proof.
  destruct (questionLayouter_confirm_three
              Sample.BranchIntervalX Sample.BranchIntervalY
              Sample.ElementInterval Sample.uncentredAxisX
              (Sample.three "confirm") (Sample.question "confirm")
              Sample.choiceA Sample.choiceB Sample.choiceC
              Sample.caseA Sample.caseB Sample.caseC
              eq_refl eq_refl eq_refl eq_refl)
    as (layout & st' & Hret & _ & Hlen & _ & _ & Hheight).
  { vm_compute. discriminate. }
  exists layout, st'. split; [exact Hret|]. split; [exact Hlen|].
  rewrite Hheight. vm_compute. reflexivity.
Defined.

(** Four edges is one short: the edges are five. *)
Lemma confirm_three_edges_counterexample :
  ∃ layout,
    (sampleLayouter (Sample.three "confirm")).1 = Normal layout
    ∧ length (GraphLayout.edges layout) = 5%nat
    ∧ length (GraphLayout.edges layout) ≠ 4%nat.
Proof.
  eexists. split; [vm_compute; reflexivity|].
  split; [reflexivity|discriminate].
Qed.

Lemma converging_in_range : casesInRange Sample.converging.
Proof.
  unfold casesInRange.
  apply (bool_decide_unpack
           (Forall
              (λ i, (caseOf (buildConvergenceMap Sample.converging) i
                     < length (Inputs.branchNodes Sample.converging))%nat)
              (seq 0 (length (Inputs.choiceNodes Sample.converging))))).
  by vm_compute.
Qed.

Lemma convergence_hidden_branches_witness :
  size (buildConvergenceMap Sample.converging) ≠ 0%nat
  ∧ casesInRange Sample.converging
  ∧ ∃ hiddenCase keptCase layout p,
      Inputs.branchNodes (sampleLayouter Sample.converging).2 !! 0%nat
      = Some hiddenCase
      ∧ GraphNode.hidden hiddenCase = true
      ∧ Inputs.branchNodes (sampleLayouter Sample.converging).2 !! 2%nat
        = Some keptCase
      ∧ GraphNode.hidden keptCase = false
      ∧ (sampleLayouter Sample.converging).1 = Normal layout
      ∧ keptCase
        = GraphNode.set_offset Sample.caseC (CoordPoint.shift 0 0 p).
Proof.
  assert (size (buildConvergenceMap Sample.converging) ≠ 0%nat) as Hsize
    by (vm_compute; discriminate).
  split; [exact Hsize|]. split; [exact converging_in_range|].
  destruct (convergence_hidden_branches
              Sample.BranchIntervalX Sample.BranchIntervalY
              Sample.ElementInterval Sample.uncentredAxisX
              Sample.converging (Sample.question "choice")
              eq_refl eq_refl Hsize) as [Hhidden Hgeometry].
  destruct (Hhidden 0%nat Sample.caseA eq_refl) as (b0 & Hb0 & Hnone & _).
  destruct (Hhidden 2%nat Sample.caseC eq_refl) as (b2 & Hb2 & _ & Hsome).
  destruct (Hgeometry converging_in_range)
    as (layout & root & Hret & _ & _ & Hplaced).
  assert (∃ i, (i < length (Inputs.choiceNodes Sample.converging))%nat
               ∧ caseOf (buildConvergenceMap Sample.converging) i = 2%nat)
    as Hleads.
  { exists 2%nat. split; [cbn; lia|]. by vm_compute. }
  destruct (Hplaced 2%nat Sample.caseC eq_refl Hleads) as (p & _ & Hb2').
  exists b0, b2, layout, p. split; [exact Hb0|]. split.
  - apply Hnone. intros i Hi. cbn in Hi.
    destruct i as [|[|[|i]]]; [vm_compute; discriminate..|lia].
  - split; [exact Hb2|]. split; [by rewrite Hsome|].
    split; [exact Hret|]. congruence.
Defined.

Lemma convergence_edges_witness :
  casesInRange Sample.converging
  ∧ ∃ layout st',
      sampleLayouter Sample.converging = (Normal layout, st')
      ∧ length (directed EdgeDirection.Up (GraphLayout.edges layout)) = 1%nat
      ∧ length (directed EdgeDirection.Right (GraphLayout.edges layout))
        = 2%nat
      ∧ length (directed EdgeDirection.Down (GraphLayout.edges layout))
        = 7%nat.
Proof.
  split; [exact converging_in_range|].
  destruct (convergence_edges
              Sample.BranchIntervalX Sample.BranchIntervalY
              Sample.ElementInterval Sample.uncentredAxisX
              Sample.converging (Sample.question "choice")
              eq_refl eq_refl)
    as (layout & st' & q' & Hret & _ & _ & _ & Hup & Hright & Hdown).
  { vm_compute. discriminate. }
  { exact converging_in_range. }
  exists layout, st'. split; [exact Hret|].
  rewrite Hup, Hright, Hdown. repeat split; by vm_compute.
Defined.



Lemma questionLayouter_twice_witness :
  sampleLayouter (sampleLayouter Sample.converging).2
  = sampleLayouter Sample.converging
  ∧ (sampleLayouter (Sample.three "confirm")).1
    = (sampleLayouter
         (Inputs.mk (Some (Sample.question "confirm"))
            [Sample.choiceA; Sample.choiceB; Sample.choiceC]
            [Sample.caseA; Sample.caseB;
             GraphNode.set_offset Sample.caseC (CoordPoint.mk 5 5)])).1.
Proof.
  split.
  - apply (questionLayouter_twice
             Sample.BranchIntervalX Sample.BranchIntervalY
             Sample.ElementInterval Sample.uncentredAxisX Sample.converging).
  - apply (questionLayouter_twice
             Sample.BranchIntervalX Sample.BranchIntervalY
             Sample.ElementInterval Sample.uncentredAxisX
             (Sample.three "confirm")).
    + repeat split; cbn; repeat constructor.
    + intros _. cbn. lia.
Defined.

(** Prior offsets do affect the outcome: with one choice and two branches
    the edge to the second branch is drawn to where that branch stood before
    the layout. *)
Lemma prior_offset_counterexample :
  related sameButOffset (Sample.surplus CoordPoint.origin)
    (Sample.surplus (CoordPoint.mk 5 5))
  ∧ ∃ layout layout',
      (sampleLayouter (Sample.surplus CoordPoint.origin)).1 = Normal layout
      ∧ (sampleLayouter (Sample.surplus (CoordPoint.mk 5 5))).1
        = Normal layout'
      ∧ Edge.x <$> GraphLayout.edges layout
        ≠ Edge.x <$> GraphLayout.edges layout'.
Proof.
  split.
  - repeat split; cbn; repeat constructor.
  - eexists _, _. split; [by vm_compute|]. split; [by vm_compute|].
    vm_compute. discriminate.
Qed.

(** ** The spec's convergence example

    Choices [[A, B, C]] with [A.gotoChoice = C.choiceId], branches
    [[caseA, caseB, caseC]]: the groups are [B] under [caseB] and [A, C] under
    [caseC]; [caseA] is hidden; only the group of [caseC] gets the merging
    [Up] and mid-baseline [Right] edges. *)

Example converging_connections :
  connectionsOf Sample.converging
  = [None; Some (1%nat, [1%nat]); Some (2%nat, [0%nat; 2%nat])].
Proof. by vm_compute. Qed.

Example converging_hidden :
  GraphNode.hidden <$> Inputs.branchNodes (sampleLayouter Sample.converging).2
  = [true; false; false].
Proof. by vm_compute. Qed.

Example converging_edges :
  ∃ layout,
    (sampleLayouter Sample.converging).1 = Normal layout
    ∧ (λ e, (Edge.id e, Edge.direction e)) <$> GraphLayout.edges layout
      = [("edge/q/q->baseline", EdgeDirection.Down);
         ("edge/q/baseline", EdgeDirection.Right);
         ("edge/B/baseline->choice", EdgeDirection.Down);
         ("edge/B/choice->mid-baseline", EdgeDirection.Down);
         ("edge/A/baseline->choice", EdgeDirection.Down);
         ("edge/A/choice->mid-baseline", EdgeDirection.Down);
         ("edge/C/baseline->choice", EdgeDirection.Down);
         ("edge/C/choice->mid-baseline", EdgeDirection.Down);
         ("edge/caseC/mid-baseline->case", EdgeDirection.Up);
         ("edge/caseC/converged/mid-baseline", EdgeDirection.Right)].
Proof. eexists. split; by vm_compute. Qed.

(** The plain layout of three choices and three branches: the five edges. *)
Example confirm_edges :
  ∃ layout,
    (sampleLayouter (Sample.three "confirm")).1 = Normal layout
    ∧ (λ e, (Edge.id e, Edge.direction e)) <$> GraphLayout.edges layout
      = [("edge/q/switch/condition->switch", EdgeDirection.Down);
         ("edge/q/case/baseline->caseA", EdgeDirection.Down);
         ("edge/q/case/baseline->caseB", EdgeDirection.Down);
         ("edge/q/case/baseline->caseC", EdgeDirection.Down);
         ("edge/q/baseline", EdgeDirection.Right)].
Proof. eexists. split; by vm_compute. Qed.

(** ** Where the layouter returns *)

(** Two choices that lead to the one branch node: the second is redirected
    to it. *)
Lemma questionLayouter_returns_in_range_witness :
  ∃ layout,
    (sampleLayouter
       (Inputs.mk (Some (Sample.question "choice"))
          [Sample.choiceC; Sample.choiceAtoC] [Sample.caseC])).1
    = Normal layout.
Proof.
  apply (questionLayouter_returns_in_range _ _ _ _
           (Inputs.mk (Some (Sample.question "choice"))
              [Sample.choiceC; Sample.choiceAtoC] [Sample.caseC])).
  intros q i _ _ _ Hi. cbn [Inputs.choiceNodes Inputs.branchNodes length] in *.
  destruct i as [|[|i]]; [vm_compute; lia..|lia].
Defined.

(** ** Enough branch nodes *)

Lemma questionLayouter_returns_witness :
  ∃ layout, (sampleLayouter Sample.converging).1 = Normal layout.
Proof.
  apply (questionLayouter_returns _ _ _ _ Sample.converging).
  cbn. lia.
Defined.

(** * The scanner of the JSON worker *)

Section ScannerFacts.
Variable text : list Z.

Lemma substring_le (start end_ : nat) :
  start ≤ end_ → JS.substring text start end_ = take (end_ - start) (drop start text).
Proof. intros H. unfold JS.substring. by rewrite Nat.max_r, Nat.min_l by lia. Qed.

Lemma codeIs_Some p a :
  Scanner.codeIs text p a = true ↔ ∃ ch, text !! a = Some ch ∧ p ch = true.
Proof.
  unfold Scanner.codeIs. destruct (text !! a) as [ch|]; split.
  - intros H. eauto.
  - by intros (ch' & [= <-] & H).
  - done.
  - by intros (ch & ? & _).
Qed.

Lemma codeIs_lt p a : Scanner.codeIs text p a = true → a < length text.
Proof. intros (ch & Hch & _)%codeIs_Some. by eapply lookup_lt_Some. Qed.

Lemma advance_bounds p rest a :
  a ≤ Scanner.advance p rest a ≤ a + length rest.
Proof.
  revert a. induction rest as [|ch rest IH]; intros a; cbn; [lia|].
  destruct (p ch); [|lia]. specialize (IH (S a)). lia.
Qed.

Lemma advanceWhile_bounds p a :
  a ≤ Scanner.advanceWhile text p a ≤ a `max` length text.
Proof.
  unfold Scanner.advanceWhile.
  pose proof (advance_bounds p (drop a text) a) as H.
  rewrite length_drop in H. lia.
Qed.

Lemma hexDigits_bound count exact rest digits value :
  digits ≤ (Scanner.hexDigits count exact rest digits value).1
  ≤ digits + length rest.
Proof.
  revert digits value. induction rest as [|ch rest IH]; intros digits value.
  - cbn. destruct (_ || _); cbn; lia.
  - cbn. destruct (_ || _); cbn; [|lia].
    repeat (case_match; [specialize (IH (S digits)); cbn in *;
      match goal with |- context [Scanner.hexDigits _ _ _ _ ?v] =>
        specialize (IH v) end; lia|]).
    cbn. lia.
Qed.

Lemma scanHexDigits_bounds count exact a :
  a ≤ length text →
  a ≤ (Scanner.scanHexDigits text count exact a).1 ≤ length text.
Proof.
  intros Ha. unfold Scanner.scanHexDigits.
  pose proof (hexDigits_bound count exact (drop a text) 0 0%Z) as H.
  destruct (Scanner.hexDigits _ _ _ _ _) as [digits value]. cbn in *.
  rewrite length_drop in H. lia.
Qed.

Lemma scanExponent_bounds start a scanError :
  a ≤ length text →
  a ≤ (Scanner.scanExponent text start a scanError).1.1 ≤ length text.
Proof.
  intros Ha. unfold Scanner.scanExponent. cbn zeta.
  destruct (a <? length text) eqn:Hlt; cbn [andb]; [|cbn; lia].
  apply Nat.ltb_lt in Hlt.
  destruct (_ || _); [|cbn; lia].
  set (a2 := if _ || _ then S (S a) else S a).
  assert (a < a2 ≤ length text) as Ha2.
  { unfold a2.
    destruct (S a <? length text) eqn:Hlt2; cbn [andb].
    - apply Nat.ltb_lt in Hlt2. destruct (_ || _); lia.
    - rewrite orb_false_l.
      destruct (Scanner.codeIs text (Z.eqb 45) (S a)) eqn:H45; [|lia].
      apply codeIs_lt in H45. lia. }
  clearbody a2.
  destruct (a2 <? length text) eqn:Hlt3; cbn [andb]; [|cbn; lia].
  apply Nat.ltb_lt in Hlt3.
  destruct (Scanner.codeIs text Scanner.isDigit a2); cbn; [|lia].
  pose proof (advanceWhile_bounds Scanner.isDigit (S a2)). lia.
Qed.

(** [scanNumber] ends after its first digit and within the text. *)
Lemma scanNumber_bounds a scanError :
  a < length text →
  a < (Scanner.scanNumber text a scanError).1.1 ≤ length text.
Proof.
  intros Ha. unfold Scanner.scanNumber. cbn zeta.
  set (a1 := if Scanner.codeIs text (Z.eqb 48) a then S a
             else Scanner.advanceWhile text Scanner.isDigit (S a)).
  assert (a < a1 ≤ length text) as Ha1.
  { unfold a1. destruct (Scanner.codeIs _ _ a); [lia|].
    pose proof (advanceWhile_bounds Scanner.isDigit (S a)). lia. }
  clearbody a1.
  destruct (a1 <? length text) eqn:Hlt; cbn [andb]; last first.
  { pose proof (scanExponent_bounds a a1 scanError). lia. }
  apply Nat.ltb_lt in Hlt.
  destruct (Scanner.codeIs text (Z.eqb 46) a1); last first.
  { pose proof (scanExponent_bounds a a1 scanError). lia. }
  destruct (S a1 <? length text) eqn:Hlt2; cbn [andb negb]; [|cbn; lia].
  apply Nat.ltb_lt in Hlt2.
  destruct (Scanner.codeIs text Scanner.isDigit (S a1)); cbn [negb];
    [|cbn; lia].
  pose proof (advanceWhile_bounds Scanner.isDigit (S (S a1))).
  pose proof (scanExponent_bounds a
                (Scanner.advanceWhile text Scanner.isDigit (S (S a1)))
                scanError).
  lia.
Qed.

(** With fuel for every position left, [scanString] returns, no further
    than the end of the text. *)
Lemma scanString_loop_returns fuel a result start scanError :
  a ≤ length text →
  length text - a < fuel →
  ∃ a' value scanError',
    Scanner.scanString_loop text fuel a result start scanError
    = Some (a', value, scanError')
    ∧ a ≤ a' ≤ length text.
Proof.
  revert a result start scanError.
  induction fuel as [|fuel IH]; intros a result start scanError Ha Hfuel;
    [lia|].
  cbn [Scanner.scanString_loop].
  destruct (text !! a) as [ch|] eqn:Hch; [|eauto 10 with lia].
  apply lookup_lt_Some in Hch as Hlt.
  destruct (ch =? 34)%Z; [eauto 10 with lia|].
  destruct (negb (ch =? 92)%Z).
  { destruct (_ && _).
    - destruct (Scanner.isLineBreak ch); [eauto 10 with lia|].
      destruct (IH (S a) result start 6) as (a' & v & e & -> & ?); [lia..|].
      eauto 10 with lia.
    - destruct (IH (S a) result start scanError) as (a' & v & e & -> & ?);
        [lia..|].
      eauto 10 with lia. }
  cbn zeta.
  destruct (text !! S a) as [ch2|] eqn:Hch2; [|eauto 10 with lia].
  apply lookup_lt_Some in Hch2 as Hlt2.
  set (step := if (ch2 =? 34)%Z then _ else _).
  assert (S (S a) ≤ step.1.1 ≤ length text) as Hstep.
  { unfold step.
    repeat (case_match; [cbn; lia|]).
    case_match; [|cbn; lia].
    pose proof (scanHexDigits_bounds 4 true (S (S a)) ltac:(lia)) as Hhex.
    destruct (Scanner.scanHexDigits text 4 true (S (S a))) as [a3 ch3].
    cbn in Hhex. destruct (0 <=? ch3)%Z; cbn; lia. }
  destruct step as [[a3 result3] scanError3]. cbn in Hstep.
  destruct (IH a3 result3 a3 scanError3) as (a' & v & e & -> & ?); [lia..|].
  eauto 10 with lia.
Qed.

Lemma scanString_returns a scanError :
  a ≤ length text →
  ∃ a' value scanError',
    Scanner.scanString text a scanError = Some (a', value, scanError')
    ∧ a ≤ a' ≤ length text.
Proof. intros Ha. apply scanString_loop_returns; lia. Qed.

Lemma blockComment_bounds rest a lineNumber tokenLineStartOffset :
  a ≤ (Scanner.blockComment rest a lineNumber tokenLineStartOffset).1.1.1
  ≤ a + length rest.
Proof.
  revert a lineNumber tokenLineStartOffset.
  induction rest as [rest IH] using (induction_ltof1 _ length).
  unfold ltof in IH. intros a lineNumber tokenLineStartOffset.
  destruct rest as [|ch [|next rest]]; cbn; [lia..|].
  destruct (_ && _)%Z; [cbn; lia|].
  destruct (Scanner.isLineBreak ch).
  - destruct (_ && _)%Z.
    + pose proof (IH rest ltac:(cbn; lia) (S (S a)) (S lineNumber) (S (S a))).
      lia.
    + pose proof (IH (next :: rest) ltac:(cbn; lia) (S a) (S lineNumber)
                    (S a)).
      cbn in *. lia.
  - pose proof (IH (next :: rest) ltac:(cbn; lia) (S a) lineNumber
                  tokenLineStartOffset).
    cbn in *. lia.
Qed.

(** A comment that is not closed ends one or no position before the end. *)
Lemma blockComment_open rest a lineNumber tokenLineStartOffset :
  (Scanner.blockComment rest a lineNumber tokenLineStartOffset).1.1.2 = false →
  a + length rest
  ≤ S (Scanner.blockComment rest a lineNumber tokenLineStartOffset).1.1.1.
Proof.
  revert a lineNumber tokenLineStartOffset.
  induction rest as [rest IH] using (induction_ltof1 _ length).
  unfold ltof in IH. intros a lineNumber tokenLineStartOffset.
  destruct rest as [|ch [|next rest]]; cbn; [lia..|].
  destruct (_ && _)%Z; [done|].
  destruct (Scanner.isLineBreak ch).
  - destruct (_ && _)%Z.
    + intros H.
      pose proof (IH rest ltac:(cbn; lia) (S (S a)) (S lineNumber) (S (S a)) H).
      lia.
    + intros H.
      pose proof (IH (next :: rest) ltac:(cbn; lia) (S a) (S lineNumber)
                    (S a) H).
      cbn in *. lia.
  - intros H.
    pose proof (IH (next :: rest) ltac:(cbn; lia) (S a) lineNumber
                  tokenLineStartOffset H).
    cbn in *. lia.
Qed.

Lemma whiteSpace_bounds rest a value :
  a ≤ (Scanner.whiteSpace rest a value).1 ≤ a + length rest.
Proof.
  revert a value. induction rest as [|ch rest IH]; intros a value; cbn; [lia|].
  destruct (Scanner.isWhiteSpace ch); cbn; [|lia].
  specialize (IH (S a) (value ++ [ch])). lia.
Qed.


(** What a call of [scanNext] inside the text gives. *)
Lemma scanNext_inside st ch :
  text !! Scanner.pos st = Some ch →
  ∃ st',
    Scanner.scanNext text st = Some st'
    ∧ Scanner.tokenOffset st' = Scanner.pos st
    ∧ Scanner.pos st < Scanner.pos st' ≤ S (length text)
    ∧ Scanner.token st' ≠ 17
    ∧ (Scanner.scanError st' ≠ 1 → Scanner.pos st' ≤ length text)
    ∧ (Scanner.token st' = 12 ∨ Scanner.token st' = 13 →
       ch = 47%Z
       ∧ Scanner.value st'
         = JS.substring text (Scanner.pos st - 1) (Scanner.pos st')).
Proof.
  intros Hch. apply lookup_lt_Some in Hch as Hlt.
  unfold Scanner.scanNext. rewrite Hch. cbn zeta.
  set (a := Scanner.pos st) in *.
  assert (∀ b v k e,
            a < b ≤ length text → k ≠ 17 → k ≠ 12 → k ≠ 13 →
            ∃ st',
              Some (Scanner.mk b v a k (Scanner.lineNumber st)
                      (Scanner.lineNumber st)
                      (Scanner.tokenLineStartOffset st)
                      (Scanner.tokenLineStartOffset st) e) = Some st'
              ∧ Scanner.tokenOffset st' = a
              ∧ a < Scanner.pos st' ≤ S (length text)
              ∧ Scanner.token st' ≠ 17
              ∧ (Scanner.scanError st' ≠ 1 → Scanner.pos st' ≤ length text)
              ∧ (Scanner.token st' = 12 ∨ Scanner.token st' = 13 →
                 ch = 47%Z
                 ∧ Scanner.value st'
                   = JS.substring text (a - 1) (Scanner.pos st'))) as Hplain.
  { intros b v k e Hb Heof Hline Hblock. eexists. split; [done|]. cbn.
    repeat split; [lia..|done|lia|tauto|tauto]. }
  destruct (Scanner.isWhiteSpace ch) eqn:Hspace.
  { rewrite (drop_S _ _ _ Hch). cbn [Scanner.whiteSpace]. rewrite Hspace.
    pose proof (whiteSpace_bounds (drop (S a) text) (S a) ([] ++ [ch]))
      as Hws.
    destruct (Scanner.whiteSpace _ _ _) as [b v]. cbn in Hws.
    rewrite length_drop in Hws. apply Hplain; lia. }
  destruct (Scanner.isLineBreak ch) eqn:Hbreak.
  { destruct (_ && _) eqn:Hcrlf.
    - apply andb_prop in Hcrlf as [_ Hlf%codeIs_lt].
      eexists. split; [done|]. cbn.
      repeat split; try lia; try done; by intros [|].
    - eexists. split; [done|]. cbn.
      repeat split; try lia; try done; by intros [|]. }
  repeat (case_match; [apply Hplain; lia|]).
  case_match.
  { (* a string *)
    destruct (scanString_returns (S a) 0 ltac:(lia))
      as (b & v & e & -> & Hb).
    cbn. apply Hplain; lia. }
  destruct (ch =? 47)%Z eqn:Hslash.
  { (* a comment, or a slash *)
    apply Z.eqb_eq in Hslash as ->.
    destruct (Scanner.codeIs text (Z.eqb 47) (a + 1)) eqn:Hline.
    { apply codeIs_lt in Hline.
      pose proof (advanceWhile_bounds
                    (λ ch, negb (Scanner.isLineBreak ch)) (a + 2)) as Hb.
      eexists. split; [done|]. cbn.
      repeat split; try lia; done. }
    destruct (Scanner.codeIs text (Z.eqb 42) (a + 1)) eqn:Hblock;
      [|apply Hplain; lia].
    apply codeIs_lt in Hblock.
    pose proof (blockComment_bounds (drop (a + 2) text) (a + 2)
                  (Scanner.lineNumber st) (Scanner.tokenLineStartOffset st))
      as Hb.
    rewrite length_drop in Hb.
    destruct (Scanner.blockComment _ _ _ _) as [[[b closed] line] lineStart].
    cbn in Hb.
    destruct closed; eexists; (split; [done|]); cbn;
      repeat split; try lia; done. }
  assert (∀ v b, a ≤ b < length text →
            ∃ st',
              (let '(b', digits, e) := Scanner.scanNumber text b 0 in
               Some (Scanner.mk b' (v ++ digits) a 11
                       (Scanner.lineNumber st) (Scanner.lineNumber st)
                       (Scanner.tokenLineStartOffset st)
                       (Scanner.tokenLineStartOffset st) e)) = Some st'
              ∧ Scanner.tokenOffset st' = a
              ∧ a < Scanner.pos st' ≤ S (length text)
              ∧ Scanner.token st' ≠ 17
              ∧ (Scanner.scanError st' ≠ 1 → Scanner.pos st' ≤ length text)
              ∧ (Scanner.token st' = 12 ∨ Scanner.token st' = 13 →
                 ch = 47%Z
                 ∧ Scanner.value st'
                   = JS.substring text (a - 1) (Scanner.pos st'))) as Hnumber.
  { intros v b Hb. pose proof (scanNumber_bounds b 0 ltac:(lia)) as Hb'.
    destruct (Scanner.scanNumber text b 0) as [[b' digits] e]. cbn in Hb'.
    apply Hplain; lia. }
  cbn zeta. case_match.
  { (* a minus sign *)
    destruct (bool_decide (S a = length text)) eqn:Hend; cbn [orb];
      [apply Hplain; lia|].
    destruct (Scanner.codeIs text Scanner.isDigit (S a)) eqn:Hdigit;
      cbn [negb]; [|apply Hplain; lia].
    apply codeIs_lt in Hdigit. apply Hnumber. lia. }
  case_match; [apply Hnumber; lia|].
  (* a word *)
  pose proof (advance_bounds Scanner.isUnknownContentCharacter
                (drop a text) a) as Hb.
  rewrite length_drop in Hb.
  case_bool_decide; [|apply Hplain; lia].
  repeat case_match; apply Hplain; lia.
Qed.

(** At the end of the text and past it [scanNext] gives the end-of-input
    token and stays where it is. *)
Lemma scanNext_outside st :
  length text ≤ Scanner.pos st →
  Scanner.scanNext text st
  = Some (Scanner.mk (Scanner.pos st) [] (length text) 17
            (Scanner.lineNumber st) (Scanner.lineNumber st)
            (Scanner.tokenLineStartOffset st)
            (Scanner.tokenLineStartOffset st) 0).
Proof.
  intros Hpos. unfold Scanner.scanNext.
  by rewrite (lookup_ge_None_2 _ _ Hpos).
Qed.

(** X7.  Scanning always returns and makes progress.  Before the end of the
    text [scan] gives a token other than end-of-input that starts at the
    position the scanner had and ends strictly after it; at the end of the
    text and past it, it gives the end-of-input token, with an empty value,
    an offset equal to the length of the text and the position unchanged. *)
Theorem scan_progress st :
  ∃ st',
    Scanner.scan text false st = Some st'
    ∧ ((Scanner.pos st < length text
        ∧ Scanner.getToken st' ≠ 17
        ∧ Scanner.getTokenOffset st' = Scanner.pos st
        ∧ Scanner.pos st < Scanner.getPosition st')
       ∨ (length text ≤ Scanner.pos st
          ∧ Scanner.getToken st' = 17
          ∧ Scanner.getTokenValue st' = []
          ∧ Scanner.getTokenOffset st' = length text
          ∧ Scanner.getPosition st' = Scanner.pos st)).
Proof.
  unfold Scanner.scan.
  destruct (text !! Scanner.pos st) as [ch|] eqn:Hch.
  - destruct (scanNext_inside st ch Hch)
      as (st' & -> & Hoffset & Hpos & Htoken & _).
    exists st'. split; [done|]. left.
    apply lookup_lt_Some in Hch. unfold Scanner.getPosition.
    split; [done|]. split; [done|]. split; [done|]. lia.
  - apply lookup_ge_None in Hch. rewrite scanNext_outside by done.
    eexists. split; [done|]. right. by repeat split.
Qed.

(** X8.  Where a token ends.  A scan that starts within the text ends within
    it, except that the token of a block comment that is not closed (scan
    error 1) may end one position past the end of the text; and it does so
    for every text that ends in the two code units that open a block
    comment. *)
Theorem scan_end st st' :
  Scanner.scan text false st = Some st' →
  Scanner.pos st ≤ length text →
  Scanner.getPosition st' ≤ S (length text)
  ∧ (Scanner.getTokenError st' ≠ 1 → Scanner.getPosition st' ≤ length text)
  ∧ (drop (Scanner.pos st) text = JS.codes "/*" →
     Scanner.getToken st' = 13
     ∧ Scanner.getTokenError st' = 1
     ∧ Scanner.getPosition st' = S (length text)).
Proof.
  unfold Scanner.scan. intros Hscan Hpos.
  destruct (text !! Scanner.pos st) as [ch|] eqn:Hch.
  - destruct (scanNext_inside st ch Hch) as (st1 & Hst1 & _ & Hb & _ & He & _).
    assert (st1 = st') as -> by congruence.
    split; [unfold Scanner.getPosition; lia|]. split; [done|].
    intros Htail.
    assert (length text = Scanner.pos st + 2) as Hlen.
    { apply (f_equal length) in Htail. rewrite length_drop in Htail.
      cbn in Htail. lia. }
    rewrite (drop_S _ _ _ Hch) in Htail. injection Htail as -> Htail.
    unfold Scanner.scanNext in Hscan. rewrite Hch in Hscan.
    cbn [Scanner.isWhiteSpace Scanner.isLineBreak Z.eqb Z.leb Z.compare
           Pos.compare Pos.compare_cont Pos.eqb orb andb] in Hscan.
    assert (text !! (Scanner.pos st + 1) = Some 42%Z) as Hstar.
    { replace (Scanner.pos st + 1) with (S (Scanner.pos st) + 0) by lia.
      by rewrite <-lookup_drop, Htail. }
    unfold Scanner.codeIs in Hscan. rewrite Hstar in Hscan.
    cbn [Z.eqb Pos.eqb] in Hscan.
    rewrite (drop_ge text (Scanner.pos st + 2)) in Hscan by lia.
    cbn in Hscan. injection Hscan as <-. cbn. repeat split; lia.
  - apply lookup_ge_None in Hch. rewrite scanNext_outside in Hscan by done.
    injection Hscan as <-. cbn.
    assert (Scanner.pos st = length text) as Heq by lia.
    split; [lia|]. split; [lia|].
    intros Htail. apply (f_equal length) in Htail.
    rewrite length_drop in Htail. cbn in Htail. lia.
Qed.

(** X9.  What a comment token holds.  The value of a comment token starts
    one code unit before the comment (at the comment itself only at the
    start of the text): for a comment that starts after the first code unit
    and ends within the text, the value is one code unit longer than the
    token. *)
Theorem scan_comment_value st st' :
  Scanner.scan text false st = Some st' →
  Scanner.getToken st' = 12 ∨ Scanner.getToken st' = 13 →
  Scanner.getTokenValue st'
  = JS.substring text (Scanner.pos st - 1) (Scanner.getPosition st')
  ∧ (0 < Scanner.pos st →
     Scanner.getPosition st' ≤ length text →
     Z.of_nat (length (Scanner.getTokenValue st'))
     = (Scanner.getTokenLength st' + 1)%Z).
Proof.
  unfold Scanner.scan. intros Hscan Hcomment.
  destruct (text !! Scanner.pos st) as [ch|] eqn:Hch; last first.
  { apply lookup_ge_None in Hch. rewrite scanNext_outside in Hscan by done.
    injection Hscan as <-. by destruct Hcomment. }
  destruct (scanNext_inside st ch Hch)
    as (st1 & Hst1 & Hoffset & Hb & _ & _ & Hvalue).
  assert (st1 = st') as -> by congruence.
  unfold Scanner.getTokenValue, Scanner.getTokenLength, Scanner.getPosition,
    Scanner.getToken in *.
  destruct (Hvalue Hcomment) as [_ ->]. split; [done|].
  intros Hpos Hend.
  rewrite substring_le by lia.
  rewrite length_take, length_drop, Hoffset. lia.
Qed.

(** With fuel for every position left, the scanner that skips trivia
    returns a token that is not trivia. *)
Lemma scanNextNonTrivia_returns fuel st :
  length text - Scanner.pos st < fuel →
  ∃ st',
    Scanner.scanNextNonTrivia text fuel st = Some st'
    ∧ ¬ (12 ≤ Scanner.token st' ≤ 15)
    ∧ Scanner.pos st ≤ Scanner.pos st'.
Proof.
  revert st. induction fuel as [|fuel IH]; intros st Hfuel; [lia|].
  cbn [Scanner.scanNextNonTrivia].
  destruct (text !! Scanner.pos st) as [ch|] eqn:Hch.
  - destruct (scanNext_inside st ch Hch) as (st1 & -> & _ & Hb & _).
    apply lookup_lt_Some in Hch. cbn [mbind option_bind].
    destruct (_ && _) eqn:Htrivia.
    + destruct (IH st1) as (st' & -> & Hnot & Hle); [lia|].
      exists st'. repeat split; [done|lia].
    + exists st1. repeat split; [|lia].
      intros [H1%Nat.leb_le H2%Nat.leb_le]. by rewrite H1, H2 in Htrivia.
  - apply lookup_ge_None in Hch. rewrite scanNext_outside by done.
    cbn [mbind option_bind Scanner.token Nat.leb andb].
    eexists. repeat split; cbn; lia.
Qed.

(** X10.  The scanner created with [ignoreTrivia] never hands out trivia:
    [scan] returns, and its token is neither a comment (12, 13) nor a line
    break (14) nor white space (15); it never moves backwards. *)
Theorem scan_ignoreTrivia st :
  ∃ st',
    Scanner.scan text true st = Some st'
    ∧ ¬ (12 ≤ Scanner.getToken st' ≤ 15)
    ∧ Scanner.pos st ≤ Scanner.getPosition st'.
Proof. unfold Scanner.scan. apply scanNextNonTrivia_returns. lia. Qed.

Lemma drop_cons_inv (a : nat) (ch : Z) (rest : list Z) :
  drop a text = ch :: rest → text !! a = Some ch ∧ drop (S a) text = rest.
Proof.
  intros Hdrop.
  assert (text !! a = Some ch) as Hch.
  { replace a with (a + 0) by lia. by rewrite <-lookup_drop, Hdrop. }
  split; [done|]. rewrite (drop_S _ _ _ Hch) in Hdrop. congruence.
Qed.

Lemma scanString_loop_plain body : ∀ fuel a result start scanError rest,
  drop a text = body ++ 34%Z :: rest →
  Forall plainInString body →
  length body < fuel →
  Scanner.scanString_loop text fuel a result start scanError
  = Some (S (a + length body),
          result ++ JS.substring text start (a + length body), scanError).
Proof.
  induction body as [|ch body IH];
    intros fuel a result start scanError rest Hdrop Hplain Hfuel;
    (destruct fuel as [|fuel]; [cbn in Hfuel; lia|]);
    cbn [Scanner.scanString_loop];
    apply drop_cons_inv in Hdrop as [-> Hdrop].
  - cbn. by rewrite Nat.add_0_r.
  - apply Forall_cons in Hplain as [(H34 & H92 & Hctl) Hplain].
    rewrite (proj2 (Z.eqb_neq ch 34)), (proj2 (Z.eqb_neq ch 92)) by done.
    cbn [negb].
    assert ((0 <=? ch)%Z && (ch <=? 31)%Z = false) as ->.
    { apply andb_false_iff. rewrite !Z.leb_gt. lia. }
    rewrite (IH fuel (S a) result start scanError rest Hdrop Hplain)
      by (cbn in Hfuel; lia).
    cbn [length]. by replace (S a + length body) with (a + S (length body))
      by lia.
Qed.

(** X11.  A string literal without escapes reads back as written.  Where
    the text has a double quote, code units other than the double quote, the
    backslash and the control characters, and a double quote again, [scan]
    gives the string token (10) with exactly those code units as its value,
    no scan error, and ends after the closing quote. *)
Theorem scan_string_literal st body rest :
  drop (Scanner.pos st) text = [34%Z] ++ body ++ [34%Z] ++ rest →
  Forall plainInString body →
  ∃ st',
    Scanner.scan text false st = Some st'
    ∧ Scanner.getToken st' = 10
    ∧ Scanner.getTokenValue st' = body
    ∧ Scanner.getTokenError st' = 0
    ∧ Scanner.getPosition st' = Scanner.pos st + length body + 2.
Proof.
  intros Hdrop Hplain. cbn [app] in Hdrop.
  apply drop_cons_inv in Hdrop as [Hquote Hdrop].
  unfold Scanner.scan, Scanner.scanNext. rewrite Hquote.
  cbn [Scanner.isWhiteSpace Scanner.isLineBreak Z.eqb Z.leb Z.compare
         Pos.compare Pos.compare_cont Pos.eqb orb andb].
  unfold Scanner.scanString.
  rewrite (scanString_loop_plain body _ _ _ _ _ rest Hdrop Hplain);
    last first.
  { apply (f_equal length) in Hdrop. rewrite length_drop, length_app in Hdrop.
    lia. }
  eexists. split; [done|].
  unfold Scanner.getToken, Scanner.getTokenValue, Scanner.getTokenError,
    Scanner.getPosition.
  cbn [Scanner.token Scanner.value Scanner.scanError Scanner.pos app].
  split; [done|]. split; [|split; [done|lia]].
  rewrite substring_le by lia.
  replace (S (Scanner.pos st) + length body - S (Scanner.pos st))
    with (length body) by lia.
  rewrite Hdrop. by rewrite take_app_le, take_ge by lia.
Qed.

(** ** Stripping comments *)

Lemma stripComments_loop_plain replaceCh fuel scanner :
  Forall (λ ch, ch ≠ 47%Z) text →
  length text - Scanner.pos scanner < fuel →
  ∃ parts,
    JsoncParser.stripComments_loop text replaceCh fuel scanner [] 0
    = Some parts
    ∧ concat parts = text.
Proof.
  intros Hplain. revert scanner.
  induction fuel as [|fuel IH]; intros scanner Hfuel; [lia|].
  cbn [JsoncParser.stripComments_loop]. unfold Scanner.scan.
  destruct (text !! Scanner.pos scanner) as [ch|] eqn:Hch.
  - destruct (scanNext_inside scanner ch Hch)
      as (st' & -> & _ & Hb & Heof & _ & Hcomment).
    apply lookup_lt_Some in Hch as Hlt.
    cbn [mbind option_bind]. unfold Scanner.getToken.
    assert (Scanner.token st' ≠ 12 ∧ Scanner.token st' ≠ 13) as [H12 H13].
    { rewrite Forall_forall in Hplain.
      split; intros Htoken; destruct Hcomment as [-> _]; auto;
        exact (Hplain 47%Z (list_elem_of_lookup_2 _ _ _ Hch) eq_refl). }
    rewrite (proj2 (Nat.eqb_neq _ 12)), (proj2 (Nat.eqb_neq _ 13)),
      (proj2 (Nat.eqb_neq _ 17)) by done.
    cbn [orb]. apply IH. lia.
  - apply lookup_ge_None in Hch. rewrite scanNext_outside by done.
    cbn [mbind option_bind Scanner.getToken Scanner.token Nat.eqb orb].
    unfold Scanner.getPosition, Scanner.getTokenValue.
    cbn [Scanner.pos Scanner.value].
    assert (JS.substring text 0 (Scanner.pos scanner) = text) as Hall.
    { rewrite substring_le by lia. rewrite drop_0. apply take_ge. lia. }
    eexists. split; [done|].
    case_bool_decide as Hpos.
    + rewrite Hall. destruct replaceCh; cbn; by rewrite ?app_nil_r.
    + assert (text = []) as -> by (apply length_zero_iff_nil; lia).
      by destruct replaceCh.
Qed.

(** X12.  Nothing to strip.  On a text without a slash [stripComments]
    returns the text as it is, with and without a replacement character. *)
Theorem stripComments_plain replaceCh :
  Forall (λ ch, ch ≠ 47%Z) text →
  JsoncParser.stripComments text replaceCh = Some text.
Proof.
  intros Hplain. unfold JsoncParser.stripComments.
  destruct (stripComments_loop_plain replaceCh (S (length text))
              Scanner.initial Hplain) as (parts & -> & Hparts); [lia|].
  cbn. by rewrite Hparts.
Qed.

End ScannerFacts.

(** * Number literals *)

Section NumberFacts.
Variable text : list Z.

Lemma substring_split (start mid end_ : nat) :
  start ≤ mid ≤ end_ →
  JS.substring text start end_
  = JS.substring text start mid ++ JS.substring text mid end_.
Proof.
  intros H. rewrite !(substring_le text) by lia.
  replace (end_ - start) with ((mid - start) + (end_ - mid)) by lia.
  rewrite <-take_take_drop, drop_drop.
  by replace (start + (mid - start)) with mid by lia.
Qed.

Lemma substring_one (a : nat) (ch : Z) :
  text !! a = Some ch → JS.substring text a (S a) = [ch].
Proof.
  intros Hch. rewrite (substring_le text) by lia.
  rewrite (drop_S _ _ _ Hch). replace (S a - a) with 1 by lia. done.
Qed.

Lemma isDigit_range ch : Scanner.isDigit ch = true ↔ (48 ≤ ch ≤ 57)%Z.
Proof. unfold Scanner.isDigit. rewrite andb_true_iff, !Z.leb_le. done. Qed.

(** The run of digits that [advance] passes. *)
Lemma advance_digits rest a :
  ∃ run,
    Scanner.advance Scanner.isDigit rest a = a + length run
    ∧ Forall (λ ch, 48 ≤ ch ≤ 57)%Z run
    ∧ take (length run) rest = run.
Proof.
  revert a. induction rest as [|ch rest IH]; intros a.
  { exists []. cbn. split; [lia|done]. }
  cbn [Scanner.advance]. destruct (Scanner.isDigit ch) eqn:Hdigit.
  - destruct (IH (S a)) as (run & -> & Hrun & Htake).
    exists (ch :: run). cbn [length take]. rewrite Htake.
    split; [lia|]. split; [|done]. constructor; [|done].
    by apply isDigit_range.
  - exists []. cbn. split; [lia|done].
Qed.

Lemma advanceWhile_digits a :
  ∃ run,
    Scanner.advanceWhile text Scanner.isDigit a = a + length run
    ∧ Forall (λ ch, 48 ≤ ch ≤ 57)%Z run
    ∧ JS.substring text a (a + length run) = run.
Proof.
  unfold Scanner.advanceWhile.
  destruct (advance_digits (drop a text) a) as (run & -> & Hrun & Htake).
  exists run. split; [done|]. split; [done|].
  rewrite (substring_le text) by lia.
  by replace (a + length run - a) with (length run) by lia.
Qed.

(** A digit and the digits after it. *)
Lemma digits_from a :
  Scanner.codeIs text Scanner.isDigit a = true →
  ∃ ds,
    Scanner.advanceWhile text Scanner.isDigit (S a) = a + length ds
    ∧ isDigits ds
    ∧ head ds = text !! a
    ∧ JS.substring text a (a + length ds) = ds.
Proof.
  intros (d & Hd & Hdigit)%codeIs_Some.
  destruct (advanceWhile_digits (S a)) as (run & -> & Hrun & Hsub).
  exists (d :: run). cbn [length head]. split; [lia|].
  split; [|split; [done|]].
  - split; [done|]. constructor; [|done]. by apply isDigit_range.
  - rewrite (substring_split a (S a)) by lia.
    rewrite (substring_one a d Hd).
    replace (a + S (length run)) with (S a + length run) by lia.
    by rewrite Hsub.
Qed.

(** The exponent of a number that scans without error. *)
Lemma scanExponent_grammar start a a' digits :
  start ≤ a →
  Scanner.scanExponent text start a 0 = (a', digits, 0) →
  ∃ exp,
    a' = a + length exp
    ∧ digits = JS.substring text start a ++ exp
    ∧ JS.substring text a a' = exp
    ∧ (exp = []
       ∨ ∃ e sign ds,
           exp = [e] ++ sign ++ ds
           ∧ (e = 69 ∨ e = 101)%Z
           ∧ (sign = [] ∨ sign = [43%Z] ∨ sign = [45%Z])
           ∧ isDigits ds).
Proof.
  intros Hstart. unfold Scanner.scanExponent. cbn zeta.
  destruct (_ && _) eqn:Hexp; last first.
  { intros [= <- <-]. exists []. rewrite app_nil_r, Nat.add_0_r.
    repeat split; [|by left]. rewrite (substring_le text) by lia.
    by rewrite Nat.sub_diag. }
  apply andb_prop in Hexp as [_ He].
  assert (∃ e, text !! a = Some e ∧ (e = 69 ∨ e = 101)%Z) as (e & Hch & He').
  { apply orb_prop in He as [(e & ? & <-%Z.eqb_eq)%codeIs_Some
                            |(e & ? & <-%Z.eqb_eq)%codeIs_Some]; eauto. }
  set (a2 := if _ || _ then S (S a) else S a).
  assert (∃ sign,
            a2 = S a + length sign
            ∧ JS.substring text (S a) a2 = sign
            ∧ (sign = [] ∨ sign = [43%Z] ∨ sign = [45%Z]))
    as (sign & Ha2 & Hsign & Hsigns).
  { subst a2. clear He. destruct (_ || _) eqn:Hs.
    - assert (∃ s, text !! S a = Some s ∧ (s = 43 ∨ s = 45)%Z)
        as (s & Hs' & Hor).
      { apply orb_prop in Hs as [[_ (s & ? & <-%Z.eqb_eq)%codeIs_Some]%andb_prop
                                |(s & ? & <-%Z.eqb_eq)%codeIs_Some]; eauto. }
      exists [s]. cbn [length]. split; [lia|].
      split; [by apply substring_one|].
      destruct Hor as [-> | ->]; auto.
    - exists []. cbn [length]. split; [lia|]. split; [|by left].
      rewrite (substring_le text) by lia. by rewrite Nat.sub_diag. }
  clearbody a2.
  destruct (_ && _) eqn:Hdigits; [|done].
  apply andb_prop in Hdigits as [_ Hdigit].
  destruct (digits_from a2 Hdigit) as (ds & -> & Hds & _ & Hsub).
  intros [= <- <-].
  assert (JS.substring text a (a2 + length ds) = [e] ++ sign ++ ds) as Hall.
  { rewrite (substring_split a (S a)) by lia.
    rewrite (substring_one a e Hch).
    rewrite (substring_split (S a) a2) by lia.
    by rewrite Hsign, Hsub. }
  exists ([e] ++ sign ++ ds).
  split; [rewrite !length_app; cbn [length]; lia|].
  split; [by rewrite <-Hall, <-substring_split by lia|].
  split; [done|]. right. exists e, sign, ds. done.
Qed.

(** A number that [scanNumber] reads without error is a number of the JSON
    grammar, and it is the text that was read. *)
Lemma scanNumber_grammar a a' digits :
  Scanner.codeIs text Scanner.isDigit a = true →
  Scanner.scanNumber text a 0 = (a', digits, 0) →
  unsignedNumber digits ∧ digits = JS.substring text a a'.
Proof.
  intros Hdigit. unfold Scanner.scanNumber. cbn zeta.
  set (a1 := if Scanner.codeIs text (Z.eqb 48) a then S a
             else Scanner.advanceWhile text Scanner.isDigit (S a)).
  assert (∃ int,
            a1 = a + length int
            ∧ JS.substring text a a1 = int
            ∧ (int = [48%Z] ∨ (isDigits int ∧ head int ≠ Some 48%Z)))
    as (int & Ha1 & Hint & Hints).
  { subst a1. destruct (Scanner.codeIs text (Z.eqb 48) a) eqn:Hzero.
    - apply codeIs_Some in Hzero as (d & Hd & <-%Z.eqb_eq).
      exists [48%Z]. cbn [length]. split; [lia|].
      split; [by apply substring_one|by left].
    - destruct (digits_from a Hdigit) as (ds & -> & Hds & Hhead & Hsub).
      exists ds. split; [done|]. split; [done|]. right. split; [done|].
      rewrite Hhead. intros Hd. unfold Scanner.codeIs in Hzero.
      by rewrite Hd in Hzero. }
  clearbody a1.
  assert (∀ a2 frac,
            a2 = a1 + length frac →
            JS.substring text a1 a2 = frac →
            (frac = [] ∨ ∃ ds, frac = [46%Z] ++ ds ∧ isDigits ds) →
            Scanner.scanExponent text a a2 0 = (a', digits, 0) →
            unsignedNumber digits ∧ digits = JS.substring text a a')
    as Hrest.
  { intros a2 frac Ha2 Hfrac Hfracs Hscan.
    destruct (scanExponent_grammar a a2 a' digits ltac:(lia) Hscan)
      as (exp & -> & -> & Hexp & Hexps).
    split.
    - exists int, frac, exp. split; [|done].
      rewrite (substring_split a a1) by lia.
      by rewrite Hint, Hfrac, <-(assoc_L (++)).
    - rewrite (substring_split a a2 (a2 + length exp)) by lia.
      by rewrite Hexp. }
  destruct (_ && _) eqn:Hdot; last first.
  { apply (Hrest a1 []); [cbn; lia| |by left].
    rewrite (substring_le text) by lia. by rewrite Nat.sub_diag. }
  apply andb_prop in Hdot as [_ (dot & Hdot & <-%Z.eqb_eq)%codeIs_Some].
  destruct (_ && _) eqn:Hfraction; cbn [negb]; [|done].
  apply andb_prop in Hfraction as [_ Hfraction].
  destruct (digits_from (S a1) Hfraction) as (ds & -> & Hds & _ & Hsub).
  apply (Hrest _ ([46%Z] ++ ds)).
  - rewrite length_app. cbn [length]. lia.
  - rewrite (substring_split a1 (S a1)) by lia.
    by rewrite (substring_one a1 _ Hdot), Hsub.
  - right. by exists ds.
Qed.

(** X13.  Number tokens are numbers.  A number token (11) that [scan] gives
    without a scan error is a number of the JSON grammar: an optional minus
    sign, an integer part that is [0] or starts with another digit, then
    optionally a fraction and an exponent, each with a digit at least; and
    its value is the text of the token. *)
Theorem scan_number st st' :
  Scanner.scan text false st = Some st' →
  Scanner.getToken st' = 11 →
  Scanner.getTokenError st' = 0 →
  jsonNumber (Scanner.getTokenValue st')
  ∧ Scanner.getTokenValue st'
    = JS.substring text (Scanner.pos st) (Scanner.getPosition st').
Proof.
  unfold Scanner.scan, Scanner.getToken, Scanner.getTokenError,
    Scanner.getTokenValue, Scanner.getPosition.
  intros Hscan Htoken Herror.
  destruct (text !! Scanner.pos st) as [ch|] eqn:Hch; last first.
  { apply lookup_ge_None in Hch.
    rewrite (scanNext_outside text) in Hscan by done.
    injection Hscan as <-. done. }
  unfold Scanner.scanNext in Hscan. rewrite Hch in Hscan. cbn zeta in Hscan.
  set (a := Scanner.pos st) in *.
  destruct (Scanner.isWhiteSpace ch) eqn:Hspace.
  { destruct (Scanner.whiteSpace _ _ _). injection Hscan as <-. done. }
  destruct (Scanner.isLineBreak ch) eqn:Hbreak.
  { destruct (_ && _); injection Hscan as <-; done. }
  destruct (ch =? 123)%Z; [injection Hscan as <-; done|].
  destruct (ch =? 125)%Z; [injection Hscan as <-; done|].
  destruct (ch =? 91)%Z; [injection Hscan as <-; done|].
  destruct (ch =? 93)%Z; [injection Hscan as <-; done|].
  destruct (ch =? 58)%Z; [injection Hscan as <-; done|].
  destruct (ch =? 44)%Z; [injection Hscan as <-; done|].
  destruct (ch =? 34)%Z.
  { destruct (Scanner.scanString _ _ _) as [[[? ?] ?]|]; [|done].
    cbn in Hscan. injection Hscan as <-. done. }
  destruct (ch =? 47)%Z.
  { destruct (Scanner.codeIs text (Z.eqb 47) (a + 1));
      [injection Hscan as <-; done|].
    destruct (Scanner.codeIs text (Z.eqb 42) (a + 1));
      [|injection Hscan as <-; done].
    destruct (Scanner.blockComment _ _ _ _) as [[[? []] ?] ?];
      injection Hscan as <-; done. }
  revert Hscan. destruct (ch =? 45)%Z eqn:Hsign.
  - (* a minus sign *)
    destruct (_ || _) eqn:Hminus; [intros [= <-]; done|].
    apply orb_false_elim in Hminus as [_ Hdigit%negb_false_iff].
    destruct (Scanner.scanNumber text (S a) 0) as [[a' digits] e] eqn:Hnumber.
    intros [= <-]. cbn in *. subst e.
    destruct (scanNumber_grammar (S a) a' digits Hdigit Hnumber)
      as [Hgrammar ->].
    split.
    + right. exists (JS.substring text (S a) a').
      by apply Z.eqb_eq in Hsign as ->.
    + pose proof (scanNumber_bounds text (S a) 0
                    ltac:(by eapply codeIs_lt)) as Hb.
      rewrite Hnumber in Hb. cbn in Hb.
      rewrite (substring_split a (S a)) by lia.
      by rewrite (substring_one a ch Hch).
  - destruct (Scanner.isDigit ch) eqn:Hdigit.
    + destruct (Scanner.scanNumber text a 0) as [[a' digits] e] eqn:Hnumber.
      intros [= <-]. cbn in *. subst e.
      assert (Scanner.codeIs text Scanner.isDigit a = true) as Hcode.
      { apply codeIs_Some. eauto. }
      destruct (scanNumber_grammar a a' digits Hcode Hnumber)
        as [Hgrammar ->].
      split; [by left|done].
    + destruct (bool_decide _); [|intros [= <-]; done].
      intros [= <-]. cbn in Htoken.
      repeat (destruct (bool_decide _); [done|]). done.
Qed.

End NumberFacts.

(** * Locations *)

(** X14.  Patterns without [**].  A pattern that has no [**] segment matches
    a path exactly when it matches a prefix of the path segment by segment,
    a segment of the pattern matching the same segment and [*] any one
    segment; what the path holds beyond the pattern does not matter. *)
Theorem matches_prefix path pattern :
  JsoncParser.Key "**" ∉ pattern →
  JsoncParser.matches path pattern = true
  ↔ ∃ matched rest,
      path = matched ++ rest
      ∧ Forall2 (λ p segment, p = segment ∨ p = JsoncParser.Key "*")
          pattern matched.
Proof.
  revert pattern. induction path as [|segment path IH]; intros pattern Hstar.
  - destruct pattern as [|p pattern]; cbn.
    + split; [|done]. intros _. exists [], []. split; [done|constructor].
    + split; [done|].
      intros (matched & rest & Hpath & Hall).
      symmetry in Hpath. apply app_eq_nil in Hpath as [-> _].
      inversion Hall.
  - destruct pattern as [|p pattern]; cbn [JsoncParser.matches].
    { split; [|done]. intros _. exists [], (segment :: path).
      split; [done|constructor]. }
    apply not_elem_of_cons in Hstar as [Hp Hstar].
    destruct (bool_decide (p = segment) || bool_decide (p = JsoncParser.Key "*"))
      eqn:Hhead.
    + rewrite (IH pattern Hstar). split.
      * intros (matched & rest & -> & Hall).
        exists (segment :: matched), rest. split; [done|].
        constructor; [|done].
        apply orb_true_iff in Hhead as [?%bool_decide_eq_true|
                                        ?%bool_decide_eq_true]; auto.
      * intros (matched & rest & Hpath & Hall).
        inversion Hall as [|p' segment' pattern' matched' _ Hall']; subst.
        injection Hpath as -> ->. by exists matched', rest.
    + rewrite bool_decide_eq_true_2 by done. split; [done|].
      intros (matched & rest & Hpath & Hall).
      inversion Hall as [|p' segment' pattern' matched' Hsame Hall']; subst.
      injection Hpath as -> ->.
      apply orb_false_iff in Hhead as [?%bool_decide_eq_false
                                       ?%bool_decide_eq_false].
      by destruct Hsame.
Qed.

(** X15.  Patterns with [**].  A pattern that has a [**] segment matches no
    path, unless the path itself has a property that is called [**]: the
    loop skips path segments at a [**] and never goes past it. *)
Theorem matches_double_star path pattern :
  JsoncParser.Key "**" ∈ pattern →
  JsoncParser.Key "**" ∉ path →
  JsoncParser.matches path pattern = false.
Proof.
  revert pattern. induction path as [|segment path IH];
    intros pattern Hstar Hpath.
  - destruct pattern; [by apply elem_of_nil in Hstar|done].
  - destruct pattern as [|p pattern]; [by apply elem_of_nil in Hstar|].
    apply not_elem_of_cons in Hpath as [Hsegment Hpath].
    cbn [JsoncParser.matches].
    destruct (bool_decide (p = segment) || bool_decide (p = JsoncParser.Key "*"))
      eqn:Hhead.
    + apply IH; [|done].
      apply elem_of_cons in Hstar as [Hp|Hin]; [|done].
      apply orb_true_iff in Hhead as [?%bool_decide_eq_true|
                                      ?%bool_decide_eq_true];
        congruence.
    + destruct (bool_decide (p ≠ JsoncParser.Key "**")) eqn:Hp; [done|].
      apply IH; [|done].
      apply bool_decide_eq_false, dec_stable in Hp. subst. left.
Qed.

(** * The nodes of a parse tree *)

(** Induction over a tree of nodes. *)
Lemma Node_induction (P : JsoncParser.Node → Prop) :
  (∀ type value offset length children,
     from_option (Forall P) True children →
     P (JsoncParser.mkNode type value offset length children)) →
  ∀ node, P node.
Proof.
  intros Hnode. fix IH 1. intros [type value offset length children].
  apply Hnode. destruct children as [items|]; cbn; [|done].
  revert items. fix IHitems 1. intros [|item items]; constructor.
  - apply IH.
  - apply IHitems.
Qed.

Lemma subnodes_self node : node ∈ subnodes node.
Proof. destruct node. cbn. apply elem_of_cons. by left. Qed.

Lemma subnodes_child node items child :
  JsoncParser.children node = Some items →
  child ∈ items → child ∈ subnodes node.
Proof.
  intros Hitems Hchild. destruct node as [? ? ? ? children].
  cbn in Hitems. subst children. cbn. apply elem_of_cons. right.
  apply list_elem_of_In, in_flat_map. exists child.
  split; [by apply list_elem_of_In|]. apply list_elem_of_In, subnodes_self.
Qed.

Lemma subnodes_trans root node found :
  node ∈ subnodes root → found ∈ subnodes node → found ∈ subnodes root.
Proof.
  revert node found. induction root as [type value offset length children IH]
    using Node_induction.
  intros node found Hnode Hfound. cbn in Hnode |- *.
  apply elem_of_cons in Hnode as [->|Hnode]; [done|].
  apply elem_of_cons. right.
  destruct children as [items|]; [|by apply elem_of_nil in Hnode].
  cbn in IH. apply list_elem_of_In, in_flat_map in Hnode as (item & Hitem & Hnode).
  apply list_elem_of_In, in_flat_map. exists item. split; [done|].
  apply list_elem_of_In. rewrite Forall_forall in IH.
  apply (IH item ltac:(by apply list_elem_of_In) node); [|done].
  by apply list_elem_of_In.
Qed.

(** ** [findNodeAtOffset] *)

Lemma findFirst_Some find offset items found :
  JsoncParser.findFirst find offset items = Some found →
  ∃ child, child ∈ items ∧ find child = Some found.
Proof.
  induction items as [|child items IH]; [done|]. cbn.
  destruct (_ <=? _)%Z; [|done].
  destruct (find child) as [item|] eqn:Hchild.
  - intros [= <-]. exists child. split; [apply elem_of_cons; by left|done].
  - intros (c & Hc & Hfound)%IH. exists c.
    split; [apply elem_of_cons; by right|done].
Qed.

Lemma findFirst_None find offset items before child after :
  JsoncParser.findFirst find offset items = None →
  items = before ++ child :: after →
  Forall (λ c, JsoncParser.offset c ≤ offset)%Z (before ++ [child]) →
  find child = None.
Proof.
  revert items. induction before as [|b before IH]; intros items Hnone -> Hle.
  - cbn in *. apply Forall_cons in Hle as [Hle%Z.leb_le _].
    rewrite Hle in Hnone. by destruct (find child).
  - cbn in *. apply Forall_cons in Hle as [Hb%Z.leb_le Hle].
    rewrite Hb in Hnone. destruct (find b); [done|].
    by eapply IH.
Qed.

(** X16.  The node at an offset.  [findNodeAtOffset] finds a node exactly
    when the node it is given contains the offset.  The node found is a node
    of the tree, it contains the offset, and none of its children contains
    it, as far as the children start at or before the offset one after the
    other: the search goes as deep as it can. *)
Theorem findNodeAtOffset_deepest node offset includeRightBound :
  (is_Some (JsoncParser.findNodeAtOffset node offset includeRightBound)
   ↔ JsoncParser.contains node offset includeRightBound = true)
  ∧ ∀ found,
      JsoncParser.findNodeAtOffset node offset includeRightBound = Some found →
      found ∈ subnodes node
      ∧ JsoncParser.contains found offset includeRightBound = true
      ∧ ∀ items before child after,
          JsoncParser.children found = Some items →
          items = before ++ child :: after →
          Forall (λ c, JsoncParser.offset c ≤ offset)%Z (before ++ [child]) →
          JsoncParser.contains child offset includeRightBound = false.
Proof.
  induction node as [type value offset' length children IH]
    using Node_induction.
  set (node := JsoncParser.mkNode type value offset' length children).
  assert (JsoncParser.findNodeAtOffset node offset includeRightBound
          = if JsoncParser.contains node offset includeRightBound
            then
              match children with
              | Some items =>
                  Some
                    (default node
                       (JsoncParser.findFirst
                          (λ child,
                             JsoncParser.findNodeAtOffset child offset
                               includeRightBound)
                          offset items))
              | None => Some node
              end
            else None) as Hunfold by done.
  rewrite Hunfold. clear Hunfold.
  destruct (JsoncParser.contains node offset includeRightBound) eqn:Hin;
    last first.
  { split; [|done]. split; [by intros [? ?]|done]. }
  split.
  { split; [done|]. intros _. by destruct children. }
  intros found Hfound.
  destruct children as [items|]; last first.
  { injection Hfound as <-. split; [apply subnodes_self|]. split; [done|].
    intros items before child after Hitems. done. }
  cbn in IH.
  destruct (JsoncParser.findFirst _ offset items) as [item|] eqn:Hloop;
    cbn in Hfound; injection Hfound as <-.
  - apply findFirst_Some in Hloop as (child & Hchild & Hfound).
    rewrite Forall_forall in IH.
    destruct (IH child Hchild) as [_ Hdeep].
    destruct (Hdeep item Hfound) as (Hsub & Hcontains & Hchildren).
    split; [|done].
    eapply subnodes_trans; [|exact Hsub].
    by eapply (subnodes_child node).
  - split; [apply subnodes_self|]. split; [done|].
    intros items' before child after [= <-] -> Hle.
    pose proof (findFirst_None _ _ _ _ _ _ Hloop eq_refl Hle) as Hnone.
    rewrite Forall_forall in IH.
    destruct (IH child) as [Hsome _].
    { apply elem_of_app. right. apply elem_of_cons. by left. }
    destruct (JsoncParser.contains child offset includeRightBound); [|done].
    destruct Hsome as [_ Hsome]. specialize (Hsome eq_refl).
    rewrite Hnone in Hsome. by destruct Hsome.
Qed.

(** ** [findNodeAtLocation] *)

Lemma findNodeAtLocation_loop_app node path found rest :
  JsoncParser.findNodeAtLocation_loop node path = Normal (Some found) →
  JsoncParser.findNodeAtLocation_loop node (path ++ rest)
  = JsoncParser.findNodeAtLocation_loop (Some found) rest.
Proof.
  revert node.
  induction path as [|segment path IH]; intros node; [by intros [= ->]|].
  cbn [app JsoncParser.findNodeAtLocation_loop].
  destruct node as [node|]; [|done]. cbn [defined mbind Completion_bind].
  destruct segment as [name|index].
  - destruct (JsoncParser.children node) as [properties|]; [|done].
    destruct (bool_decide _); [done|].
    destruct (JsoncParser.findProperty properties name) as [[next|]|];
      cbn [mbind Completion_bind]; [apply IH|done..].
  - destruct (JsoncParser.children node) as [items|]; [|done].
    destruct (_ || _); [done|]. apply IH.
Qed.

(** X17.  Paths compose.  When a path leads from the root to a node, the
    path followed by further segments leads to where the further segments
    lead from that node. *)
Theorem findNodeAtLocation_app root path node rest :
  JsoncParser.findNodeAtLocation (Some root) path = Normal (Some node) →
  JsoncParser.findNodeAtLocation (Some root) (path ++ rest)
  = JsoncParser.findNodeAtLocation (Some node) rest.
Proof.
  unfold JsoncParser.findNodeAtLocation. intros Hpath.
  by apply findNodeAtLocation_loop_app.
Qed.

(** The first property with the name decides. *)
Lemma findProperty_first name before property key others after :
  Forall (otherName name) before →
  JsoncParser.children property = Some (key :: others) →
  JsoncParser.valueIs key name = true →
  JsoncParser.findProperty (before ++ property :: after) name
  = Normal (Some (head others)).
Proof.
  intros Hbefore Hproperty Hkey.
  induction Hbefore as [|other before Hother _ IH].
  - cbn. rewrite Hproperty. cbn. rewrite Hkey. by destruct others.
  - cbn [app JsoncParser.findProperty].
    destruct Hother as [->|(k & ks & -> & Hk)]; [done|].
    cbn. by rewrite Hk.
Qed.

(** X18.  A property without a value.  Where a path leads to an object whose
    first property of some name has a key and no value, the path to that
    property gives no node, and every longer path through the property ends
    in a [TypeError] rather than in no node: the loop reads the type of the
    value that is missing. *)
Theorem findNodeAtLocation_missing_value root path object before property
    key after name :
  JsoncParser.findNodeAtLocation (Some root) path = Normal (Some object) →
  JsoncParser.type object = "object" →
  JsoncParser.children object = Some (before ++ property :: after) →
  Forall (otherName name) before →
  JsoncParser.children property = Some [key] →
  JsoncParser.valueIs key name = true →
  JsoncParser.findNodeAtLocation (Some root)
    (path ++ [JsoncParser.Key name]) = Normal None
  ∧ ∀ segment rest,
      JsoncParser.findNodeAtLocation (Some root)
        (path ++ JsoncParser.Key name :: segment :: rest)
      = Throw TypeError.
Proof.
  intros Hpath Htype Hchildren Hbefore Hproperty Hkey.
  pose proof (findProperty_first name before property key [] after Hbefore
                Hproperty Hkey) as Hfind.
  split; [|intros segment rest];
    unfold JsoncParser.findNodeAtLocation in *;
    rewrite (findNodeAtLocation_loop_app _ path object _ Hpath);
    cbn [JsoncParser.findNodeAtLocation_loop defined mbind Completion_bind];
    rewrite Hchildren, Htype, Hfind; done.
Qed.

Lemma findProperty_complete properties name :
  (∀ property items,
     property ∈ properties →
     JsoncParser.children property = Some items → 2 ≤ length items) →
  JsoncParser.findProperty properties name = Normal None
  ∨ ∃ property items found,
      property ∈ properties
      ∧ JsoncParser.children property = Some items
      ∧ found ∈ items
      ∧ JsoncParser.findProperty properties name = Normal (Some (Some found)).
Proof.
  induction properties as [|property properties IH]; intros Hcomplete;
    [by left|].
  cbn [JsoncParser.findProperty].
  assert (JsoncParser.findProperty properties name = Normal None
          ∨ ∃ property0 items found,
              property0 ∈ property :: properties
              ∧ JsoncParser.children property0 = Some items
              ∧ found ∈ items
              ∧ JsoncParser.findProperty properties name
                = Normal (Some (Some found))) as Hrest.
  { destruct IH as [?|(p & items & found & Hp & ? & ? & ?)].
    - intros p items Hp. apply Hcomplete. apply elem_of_cons. by right.
    - by left.
    - right. exists p, items, found. split; [|done].
      apply elem_of_cons. by right. }
  destruct (JsoncParser.children property) as [items|] eqn:Hitems; [|done].
  pose proof (Hcomplete property items ltac:(apply elem_of_cons; by left)
                Hitems) as Hlen.
  destruct items as [|key [|found items]]; cbn in Hlen; [lia..|].
  cbn. destruct (JsoncParser.valueIs key name); [|done].
  right. exists property, (key :: found :: items), found.
  split; [apply elem_of_cons; by left|]. split; [done|]. split; [|done].
  apply elem_of_cons. right. apply elem_of_cons. by left.
Qed.

Lemma findNodeAtLocation_loop_complete root node path :
  Forall completeObject (subnodes root) →
  node ∈ subnodes root →
  ∃ result,
    JsoncParser.findNodeAtLocation_loop (Some node) path = Normal result
    ∧ ∀ found, result = Some found → found ∈ subnodes root.
Proof.
  intros Hcomplete. revert node.
  induction path as [|segment path IH]; intros node Hnode.
  { exists (Some node). split; [done|]. by intros ? [= <-]. }
  cbn [JsoncParser.findNodeAtLocation_loop defined mbind Completion_bind].
  assert (∃ result : option JsoncParser.Node,
            Normal None = Normal result
            ∧ ∀ found, result = Some found → found ∈ subnodes root) as Hnone.
  { exists None. by split. }
  destruct segment as [name|index].
  - destruct (JsoncParser.children node) as [properties|] eqn:Hproperties;
      [|done].
    case_bool_decide as Htype; [done|].
    rewrite Forall_forall in Hcomplete.
    destruct (findProperty_complete properties name)
      as [->|(property & items & found & Hp & Hitems & Hfound & ->)];
      [|done|].
    { intros property items. by apply (Hcomplete node Hnode Htype). }
    cbn [mbind Completion_bind]. apply IH.
    eapply subnodes_trans; [exact Hnode|].
    eapply subnodes_trans; [by eapply subnodes_child|].
    by eapply subnodes_child.
  - destruct (JsoncParser.children node) as [items|] eqn:Hitems; [|done].
    destruct (_ || _) eqn:Hrange; [done|].
    apply orb_false_elim in Hrange as [[_ Hlow%Z.ltb_ge]%orb_false_elim
                                         Hhigh%Z.leb_gt].
    destruct (lookup_lt_is_Some_2 items (Z.to_nat index)) as [item Hitem];
      [lia|].
    rewrite Hitem. apply IH.
    eapply subnodes_trans; [exact Hnode|].
    eapply subnodes_child; [done|]. by eapply list_elem_of_lookup_2.
Qed.

(** X19.  No failure on complete trees.  In a tree in which every property
    of every object has its key and its value, [findNodeAtLocation] returns
    for every path, and what it finds is a node of the tree. *)
Theorem findNodeAtLocation_complete root path :
  Forall completeObject (subnodes root) →
  ∃ result,
    JsoncParser.findNodeAtLocation (Some root) path = Normal result
    ∧ ∀ found, result = Some found → found ∈ subnodes root.
Proof.
  intros Hcomplete. apply findNodeAtLocation_loop_complete; [done|].
  apply subnodes_self.
Qed.

(** * Text documents *)

Lemma lineOffsets_loop_elem rest : ∀ textOffset i p,
  p ∈ TextDocument.lineOffsets_loop rest textOffset i
  ↔ ∃ k, p = textOffset + i + k + 1
         ∧ (rest !! k = Some 10%Z
            ∨ (rest !! k = Some 13%Z ∧ rest !! S k ≠ Some 10%Z)).
Proof.
  induction rest as [rest IH] using (induction_ltof1 _ length).
  unfold ltof in IH. intros textOffset i p.
  destruct rest as [|ch rest]; cbn [TextDocument.lineOffsets_loop].
  { split; [by intros ?%elem_of_nil|]. by intros (k & _ & [?|[? _]]). }
  assert (∀ rest' i',
            length rest' < length (ch :: rest) →
            (p ∈ TextDocument.lineOffsets_loop rest' textOffset i'
             ↔ ∃ k, p = textOffset + i' + k + 1
                    ∧ (rest' !! k = Some 10%Z
                       ∨ (rest' !! k = Some 13%Z
                          ∧ rest' !! S k ≠ Some 10%Z)))) as IH'.
  { intros rest' i' Hlen. by apply IH. }
  destruct ((ch =? 13)%Z || (ch =? 10)%Z) eqn:Hbreak; last first.
  { apply orb_false_iff in Hbreak as [H13%Z.eqb_neq H10%Z.eqb_neq].
    rewrite IH' by (cbn; lia). split.
    - intros (k & -> & Hk). exists (S k). split; [lia|done].
    - intros ([|k] & -> & Hk).
      + cbn in Hk. destruct Hk as [[= ?]|[[= ?] _]]; done.
      + exists k. split; [lia|done]. }
  destruct rest as [|next rest].
  { rewrite list_elem_of_singleton. split.
    - intros ->. exists 0. split; [lia|]. cbn.
      apply orb_true_iff in Hbreak as [->%Z.eqb_eq| ->%Z.eqb_eq]; auto.
    - intros ([|k] & -> & Hk); [lia|].
      cbn in Hk. by destruct Hk as [?|[? _]]. }
  destruct ((ch =? 13)%Z && (next =? 10)%Z) eqn:Hcrlf.
  - apply andb_prop in Hcrlf as [->%Z.eqb_eq ->%Z.eqb_eq].
    rewrite elem_of_cons, IH' by (cbn; lia). split.
    + intros [->|(k & -> & Hk)].
      * exists 1. split; [lia|]. by left.
      * exists (S (S k)). split; [lia|done].
    + intros ([|[|k]] & -> & Hk).
      * cbn in Hk. destruct Hk as [[= ?]|[_ ?]]; done.
      * left. lia.
      * right. exists k. split; [lia|done].
  - rewrite elem_of_cons, IH' by (cbn; lia). split.
    + intros [->|(k & -> & Hk)].
      * exists 0. split; [lia|]. cbn.
        apply andb_false_iff in Hcrlf.
        apply orb_true_iff in Hbreak as [->%Z.eqb_eq| ->%Z.eqb_eq];
          [right|by left].
        split; [done|]. intros [= ->]. by destruct Hcrlf.
      * exists (S k). split; [lia|done].
    + intros ([|k] & -> & Hk).
      * left. lia.
      * right. exists k. split; [lia|done].
Qed.

Lemma lineOffsets_loop_sorted rest : ∀ textOffset i,
  StronglySorted lt (TextDocument.lineOffsets_loop rest textOffset i).
Proof.
  induction rest as [rest IH] using (induction_ltof1 _ length).
  unfold ltof in IH. intros textOffset i.
  destruct rest as [|ch rest]; cbn [TextDocument.lineOffsets_loop];
    [constructor|].
  destruct (_ || _); [|apply IH; cbn; lia].
  destruct rest as [|next rest]; [repeat constructor|].
  destruct (_ && _).
  - constructor; [apply IH; cbn; lia|].
    apply Forall_forall. intros p (k & -> & _)%lineOffsets_loop_elem. lia.
  - constructor; [apply IH; cbn; lia|].
    apply Forall_forall. intros p (k & -> & _)%lineOffsets_loop_elem. lia.
Qed.

(** The line offsets of a text that starts a line: sorted, the starts of
    the lines, and within the text. *)
Lemma computeLineOffsets_lineStarts content :
  StronglySorted lt (TextDocument.computeLineOffsets content true 0)
  ∧ (∀ p, p ∈ TextDocument.computeLineOffsets content true 0
          ↔ lineStart content p)
  ∧ Forall (λ p, p ≤ length content)
      (TextDocument.computeLineOffsets content true 0).
Proof.
  unfold TextDocument.computeLineOffsets. cbn [app].
  assert (∀ p, p ∈ 0 :: TextDocument.lineOffsets_loop content 0 0
               ↔ lineStart content p) as Helem.
  { intros p. rewrite elem_of_cons, lineOffsets_loop_elem. unfold lineStart.
    split.
    - intros [->|(k & -> & Hk)]; [by left|]. right. split; [lia|].
      replace (0 + 0 + k + 1 - 1) with k by lia.
      by replace (0 + 0 + k + 1) with (S k) by lia.
    - intros [->|[Hp Hk]]; [by left|]. right. exists (p - 1).
      split; [lia|]. by replace (S (p - 1)) with p by lia. }
  split; [|split; [done|]].
  - constructor; [apply lineOffsets_loop_sorted|].
    apply Forall_forall. intros p (k & -> & _)%lineOffsets_loop_elem. lia.
  - apply Forall_forall. intros p [->|[Hp Hk]]%Helem; [lia|].
    assert (p - 1 < length content); [|lia].
    destruct Hk as [Hk|[Hk _]]; by eapply lookup_lt_Some.
Qed.

(** X20.  The line offsets of a text.  [getLineOffsets] lists, in strictly
    increasing order, the offsets at which a line starts: 0, the offset
    after every line feed, and the offset after every carriage return that
    no line feed follows (a carriage return and line feed count as one line
    break).  Every offset is at most the length of the text. *)
Theorem getLineOffsets_lineStarts content :
  let lineOffsets :=
    (TextDocument.getLineOffsets (TextDocument.create content)).1 in
  StronglySorted lt lineOffsets
  ∧ (∀ p, p ∈ lineOffsets ↔ lineStart content p)
  ∧ Forall (λ p, p ≤ length content) lineOffsets.
Proof. apply computeLineOffsets_lineStarts. Qed.

(** ** Positions and offsets *)

Lemma StronglySorted_lt_lookup (l : list nat) i j a b :
  StronglySorted lt l → i < j → l !! i = Some a → l !! j = Some b → a < b.
Proof.
  intros Hsorted. revert i j.
  induction Hsorted as [|x l _ IH Hall]; intros i j Hij Ha Hb; [done|].
  destruct j as [|j]; [lia|]. destruct i as [|i].
  - cbn in Ha, Hb. injection Ha as ->. rewrite Forall_forall in Hall.
    by eapply Hall, list_elem_of_lookup_2.
  - cbn in Ha, Hb. apply (IH i j); [lia|done..].
Qed.

Lemma half_between (low high : nat) :
  low < high → low ≤ (low + high) / 2 < high.
Proof.
  intros. split.
  - apply Nat.div_le_lower_bound; lia.
  - apply Nat.Div0.div_lt_upper_bound; lia.
Qed.

(** The binary search ends with the number of line offsets that are not
    greater than the offset. *)
Lemma positionAt_loop_returns lineOffsets offset :
  StronglySorted lt lineOffsets →
  ∀ fuel low high,
    low ≤ high ≤ length lineOffsets →
    high - low < fuel →
    (∀ i o, i < low → lineOffsets !! i = Some o → (Z.of_nat o ≤ offset)%Z) →
    (∀ i o, high ≤ i → lineOffsets !! i = Some o → (offset < Z.of_nat o)%Z) →
    ∃ n,
      TextDocument.positionAt_loop fuel lineOffsets offset low high = Some n
      ∧ n ≤ length lineOffsets
      ∧ (∀ i o, i < n → lineOffsets !! i = Some o → (Z.of_nat o ≤ offset)%Z)
      ∧ (∀ i o, n ≤ i → lineOffsets !! i = Some o → (offset < Z.of_nat o)%Z).
Proof.
  intros Hsorted.
  induction fuel as [|fuel IH]; intros low high Hbounds Hfuel Hlow Hhigh;
    [lia|].
  cbn [TextDocument.positionAt_loop].
  destruct (low <? high) eqn:Hlt; last first.
  { apply Nat.ltb_ge in Hlt. exists low.
    split; [done|]. split; [lia|]. split; [done|].
    intros i o Hi. apply Hhigh. lia. }
  apply Nat.ltb_lt in Hlt. pose proof (half_between low high Hlt) as Hmid.
  set (mid := (low + high) / 2) in *.
  destruct (lookup_lt_is_Some_2 lineOffsets mid) as [lineOffset Hmidth];
    [lia|].
  rewrite Hmidth.
  destruct (offset <? Z.of_nat lineOffset)%Z eqn:Hcmp.
  - apply Z.ltb_lt in Hcmp. apply IH; [lia..|done|].
    intros i o Hi Ho. destruct (decide (i = mid)) as [->|Hne].
    + congruence.
    + pose proof (StronglySorted_lt_lookup lineOffsets mid i lineOffset o
                    Hsorted ltac:(lia) Hmidth Ho). lia.
  - apply Z.ltb_ge in Hcmp. apply IH; [lia..| |done].
    intros i o Hi Ho. destruct (decide (i = mid)) as [->|Hne].
    + assert (o = lineOffset) as -> by congruence. done.
    + pose proof (StronglySorted_lt_lookup lineOffsets i mid o lineOffset
                    Hsorted ltac:(lia) Ho Hmidth). lia.
Qed.

(** X21.  From an offset to a position and back.  For a document made of a
    text, [positionAt] returns for every number a position whose line
    exists and whose character is a number that is not negative, and
    [offsetAt] maps that position back to the offset, brought into the range
    from 0 to the length of the text. *)
Theorem offsetAt_positionAt content offset :
  ∃ position doc character,
    TextDocument.positionAt (TextDocument.create content) offset
    = Some (position, doc)
    ∧ (0 ≤ TextDocument.line position
       < Z.of_nat (TextDocument.lineCount doc).1)%Z
    ∧ TextDocument.character position = JS.Num character
    ∧ (0 ≤ character)%Z
    ∧ (TextDocument.offsetAt doc position).1
      = JS.Num (Z.max (Z.min offset (Z.of_nat (length content))) 0).
Proof.
  destruct (computeLineOffsets_lineStarts content) as (Hsorted & Helem & Hmax).
  cbn zeta in Hsorted, Helem, Hmax.
  unfold TextDocument.positionAt, TextDocument.lineCount,
    TextDocument.offsetAt.
  cbn [TextDocument.getLineOffsets TextDocument.create
         TextDocument._lineOffsets TextDocument._content fst] in *.
  set (lineOffsets := TextDocument.computeLineOffsets content true 0) in *.
  set (e := Z.max (Z.min offset (Z.of_nat (length content))) 0).
  assert (lineOffsets !! 0 = Some 0) as Hfirst by done.
  assert (0 < length lineOffsets) as Hlen by (by eapply lookup_lt_Some).
  rewrite (proj2 (Nat.eqb_neq _ 0)) by lia.
  destruct (positionAt_loop_returns lineOffsets e Hsorted
              (S (length lineOffsets)) 0 (length lineOffsets))
    as (n & -> & Hn & Hbelow & Habove); [lia..| | |].
  { intros i o Hi. lia. }
  { intros i o Hi Ho. apply lookup_lt_Some in Ho. lia. }
  cbn [mbind option_bind].
  destruct n as [|line].
  { specialize (Habove 0 0 ltac:(lia) Hfirst). lia. }
  destruct (lookup_lt_is_Some_2 lineOffsets line) as [lineOffset Hline];
    [lia|].
  rewrite Hline.
  pose proof (Hbelow line lineOffset ltac:(lia) Hline) as Hle.
  eexists _, _, _. split; [done|].
  cbn [TextDocument.line TextDocument.character TextDocument._content
         TextDocument.getLineOffsets TextDocument._lineOffsets fst].
  split; [lia|]. split; [done|]. split; [lia|].
  rewrite (proj2 (Z.leb_gt _ _)) by lia.
  rewrite (proj2 (Z.ltb_ge _ _)) by lia.
  replace (Z.to_nat (Z.of_nat (S line) - 1)) with line by lia.
  rewrite Hline.
  replace (Z.of_nat (S line) - 1 + 1)%Z with (Z.of_nat (S line)) by lia.
  destruct (Z.of_nat (S line) <? Z.of_nat (length lineOffsets))%Z eqn:Hnext.
  - apply Z.ltb_lt in Hnext. rewrite Nat2Z.id.
    destruct (lookup_lt_is_Some_2 lineOffsets (S line)) as [next Hnextth];
      [lia|].
    rewrite Hnextth. cbn [fst].
    pose proof (Habove (S line) next ltac:(lia) Hnextth). f_equal. lia.
  - cbn [fst]. f_equal. unfold e in *. lia.
Qed.

(** * Sorting the edits *)

Section MergeSortFacts.
Context {A : Type}.
Variable compare : A → A → Z.

Lemma merge_nil_r (left : list A) : MergeSort.merge compare left [] = left.
Proof. by destruct left. Qed.

Lemma merge_Permutation (left right : list A) :
  MergeSort.merge compare left right ≡ₚ left ++ right.
Proof.
  revert right. induction left as [|x left IH]; intros right; [by destruct right|].
  induction right as [|y right IHr]; [by rewrite merge_nil_r, app_nil_r|].
  cbn [MergeSort.merge]. destruct (compare x y <=? 0)%Z.
  - cbn. by rewrite IH.
  - change ((fix merge_right (right0 : list A) : list A :=
               match right0 with
               | [] => x :: left
               | y0 :: right' =>
                   if (compare x y0 <=? 0)%Z
                   then x :: MergeSort.merge compare left right0
                   else y0 :: merge_right right'
               end) right)
      with (MergeSort.merge compare (x :: left) right).
    rewrite IHr. by rewrite <-Permutation_middle.
Qed.

Hypothesis compare_total : ∀ x y, (0 < compare x y → compare y x ≤ 0)%Z.
Hypothesis compare_trans :
  ∀ x y z, (compare x y ≤ 0 → compare y z ≤ 0 → compare x z ≤ 0)%Z.

Lemma merge_sorted (left right : list A) :
  StronglySorted (λ x y, compare x y ≤ 0)%Z left →
  StronglySorted (λ x y, compare x y ≤ 0)%Z right →
  StronglySorted (λ x y, compare x y ≤ 0)%Z
    (MergeSort.merge compare left right).
Proof.
  intros Hleft. revert right.
  induction Hleft as [|x left Hleft IH Hx]; intros right Hright;
    [by destruct right|].
  induction Hright as [|y right Hright IHr Hy];
    [rewrite merge_nil_r; by constructor|].
  cbn [MergeSort.merge]. destruct (compare x y <=? 0)%Z eqn:Hcmp.
  - apply Z.leb_le in Hcmp. constructor; [apply IH; by constructor|].
    rewrite merge_Permutation. apply Forall_app. split; [done|].
    constructor; [done|]. eapply Forall_impl; [done|].
    intros z Hz. by eapply compare_trans.
  - apply Z.leb_gt in Hcmp.
    change ((fix merge_right (right0 : list A) : list A :=
               match right0 with
               | [] => x :: left
               | y0 :: right' =>
                   if (compare x y0 <=? 0)%Z
                   then x :: MergeSort.merge compare left right0
                   else y0 :: merge_right right'
               end) right)
      with (MergeSort.merge compare (x :: left) right).
    constructor; [done|].
    rewrite merge_Permutation. apply Forall_app. split; [|done].
    pose proof (compare_total x y Hcmp) as Hyx.
    constructor; [done|]. eapply Forall_impl; [done|].
    intros z Hz. by eapply compare_trans.
Qed.

Lemma mergeSort_rec_sorts fuel (data : list A) :
  length data < fuel →
  ∃ sorted,
    MergeSort.mergeSort_rec compare fuel data = Some sorted
    ∧ sorted ≡ₚ data
    ∧ StronglySorted (λ x y, compare x y ≤ 0)%Z sorted.
Proof.
  revert data. induction fuel as [|fuel IH]; intros data Hfuel; [lia|].
  cbn [MergeSort.mergeSort_rec].
  destruct (length data <=? 1) eqn:Hshort.
  { apply Nat.leb_le in Hshort. exists data. split; [done|]. split; [done|].
    destruct data as [|x [|y data]]; [repeat constructor..|cbn in *; lia]. }
  apply Nat.leb_gt in Hshort.
  assert (0 < length data / 2 < length data) as Hhalf.
  { split.
    - apply Nat.div_str_pos. lia.
    - apply Nat.div_lt; lia. }
  destruct (IH (take (length data / 2) data)) as (left & -> & Hpl & Hsl).
  { rewrite length_take. lia. }
  destruct (IH (drop (length data / 2) data)) as (right & -> & Hpr & Hsr).
  { rewrite length_drop. lia. }
  cbn. eexists. split; [done|]. split; [|by apply merge_sorted].
  by rewrite merge_Permutation, Hpl, Hpr, take_drop.
Qed.

Lemma filter_none {B : Type} (P : B → Prop) `{∀ y, Decision (P y)}
    (l : list B) :
  Forall (λ y, ¬ P y) l → filter P l = [].
Proof.
  induction 1 as [|y l Hy _ IH]; [done|]. by rewrite filter_cons_False.
Qed.

(** Merging a sorted left half with a right half keeps, among the elements
    that compare equal to [x], those of the left half before those of the
    right half. *)
Lemma merge_filter (x : A) (left right : list A) :
  StronglySorted (λ x y, compare x y ≤ 0)%Z left →
  filter (λ y, compare x y ≤ 0 ∧ compare y x ≤ 0)%Z
    (MergeSort.merge compare left right)
  = filter (λ y, compare x y ≤ 0 ∧ compare y x ≤ 0)%Z left
    ++ filter (λ y, compare x y ≤ 0 ∧ compare y x ≤ 0)%Z right.
Proof.
  intros Hleft. revert right.
  induction Hleft as [|a left Hleft IH Ha]; intros right;
    [by destruct right|].
  induction right as [|b right IHr];
    [by rewrite merge_nil_r, filter_nil, app_nil_r|].
  cbn [MergeSort.merge]. destruct (compare a b <=? 0)%Z eqn:Hcmp.
  - rewrite !(filter_cons _ a), IH. by destruct (decide _).
  - apply Z.leb_gt in Hcmp.
    change ((fix merge_right (right0 : list A) : list A :=
               match right0 with
               | [] => a :: left
               | y0 :: right' =>
                   if (compare a y0 <=? 0)%Z
                   then a :: MergeSort.merge compare left right0
                   else y0 :: merge_right right'
               end) right)
      with (MergeSort.merge compare (a :: left) right).
    rewrite !(filter_cons _ b), IHr.
    destruct (decide _) as [[Hxb Hbx]|Hb]; [|done].
    rewrite (filter_none _ (a :: left)); [done|].
    assert (compare a a ≤ 0)%Z as Haa.
    { destruct (Z.le_gt_cases (compare a a) 0) as [|Hlt]; [done|].
      by apply compare_total. }
    apply Forall_cons. split.
    + intros [_ Hax]. pose proof (compare_trans _ _ _ Hax Hxb). lia.
    + eapply Forall_impl; [exact Ha|]. intros z Haz [_ Hzx].
      pose proof (compare_trans _ _ _ Haz (compare_trans _ _ _ Hzx Hxb)).
      lia.
Qed.

Lemma mergeSort_rec_stable fuel (x : A) (data sorted : list A) :
  MergeSort.mergeSort_rec compare fuel data = Some sorted →
  length data < fuel →
  filter (λ y, compare x y ≤ 0 ∧ compare y x ≤ 0)%Z sorted
  = filter (λ y, compare x y ≤ 0 ∧ compare y x ≤ 0)%Z data.
Proof.
  revert data sorted.
  induction fuel as [|fuel IH]; intros data sorted Hsort Hfuel; [lia|].
  cbn [MergeSort.mergeSort_rec] in Hsort.
  destruct (length data <=? 1) eqn:Hshort; [by injection Hsort as <-|].
  apply Nat.leb_gt in Hshort.
  assert (0 < length data / 2 < length data) as Hhalf.
  { split.
    - apply Nat.div_str_pos. lia.
    - apply Nat.div_lt; lia. }
  destruct (mergeSort_rec_sorts fuel (take (length data / 2) data))
    as (left & Hleft & _ & Hsorted).
  { rewrite length_take. lia. }
  destruct (mergeSort_rec_sorts fuel (drop (length data / 2) data))
    as (right & Hright & _ & _).
  { rewrite length_drop. lia. }
  rewrite Hleft, Hright in Hsort. cbn in Hsort. injection Hsort as <-.
  rewrite (merge_filter x left right Hsorted).
  rewrite (IH _ _ Hleft), (IH _ _ Hright), <-filter_app, take_drop;
    [done|rewrite length_drop; lia|rewrite length_take; lia].
Qed.

(** X22.  [mergeSort] sorts.  For a comparison function that is total and
    transitive, [mergeSort] returns the elements it was given, each as often
    as it was given, in an order in which no element compares greater than
    a later one. *)
Theorem mergeSort_sorts (data : list A) :
  ∃ sorted,
    MergeSort.mergeSort compare data = Some sorted
    ∧ sorted ≡ₚ data
    ∧ StronglySorted (λ x y, compare x y ≤ 0)%Z sorted.
Proof. apply mergeSort_rec_sorts. lia. Qed.

(** X23.  [mergeSort] is stable.  For a comparison function that is total
    and transitive, the elements that compare equal to one another (neither
    greater than the other) come out of [mergeSort] in the order in which
    they went in: edits at the same position keep their order. *)
Theorem mergeSort_stable (x : A) (data sorted : list A) :
  MergeSort.mergeSort compare data = Some sorted →
  filter (λ y, compare x y ≤ 0 ∧ compare y x ≤ 0)%Z sorted
  = filter (λ y, compare x y ≤ 0 ∧ compare y x ≤ 0)%Z data.
Proof. intros Hsort. by apply (mergeSort_rec_stable _ x) in Hsort; [|lia]. Qed.

End MergeSortFacts.

(** * Edits *)

Lemma inOrder_le bound pos edits : inOrder bound pos edits → pos ≤ bound.
Proof.
  revert pos. induction edits as [|edit edits IH]; intros pos; cbn; [done|].
  intros [Hpos Hrest]. apply IH in Hrest. lia.
Qed.

Lemma applyEdits_spliceAll text edits : ∀ pos,
  inOrder (length text) pos edits →
  Edit.applyEdits text edits = take pos text ++ spliceAll text pos edits.
Proof.
  induction edits as [|edit edits IH]; intros pos; cbn [inOrder].
  - intros _. cbn. by rewrite take_drop.
  - intros [Hpos Hrest]. pose proof (inOrder_le _ _ _ Hrest) as Hend.
    cbn [Edit.applyEdits foldr spliceAll].
    change (foldr (λ edit text, Edit.applyEdit text edit) text edits)
      with (Edit.applyEdits text edits).
    rewrite (IH _ Hrest). unfold Edit.applyEdit, JS.substring.
    rewrite !Nat.min_l, !Nat.max_r, Nat.sub_0_r, drop_0 by lia.
    rewrite take_app_le by (rewrite length_take; lia).
    rewrite take_take, Nat.min_l by lia.
    rewrite drop_app_length' by (rewrite length_take; lia).
    rewrite !app_assoc. f_equal. f_equal.
    rewrite <-(take_drop pos (take (Edit.offset edit) text)) at 1.
    rewrite take_take, Nat.min_l by lia. f_equal.
    by rewrite skipn_firstn_comm.
Qed.

(** X24.  Edits made in one go.  [applyEdits] applies the edits from the last
    to the first; for edits that come in the order of their offsets, none
    reaching into the next and the last ending within the text, the result
    is the text with every edit made at its place in the original text. *)
Theorem applyEdits_inOrder text edits :
  inOrder (length text) 0 edits →
  Edit.applyEdits text edits = spliceAll text 0 edits.
Proof. intros Horder. by rewrite (applyEdits_spliceAll text edits 0). Qed.

(** * Strings *)

Lemma startsWith_loop_prefix haystack needle :
  Strings.startsWith_loop haystack needle = true ↔ needle `prefix_of` haystack.
Proof.
  revert haystack. induction needle as [|n needle IH]; intros haystack.
  - destruct haystack; cbn; split; try done; intros _; apply prefix_nil.
  - destruct haystack as [|h haystack]; cbn.
    + split; [done|]. by intros ?%prefix_nil_not.
    + case_bool_decide as Hne.
      * split; [done|]. intros Hpre. apply prefix_cons_inv_1 in Hpre. congruence.
      * subst h. rewrite IH. split.
        -- apply prefix_cons.
        -- apply prefix_cons_inv_2.
Qed.

Lemma lastIndexOf_from_le text search k :
  (Strings.lastIndexOf_from text search k ≤ Z.of_nat k)%Z.
Proof.
  induction k as [|k IH]; cbn [Strings.lastIndexOf_from];
    case_bool_decide; lia.
Qed.

Lemma lastIndexOf_from_top text search k :
  Strings.lastIndexOf_from text search k = Z.of_nat k
  ↔ take (length search) (drop k text) = search.
Proof.
  pose proof (lastIndexOf_from_le text search (pred k)) as Hle.
  destruct k as [|k]; cbn [Strings.lastIndexOf_from pred] in *;
    case_bool_decide; (split; [try done; lia|done]).
Qed.

(** X25.  [startsWith] and [endsWith] decide what their names say:
    [startsWith(haystack, needle)] holds exactly when the haystack begins
    with the needle, [endsWith(haystack, needle)] exactly when it ends with
    it (the empty needle included). *)
Theorem startsWith_endsWith haystack needle :
  (Strings.startsWith haystack needle = true ↔ needle `prefix_of` haystack)
  ∧ (Strings.endsWith haystack needle = true ↔ needle `suffix_of` haystack).
Proof.
  split.
  - unfold Strings.startsWith.
    destruct (length haystack <? length needle) eqn:Hlen.
    + apply Nat.ltb_lt in Hlen. split; [done|].
      intros ?%prefix_length. lia.
    + apply startsWith_loop_prefix.
  - unfold Strings.endsWith. cbn zeta.
    destruct (0 <? Z.of_nat (length haystack) - Z.of_nat (length needle))%Z
      eqn:Hdiff.
    + apply Z.ltb_lt in Hdiff. rewrite bool_decide_eq_true.
      unfold Strings.lastIndexOf.
      rewrite (proj2 (Nat.ltb_ge _ _)) by lia.
      replace (Z.of_nat (length haystack) - Z.of_nat (length needle))%Z
        with (Z.of_nat (length haystack - length needle)) by lia.
      rewrite lastIndexOf_from_top. split.
      * intros Htake. exists (take (length haystack - length needle) haystack).
        rewrite take_ge in Htake by (rewrite length_drop; lia).
        rewrite <-Htake at 2. by rewrite take_drop.
      * intros [k ->]. rewrite length_app.
        replace (length k + length needle - length needle) with (length k)
          by lia.
        rewrite drop_app_length. by rewrite take_ge.
    + apply Z.ltb_ge in Hdiff. rewrite andb_true_iff, !bool_decide_eq_true.
      split.
      * by intros [_ ->].
      * intros Hsuffix. pose proof (suffix_length _ _ Hsuffix) as Hlen.
        split; [lia|].
        destruct Hsuffix as [k ->]. rewrite length_app in Hdiff.
        assert (k = []) as -> by (apply length_zero_iff_nil; lia). done.
Qed.

Lemma concat_replicate_double (value : list Z) (k : nat) :
  concat (replicate k (value ++ value)) = concat (replicate (2 * k) value).
Proof.
  induction k as [|k IH]; [done|].
  replace (2 * S k) with (S (S (2 * k))) by lia. cbn. rewrite IH.
  by rewrite <-app_assoc.
Qed.

Lemma repeat_step (value s : list Z) (count : Z) :
  (0 < count < 2 ^ 32)%Z →
  (if (Z.land 1 count =? 1)%Z then s ++ value else s)
  ++ concat (replicate (Z.to_nat (Z.shiftr count 1)) (value ++ value))
  = s ++ concat (replicate (Z.to_nat count) value).
Proof.
  intros Hcount. rewrite concat_replicate_double.
  rewrite Z.shiftr_div_pow2 by lia. change (2 ^ 1)%Z with 2%Z.
  rewrite Z.land_comm. change 1%Z with (Z.ones 1) at 1.
  rewrite Z.land_ones by lia. change (2 ^ 1)%Z with 2%Z.
  pose proof (Z.div_mod count 2 ltac:(lia)) as Hdiv.
  pose proof (Z.mod_pos_bound count 2 ltac:(lia)) as Hmod.
  destruct (count mod 2 =? 1)%Z eqn:Hodd.
  - apply Z.eqb_eq in Hodd.
    replace (Z.to_nat count) with (S (2 * Z.to_nat (count / 2))) by lia.
    cbn [replicate concat]. by rewrite <-app_assoc.
  - apply Z.eqb_neq in Hodd.
    by replace (Z.to_nat count) with (2 * Z.to_nat (count / 2)) by lia.
Qed.

Section RepeatFacts.
Variable maxStringLength : nat.

Lemma repeat_loop_S fuel value count s :
  Strings.repeat_loop maxStringLength (S fuel) value count s
  = if (0 <? count)%Z
    then
      match
        (if (Z.land 1 count =? 1)%Z
         then Strings.append maxStringLength s value
         else Strings.Returns s)
      with
      | Strings.Returns s =>
          match Strings.append maxStringLength value value with
          | Strings.Returns value =>
              Strings.repeat_loop maxStringLength fuel value
                (Z.shiftr (count mod 2 ^ 32) 1) s
          | Strings.RangeError => Some Strings.RangeError
          end
      | Strings.RangeError => Some Strings.RangeError
      end
    else Some (Strings.Returns s).
Proof. done. Qed.

Lemma append_Returns a b :
  length a + length b ≤ maxStringLength →
  Strings.append maxStringLength a b = Strings.Returns (a ++ b).
Proof.
  intros Hle. unfold Strings.append.
  by rewrite (proj2 (Nat.leb_le _ _) Hle).
Qed.

Lemma append_cases a b :
  Strings.append maxStringLength a b = Strings.RangeError
  ∨ (length a + length b ≤ maxStringLength
     ∧ Strings.append maxStringLength a b = Strings.Returns (a ++ b)).
Proof.
  unfold Strings.append. destruct (_ <=? _) eqn:Hle; [|by left].
  apply Nat.leb_le in Hle. by right.
Qed.

(** The rounds of the loop double the value once for every bit of the
    count: the loop returns when the value doubled that often is within the
    greatest length, and fails otherwise. *)
Lemma repeat_loop_returns fuel : ∀ value count s,
  (0 ≤ count < 2 ^ Z.of_nat fuel)%Z →
  (count < 2 ^ 32)%Z →
  length s ≤ length value →
  Strings.repeat_loop maxStringLength (S fuel) value count s
  = Some
      (if (0 <? count)%Z
       then
         if length value * 2 ^ S (Z.to_nat (Z.log2 count))
            <=? maxStringLength
         then
           Strings.Returns (s ++ concat (replicate (Z.to_nat count) value))
         else Strings.RangeError
       else Strings.Returns s).
Proof.
  induction fuel as [|fuel IH]; intros value count s Hcount Hword Hs;
    rewrite repeat_loop_S.
  { assert (count = 0%Z) as -> by (cbn in Hcount; lia). done. }
  destruct (0 <? count)%Z eqn:Hpos; [|done].
  apply Z.ltb_lt in Hpos.
  rewrite Z.mod_small by lia.
  assert (Z.shiftr count 1 = count / 2)%Z as Hshift.
  { rewrite Z.shiftr_div_pow2 by lia. done. }
  assert (0 ≤ count / 2 < 2 ^ Z.of_nat fuel)%Z as Hhalf.
  { rewrite Nat2Z.inj_succ, Z.pow_succ_r in Hcount by lia.
    split; [apply Z.div_pos; lia|]. apply Z.div_lt_upper_bound; lia. }
  assert (count / 2 < 2 ^ 32)%Z as Hword'.
  { apply Z.div_lt_upper_bound; lia. }
  set (k := Z.to_nat (Z.log2 count)).
  assert ((0 < count / 2)%Z → k = S (Z.to_nat (Z.log2 (count / 2)))) as Hk.
  { intros Hpos'. unfold k. rewrite <-Hshift, Z.log2_shiftr by lia.
    assert (1 ≤ Z.log2 count)%Z; [|lia].
    apply Z.log2_le_pow2; [lia|]. change (2 ^ 1)%Z with 2%Z.
    pose proof (Z.div_mod count 2 ltac:(lia)).
    pose proof (Z.mod_pos_bound count 2 ltac:(lia)). lia. }
  assert ((count / 2 = 0)%Z → k = 0 ∧ count = 1%Z) as Hone.
  { intros Hzero.
    pose proof (Z.div_mod count 2 ltac:(lia)).
    pose proof (Z.mod_pos_bound count 2 ltac:(lia)).
    assert (count = 1%Z) as -> by lia. done. }
  rewrite Hshift.
  pose proof (repeat_step value s count ltac:(lia)) as Hstep.
  rewrite Hshift in Hstep.
  assert (length (value ++ value) = 2 * length value) as Hdouble.
  { rewrite length_app. lia. }
  assert (2 ^ S k = 2 * 2 ^ k) as Hpow by apply Nat.pow_succ_r'.
  assert (1 ≤ 2 ^ k) as Hone_le.
  { apply Nat.neq_0_lt_0, Nat.pow_nonzero. lia. }
  destruct (length value * 2 ^ S k <=? maxStringLength) eqn:Hfits.
  - (* the doubled value fits: no concatenation fails *)
    apply Nat.leb_le in Hfits.
    assert (2 * length value ≤ maxStringLength) as Hfit1 by nia.
    assert ((if (Z.land 1 count =? 1)%Z
             then Strings.append maxStringLength s value
             else Strings.Returns s)
            = Strings.Returns
                (if (Z.land 1 count =? 1)%Z then s ++ value else s)) as ->.
    { destruct (_ =? _)%Z; [|done]. apply append_Returns. lia. }
    rewrite append_Returns by lia.
    rewrite IH; [|done|done|]; last first.
    { rewrite Hdouble. destruct (_ =? _)%Z; [rewrite length_app|]; lia. }
    f_equal. destruct (0 <? count / 2)%Z eqn:Hpos'.
    + apply Z.ltb_lt in Hpos'. rewrite <-(Hk Hpos'), Hdouble.
      rewrite (proj2 (Nat.leb_le _ _)) by nia. by rewrite Hstep.
    + apply Z.ltb_ge in Hpos'. rewrite <-Hstep.
      replace (count / 2)%Z with 0%Z by lia. cbn. by rewrite app_nil_r.
  - (* it does not fit: some concatenation fails *)
    apply Nat.leb_gt in Hfits.
    destruct (_ =? _)%Z.
    + destruct (append_cases s value) as [->|[_ ->]]; [done|].
      destruct (append_cases value value) as [->|[Hfit1 ->]]; [done|].
      rewrite IH; [|done|done|rewrite Hdouble, length_app; lia].
      f_equal. destruct (0 <? count / 2)%Z eqn:Hpos'.
      * apply Z.ltb_lt in Hpos'. rewrite <-(Hk Hpos'), Hdouble.
        by rewrite (proj2 (Nat.leb_gt _ _)) by nia.
      * apply Z.ltb_ge in Hpos'. destruct Hone as [Hzero _]; [lia|].
        rewrite Hzero in Hfits. cbn in Hfits. lia.
    + destruct (append_cases value value) as [->|[Hfit1 ->]]; [done|].
      rewrite IH; [|done|done|rewrite Hdouble; lia].
      f_equal. destruct (0 <? count / 2)%Z eqn:Hpos'.
      * apply Z.ltb_lt in Hpos'. rewrite <-(Hk Hpos'), Hdouble.
        by rewrite (proj2 (Nat.leb_gt _ _)) by nia.
      * apply Z.ltb_ge in Hpos'. destruct Hone as [Hzero _]; [lia|].
        rewrite Hzero in Hfits. cbn in Hfits. lia.
Qed.

(** X26.  [repeat] by doubling.  For a count that is not positive [repeat]
    returns the empty string.  For a positive count, read modulo 2^32 (the
    unsigned shift of the loop keeps the low 32 bits), it doubles the value
    once for every bit of the count and once at least: when the value
    doubled that often is no longer than the engine allows a string,
    [repeat] returns the value repeated as often as the count says;
    otherwise it throws a [RangeError], also where the result itself would
    be short enough. *)
Theorem repeat_replicates value count :
  Strings.repeat maxStringLength value count
  = Some
      (if (0 <? count)%Z
       then
         if length value * 2 ^ S (Z.to_nat (Z.log2 (count mod 2 ^ 32)))
            <=? maxStringLength
         then
           Strings.Returns
             (concat (replicate (Z.to_nat (count mod 2 ^ 32)) value))
         else Strings.RangeError
       else Strings.Returns []).
Proof.
  unfold Strings.repeat.
  destruct (0 <? count)%Z eqn:Hpos; [|by rewrite repeat_loop_S, Hpos].
  apply Z.ltb_lt in Hpos.
  pose proof (Z.mod_pos_bound count (2 ^ 32) ltac:(lia)) as Hword.
  destruct (decide (count mod 2 ^ 32 = 0)%Z) as [Hzero|Hzero].
  - (* a multiple of 2^32: one round, which adds nothing *)
    rewrite repeat_loop_S, (proj2 (Z.ltb_lt _ _) Hpos), Hzero.
    assert (Z.land 1 count = 0)%Z as ->.
    { rewrite Z.land_comm. change 1%Z with (Z.ones 1).
      rewrite Z.land_ones by lia. change (2 ^ 1)%Z with 2%Z.
      rewrite <-(Z.mod_mod_divide count (2 ^ 32) 2), Hzero; [done|].
      by exists (2 ^ 31)%Z. }
    change (Z.log2 0) with 0%Z. change (Z.shiftr 0 1) with 0%Z.
    change (Z.to_nat 0) with 0. change (0 =? 1)%Z with false.
    cbn [Nat.pow replicate concat]. unfold Strings.append.
    replace (length value * (2 * 1)) with (length value + length value)
      by lia.
    by destruct (_ <=? _).
  - pose proof (repeat_loop_returns 32 value (count mod 2 ^ 32) []
                  ltac:(lia) ltac:(lia) ltac:(cbn [length]; lia)) as Hloop.
    rewrite (proj2 (Z.ltb_lt 0%Z (count mod 2 ^ 32)%Z)) in Hloop by lia.
    cbn [app] in Hloop. rewrite <-Hloop.
    rewrite (repeat_loop_S 32 value (count mod 2 ^ 32)), repeat_loop_S.
    rewrite (proj2 (Z.ltb_lt _ _) Hpos).
    rewrite (proj2 (Z.ltb_lt (0)%Z (count mod 2 ^ 32)%Z)) by lia.
    rewrite Z.mod_mod by lia.
    assert (Z.land 1 count = Z.land 1 (count mod 2 ^ 32)) as ->.
    { rewrite !(Z.land_comm 1). change 1%Z with (Z.ones 1).
      rewrite !Z.land_ones by lia. change (2 ^ 1)%Z with 2%Z.
      rewrite Z.mod_mod_divide; [done|]. by exists (2 ^ 31)%Z. }
    done.
Qed.

End RepeatFacts.

(** With strings of at most 7 code units, [repeat("ab", 2)] fails on the
    second doubling of the value, although [abab] has 4 code units only. *)
Example repeat_RangeError :
  Strings.repeat 7 (JS.codes "ab") 2 = Some Strings.RangeError
  ∧ Strings.repeat 8 (JS.codes "ab") 2
    = Some (Strings.Returns (JS.codes "abab")).
Proof. split; reflexivity. Qed.

(** * Colors *)

Lemma hexDigit_range charCode : (0 ≤ Colors.hexDigit charCode ≤ 15)%Z.
Proof.
  unfold Colors.hexDigit.
  repeat (case_match;
          rewrite ?Z.ltb_lt, ?Z.ltb_ge, ?Z.leb_le, ?Z.leb_gt,
            ?andb_true_iff, ?andb_false_iff in *); lia.
Qed.

Lemma digitAt_range text i : (0 ≤ Colors.digitAt text i ≤ 15)%Z.
Proof.
  unfold Colors.digitAt. destruct (text !! i); cbn; [|lia].
  apply hexDigit_range.
Qed.

(** A property checked on each of the 256 bytes holds of every byte. *)
Lemma byte_cases (f : Z → bool) :
  forallb f (seqZ 0 256) = true → ∀ n, (0 ≤ n ≤ 255)%Z → f n = true.
Proof.
  intros Hall n Hn. rewrite forallb_forall in Hall. apply Hall.
  apply list_elem_of_In, elem_of_seqZ. lia.
Qed.

Lemma channel_range n :
  (0 ≤ n ≤ 255)%Z →
  PrimFloat.leb 0 (Colors.ofZ n / 255) = true
  ∧ PrimFloat.leb (Colors.ofZ n / 255) 1 = true.
Proof.
  intros Hn. apply andb_true_iff.
  revert n Hn.
  apply (byte_cases (λ n, PrimFloat.leb 0 (Colors.ofZ n / 255)
                          && PrimFloat.leb (Colors.ofZ n / 255) 1)).
  by vm_compute.
Qed.

(** X27.  Colors from hexadecimal notation.  [colorFromHex] returns a color
    exactly for a text of 4, 5, 7 or 9 code units that starts with [#], and
    every channel of the color lies between 0 and 1: a code unit that is no
    hexadecimal digit counts as the digit 0. *)
Theorem colorFromHex_channels text :
  (is_Some (Colors.colorFromHex text)
   ↔ text !! 0 = Some 35%Z ∧ length text ∈ [4; 5; 7; 9])
  ∧ ∀ color,
      Colors.colorFromHex text = Some color →
      Forall (λ channel, PrimFloat.leb 0 channel = true
                         ∧ PrimFloat.leb channel 1 = true)
        [Colors.red color; Colors.green color; Colors.blue color;
         Colors.alpha color].
Proof.
  unfold Colors.colorFromHex.
  assert (∀ i, PrimFloat.leb 0 (Colors.ofZ (17 * Colors.digitAt text i) / 255)
               = true
               ∧ PrimFloat.leb
                   (Colors.ofZ (17 * Colors.digitAt text i) / 255) 1 = true)
    as Hone.
  { intros i. apply channel_range. pose proof (digitAt_range text i). lia. }
  assert (∀ i, PrimFloat.leb 0
                 (Colors.ofZ (16 * Colors.digitAt text i
                              + Colors.digitAt text (S i)) / 255) = true
               ∧ PrimFloat.leb
                   (Colors.ofZ (16 * Colors.digitAt text i
                                + Colors.digitAt text (S i)) / 255) 1 = true)
    as Htwo.
  { intros i. apply channel_range.
    pose proof (digitAt_range text i). pose proof (digitAt_range text (S i)).
    lia. }
  assert (PrimFloat.leb 0 1 = true ∧ PrimFloat.leb 1 1 = true) as Hopaque
    by (by vm_compute).
  case_bool_decide as Hhash.
  { split.
    - split; [by intros [? ?]|]. by intros [? _].
    - done. }
  destruct (length text) as [|[|[|[|[|[|[|[|[|[|n]]]]]]]]]] eqn:Hlen; cbn zeta.
  all: split;
    [split;
     [intros Hsome;
      first [by destruct Hsome as [? [=]] | split; [done|rewrite !elem_of_cons; lia]]
     |intros [_ Hin]; first [done | rewrite !elem_of_cons, elem_of_nil in Hin; lia]]
    |intros color Hcolor; try done;
     injection Hcolor as <-; cbn [Colors.red Colors.green Colors.blue
                                    Colors.alpha];
     repeat constructor; first [apply Hone | apply Htwo | apply Hopaque]].
Qed.

Lemma round_byte n :
  (0 ≤ n ≤ 255)%Z →
  Colors.round (255 * (Colors.ofZ n / 255)) = Colors.Integer n.
Proof.
  intros Hn.
  pose proof (byte_cases
    (λ n, match Colors.round (255 * (Colors.ofZ n / 255)) with
          | Colors.Integer m => (m =? n)%Z
          | _ => false
          end) ltac:(by vm_compute) n Hn) as Hround.
  cbv beta in Hround.
  destruct (Colors.round _); [|done..].
  by apply Z.eqb_eq in Hround as ->.
Qed.

Lemma twoDigits_byte n :
  (0 ≤ n ≤ 255)%Z → Colors.twoDigits (Colors.Integer n) = byteDigits n.
Proof.
  intros Hn.
  pose proof (byte_cases
    (λ n, match Colors.twoDigits (Colors.Integer n) with
          | [high; low] =>
              (high =? Colors.hexChar (n / 16))%Z
              && (low =? Colors.hexChar (n mod 16))%Z
          | _ => false
          end) ltac:(by vm_compute) n Hn) as Hdigits.
  cbv beta in Hdigits.
  destruct (Colors.twoDigits _) as [|high [|low [|]]]; [done..| |done].
  apply andb_true_iff in Hdigits as [->%Z.eqb_eq ->%Z.eqb_eq]. done.
Qed.

Lemma opaque_byte a :
  (0 ≤ a ≤ 255)%Z →
  PrimFloat.eqb 1 (Colors.ofZ a / 255) = (a =? 255)%Z.
Proof.
  intros Ha.
  pose proof (byte_cases
    (λ a, Bool.eqb (PrimFloat.eqb 1 (Colors.ofZ a / 255)) (a =? 255)%Z)
    ltac:(by vm_compute) a Ha) as Hopaque.
  by apply Bool.eqb_prop in Hopaque.
Qed.

Lemma hexDigit_hexChar d :
  (0 ≤ d ≤ 15)%Z → Colors.hexDigit (Colors.hexChar d) = d.
Proof.
  intros Hd. unfold Colors.hexDigit, Colors.hexChar.
  repeat (case_match;
          rewrite ?Z.ltb_lt, ?Z.ltb_ge, ?Z.leb_le, ?Z.leb_gt,
            ?andb_true_iff, ?andb_false_iff in *); lia.
Qed.

Lemma byteDigits_value n high low :
  (0 ≤ n ≤ 255)%Z →
  byteDigits n = [high; low] →
  (16 * Colors.hexDigit high + Colors.hexDigit low)%Z = n.
Proof.
  intros Hn [= <- <-].
  rewrite !hexDigit_hexChar.
  - pose proof (Z.div_mod n 16). lia.
  - pose proof (Z.mod_pos_bound n 16). lia.
  - split; [apply Z.div_pos; lia|].
    apply Z.lt_succ_r, Z.div_lt_upper_bound; lia.
Qed.

(** The label of a byte color: the digits of its bytes, those of the alpha
    byte left out when it is 255. *)
Lemma colorLabel_byteColor r g b a :
  (0 ≤ r ≤ 255)%Z → (0 ≤ g ≤ 255)%Z → (0 ≤ b ≤ 255)%Z → (0 ≤ a ≤ 255)%Z →
  Colors.colorLabel (byteColor r g b a)
  = [35%Z] ++ byteDigits r ++ byteDigits g ++ byteDigits b
    ++ (if (a =? 255)%Z then [] else byteDigits a).
Proof.
  intros Hr Hg Hb Ha.
  unfold Colors.colorLabel, byteColor, Colors.colorFrom256RGB.
  cbn [Colors.red Colors.green Colors.blue Colors.alpha default
       from_option id].
  rewrite !round_byte, !twoDigits_byte, opaque_byte by done.
  destruct (a =? 255)%Z; [by rewrite app_nil_r|done].
Qed.

(** [colorFromHex] reads the label of a byte color as that color. *)
Lemma colorFromHex_byteDigits r g b a :
  (0 ≤ r ≤ 255)%Z → (0 ≤ g ≤ 255)%Z → (0 ≤ b ≤ 255)%Z → (0 ≤ a ≤ 255)%Z →
  Colors.colorFromHex
    ([35%Z] ++ byteDigits r ++ byteDigits g ++ byteDigits b
     ++ (if (a =? 255)%Z then [] else byteDigits a))
  = Some (byteColor r g b a).
Proof.
  intros Hr Hg Hb Ha.
  pose proof (byteDigits_value r _ _ Hr eq_refl) as Hred.
  pose proof (byteDigits_value g _ _ Hg eq_refl) as Hgreen.
  pose proof (byteDigits_value b _ _ Hb eq_refl) as Hblue.
  pose proof (byteDigits_value a _ _ Ha eq_refl) as Halpha.
  unfold byteColor, Colors.colorFrom256RGB. cbn [default from_option id].
  destruct (a =? 255)%Z eqn:Hopaque.
  - apply Z.eqb_eq in Hopaque as ->.
    unfold Colors.colorFromHex, Colors.digitAt, byteDigits.
    cbn [app length lookup list_lookup from_option bool_decide].
    rewrite bool_decide_false by (by intros []).
    by rewrite Hred, Hgreen, Hblue.
  - unfold Colors.colorFromHex, Colors.digitAt, byteDigits.
    cbn [app length lookup list_lookup from_option].
    rewrite bool_decide_false by (by intros []).
    by rewrite Hred, Hgreen, Hblue, Halpha.
Qed.

(** Every color that [colorFromHex] returns is a byte color. *)
Lemma colorFromHex_bytes text color :
  Colors.colorFromHex text = Some color →
  ∃ r g b a,
    ((0 ≤ r ≤ 255) ∧ (0 ≤ g ≤ 255) ∧ (0 ≤ b ≤ 255) ∧ (0 ≤ a ≤ 255))%Z
    ∧ color = byteColor r g b a.
Proof.
  unfold Colors.colorFromHex. case_bool_decide as Hhash; [done|].
  assert (1%float = (Colors.ofZ 255 / 255)%float) as Hopaque
    by (by vm_compute).
  pose proof (digitAt_range text) as Hdigit.
  destruct (length text) as [|[|[|[|[|[|[|[|[|[|n]]]]]]]]]];
    cbn zeta; intros [= <-].
  - exists (17 * Colors.digitAt text 1)%Z, (17 * Colors.digitAt text 2)%Z,
      (17 * Colors.digitAt text 3)%Z, 255%Z.
    pose proof (Hdigit 1). pose proof (Hdigit 2). pose proof (Hdigit 3).
    split; [lia|]. unfold byteColor, Colors.colorFrom256RGB.
    cbn [default from_option id]. by rewrite <-Hopaque.
  - exists (17 * Colors.digitAt text 1)%Z, (17 * Colors.digitAt text 2)%Z,
      (17 * Colors.digitAt text 3)%Z, (17 * Colors.digitAt text 4)%Z.
    pose proof (Hdigit 1). pose proof (Hdigit 2). pose proof (Hdigit 3).
    pose proof (Hdigit 4). split; [lia|done].
  - exists (16 * Colors.digitAt text 1 + Colors.digitAt text 2)%Z,
      (16 * Colors.digitAt text 3 + Colors.digitAt text 4)%Z,
      (16 * Colors.digitAt text 5 + Colors.digitAt text 6)%Z, 255%Z.
    pose proof (Hdigit 1). pose proof (Hdigit 2). pose proof (Hdigit 3).
    pose proof (Hdigit 4). pose proof (Hdigit 5). pose proof (Hdigit 6).
    split; [lia|]. unfold byteColor, Colors.colorFrom256RGB.
    cbn [default from_option id]. by rewrite <-Hopaque.
  - exists (16 * Colors.digitAt text 1 + Colors.digitAt text 2)%Z,
      (16 * Colors.digitAt text 3 + Colors.digitAt text 4)%Z,
      (16 * Colors.digitAt text 5 + Colors.digitAt text 6)%Z,
      (16 * Colors.digitAt text 7 + Colors.digitAt text 8)%Z.
    pose proof (Hdigit 1). pose proof (Hdigit 2). pose proof (Hdigit 3).
    pose proof (Hdigit 4). pose proof (Hdigit 5). pose proof (Hdigit 6).
    pose proof (Hdigit 7). pose proof (Hdigit 8). split; [lia|done].
Qed.

(** X28.  Round trip of byte colors.  The label that
    [getColorPresentations] gives the color [colorFrom256RGB(r, g, b, a/255)]
    of four bytes is read back by [colorFromHex] as that very color; the
    label has the digits of the alpha byte unless the byte is 255. *)
Theorem colorFromHex_colorLabel r g b a :
  (0 ≤ r ≤ 255)%Z → (0 ≤ g ≤ 255)%Z → (0 ≤ b ≤ 255)%Z → (0 ≤ a ≤ 255)%Z →
  Colors.colorFromHex (Colors.colorLabel (byteColor r g b a))
  = Some (byteColor r g b a)
  ∧ length (Colors.colorLabel (byteColor r g b a))
    = (if (a =? 255)%Z then 7 else 9).
Proof.
  intros Hr Hg Hb Ha. rewrite colorLabel_byteColor by done. split.
  - by apply colorFromHex_byteDigits.
  - by destruct (a =? 255)%Z.
Qed.

(** X29.  The label of a parsed color.  A color that [colorFromHex] reads
    from a text gets a label from [getColorPresentations] that
    [colorFromHex] reads as the same color. *)
Theorem colorLabel_colorFromHex text color :
  Colors.colorFromHex text = Some color →
  Colors.colorFromHex (Colors.colorLabel color) = Some color.
Proof.
  intros (r & g & b & a & (Hr & Hg & Hb & Ha) & ->)%colorFromHex_bytes.
  rewrite colorLabel_byteColor by done. by apply colorFromHex_byteDigits.
Qed.

(** * The statements at sample inputs *)

Lemma scan_end_witness :
  ∃ st',
    Scanner.scan (JS.codes "/*") false Scanner.initial = Some st'
    ∧ Scanner.getToken st' = 13
    ∧ Scanner.getTokenError st' = 1
    ∧ Scanner.getPosition st' = 3.
Proof.
  eexists. split; [vm_compute; reflexivity|].
  refine (proj2 (proj2 (scan_end (JS.codes "/*") Scanner.initial _
                          eq_refl _)) eq_refl).
  cbn. lia.
Defined.

Lemma scan_comment_value_witness :
  ∃ st',
    Scanner.scan (JS.codes "1//x") false
      (Scanner.setPosition 1 Scanner.initial) = Some st'
    ∧ Scanner.getTokenValue st' = JS.codes "1//x"
    ∧ Scanner.getTokenLength st' = 3%Z.
Proof.
  eexists. split; [vm_compute; reflexivity|].
  destruct (scan_comment_value (JS.codes "1//x")
              (Scanner.setPosition 1 Scanner.initial) _ eq_refl
              (or_introl eq_refl)) as [Hvalue Hlength].
  split; [exact Hvalue|].
  specialize (Hlength ltac:(vm_compute; lia) ltac:(vm_compute; lia)).
  vm_compute in Hlength |- *. congruence.
Defined.

Lemma scan_string_literal_witness :
  ∃ st',
    Scanner.scan ([34%Z] ++ JS.codes "ab" ++ [34%Z]) false Scanner.initial
    = Some st'
    ∧ Scanner.getToken st' = 10
    ∧ Scanner.getTokenValue st' = JS.codes "ab"
    ∧ Scanner.getTokenError st' = 0
    ∧ Scanner.getPosition st' = 4.
Proof.
  apply (scan_string_literal ([34%Z] ++ JS.codes "ab" ++ [34%Z])
           Scanner.initial (JS.codes "ab") []).
  - reflexivity.
  - unfold JS.codes. cbn [String.list_ascii_of_string fmap list_fmap].
    repeat constructor; unfold plainInString; cbn; lia.
Defined.

Lemma stripComments_plain_witness :
  JsoncParser.stripComments (JS.codes "{}") None = Some (JS.codes "{}").
Proof.
  apply (stripComments_plain (JS.codes "{}") None).
  unfold JS.codes. cbn [String.list_ascii_of_string fmap list_fmap].
  repeat constructor; cbn; lia.
Defined.

Lemma matches_prefix_witness :
  JsoncParser.matches [JsoncParser.Key "a"; JsoncParser.Index 0]
    [JsoncParser.Key "a"] = true
  ↔ ∃ matched rest,
      [JsoncParser.Key "a"; JsoncParser.Index 0] = matched ++ rest
      ∧ Forall2 (λ p segment, p = segment ∨ p = JsoncParser.Key "*")
          [JsoncParser.Key "a"] matched.
Proof.
  apply (matches_prefix [JsoncParser.Key "a"; JsoncParser.Index 0]
           [JsoncParser.Key "a"]).
  intros Hin. apply elem_of_cons in Hin as [Hin|Hin]; [discriminate|].
  by apply elem_of_nil in Hin.
Defined.

Lemma matches_double_star_witness :
  JsoncParser.matches [JsoncParser.Key "a"; JsoncParser.Key "b"]
    [JsoncParser.Key "**"; JsoncParser.Key "b"] = false.
Proof.
  apply matches_double_star.
  - apply elem_of_cons. by left.
  - intros Hin. repeat (apply elem_of_cons in Hin as [Hin|Hin]; [discriminate|]).
    by apply elem_of_nil in Hin.
Defined.

Lemma mergeSort_sorts_witness :
  ∃ sorted,
    MergeSort.mergeSort Z.sub [3; 1; 2]%Z = Some sorted
    ∧ sorted ≡ₚ [3; 1; 2]%Z
    ∧ StronglySorted (λ x y, x - y ≤ 0)%Z sorted.
Proof.
  apply (mergeSort_sorts Z.sub); intros; lia.
Defined.

Lemma applyEdits_inOrder_witness :
  Edit.applyEdits (JS.codes "abcdef")
    [Edit.mk 1 1 (JS.codes "X"); Edit.mk 3 2 (JS.codes "YZ");
     Edit.mk 5 0 (JS.codes "!")]
  = spliceAll (JS.codes "abcdef") 0
      [Edit.mk 1 1 (JS.codes "X"); Edit.mk 3 2 (JS.codes "YZ");
       Edit.mk 5 0 (JS.codes "!")].
Proof.
  apply applyEdits_inOrder. cbn. lia.
Defined.

Lemma colorFromHex_colorLabel_witness :
  Colors.colorFromHex (Colors.colorLabel (byteColor 255 0 128 255))
  = Some (byteColor 255 0 128 255)
  ∧ length (Colors.colorLabel (byteColor 255 0 128 255)) = 7.
Proof.
  apply (colorFromHex_colorLabel 255 0 128 255); lia.
Defined.

Lemma colorLabel_colorFromHex_witness :
  ∃ color,
    Colors.colorFromHex (JS.codes "#fa0") = Some color
    ∧ Colors.colorFromHex (Colors.colorLabel color) = Some color.
Proof.
  eexists. split; [reflexivity|].
  apply (colorLabel_colorFromHex (JS.codes "#fa0")). reflexivity.
Defined.

Lemma mergeSort_stable_witness :
  ∃ sorted,
    MergeSort.mergeSort (λ x y : Z * Z, x.1 - y.1)%Z
      [(1, 0); (0, 1); (1, 2)]%Z = Some sorted
    ∧ filter (λ y : Z * Z, 1 - y.1 ≤ 0 ∧ y.1 - 1 ≤ 0)%Z sorted
      = filter (λ y : Z * Z, 1 - y.1 ≤ 0 ∧ y.1 - 1 ≤ 0)%Z
          [(1, 0); (0, 1); (1, 2)]%Z.
Proof.
  eexists. split; [reflexivity|].
  apply (mergeSort_stable (λ x y : Z * Z, x.1 - y.1)%Z
           ltac:(intros; lia) ltac:(intros; lia) (1, 0)%Z
           [(1, 0); (0, 1); (1, 2)]%Z).
  reflexivity.
Defined.

Lemma scan_number_witness :
  ∃ st',
    Scanner.scan (JS.codes "-12.5e+3,") false Scanner.initial = Some st'
    ∧ jsonNumber (Scanner.getTokenValue st')
    ∧ Scanner.getTokenValue st' = JS.codes "-12.5e+3".
Proof.
  eexists. split; [vm_compute; reflexivity|].
  destruct (scan_number (JS.codes "-12.5e+3,") Scanner.initial _ eq_refl
              eq_refl eq_refl) as [Hnumber _].
  split; [exact Hnumber|]. vm_compute. reflexivity.
Defined.

Lemma findNodeAtLocation_app_witness :
  JsoncParser.findNodeAtLocation (Some SampleTree.nested)
    ([JsoncParser.Index 0] ++ [JsoncParser.Key "a"])
  = JsoncParser.findNodeAtLocation
      (Some
         (JsoncParser.mkNode "object" None 1 7
            (Some
               [JsoncParser.mkNode "property" None 2 5
                  (Some
                     [JsoncParser.mkNode "string"
                        (Some (JsoncParser.LString "a")) 2 3 None;
                      JsoncParser.mkNode "number"
                        (Some (JsoncParser.LNumber 1)) 6 1 None])])))
      [JsoncParser.Key "a"].
Proof.
  apply (findNodeAtLocation_app SampleTree.nested [JsoncParser.Index 0]).
  reflexivity.
Defined.

Lemma findNodeAtLocation_missing_value_witness :
  JsoncParser.findNodeAtLocation (Some SampleTree.incomplete)
    ([] ++ [JsoncParser.Key "b"]) = Normal None
  ∧ ∀ segment rest,
      JsoncParser.findNodeAtLocation (Some SampleTree.incomplete)
        ([] ++ JsoncParser.Key "b" :: segment :: rest)
      = Throw TypeError.
Proof.
  apply (findNodeAtLocation_missing_value SampleTree.incomplete []
           SampleTree.incomplete [SampleTree.propertyA] SampleTree.propertyB
           SampleTree.keyB [] "b"); try reflexivity.
  constructor; [|constructor]. right.
  exists SampleTree.keyA, [SampleTree.one]. split; reflexivity.
Defined.

Lemma findNodeAtLocation_complete_witness :
  ∃ result,
    JsoncParser.findNodeAtLocation (Some SampleTree.complete)
      [JsoncParser.Key "a"; JsoncParser.Index 0] = Normal result
    ∧ ∀ found, result = Some found → found ∈ subnodes SampleTree.complete.
Proof.
  apply (findNodeAtLocation_complete SampleTree.complete).
  cbn [subnodes SampleTree.complete SampleTree.propertyA SampleTree.keyA
       SampleTree.one JsoncParser.children flat_map app].
  repeat constructor; intros Htype; try discriminate Htype.
  intros properties property items [= <-] Hin Hitems.
  apply elem_of_cons in Hin as [->|Hin]; [|by apply elem_of_nil in Hin].
  injection Hitems as <-. cbn. lia.
Defined.
